(** * Real-ESRGAN inference helper ([realesrgan/utils.py])

    A shallow embedding of [RealESRGANer] (weight loading, padding,
    tiled inference, the [enhance] pipeline), of [PrefetchReader] and of
    [IOConsumer].

    Modelling conventions.
    - Python integers are [Z]; Python floats and array samples are exact
      rationals [Q] (floating-point rounding is not modelled).
    - A numpy array or torch tensor is an n-dimensional array: a shape
      (list of extents), an element type and a total function from index
      lists to samples.  Arrays live in a store; what Python code holds is
      a [handle]: a view (shape and index map) on a stored buffer, so that
      slices, transposes and squeezes alias their base as they do in
      numpy and torch, and in-place writes go through the view.
    - Methods of [RealESRGANer] are computations in a state-and-exception
      monad over the instance fields, the store, and a trace of what was
      printed and which inference calls were made.
    - Code outside the repository (checkpoint loading, model construction,
      OpenCV resampling kernels) is taken through the [Externals]
      interface. *)

From Stdlib Require Import ZArith QArith Qround Lia.
From stdpp Require Import gmap strings list fin_maps.

Local Open Scope Z_scope.

(** ** Python exceptions *)

Inductive exn : Type :=
  | ValueError
  | TypeError
  | KeyError (key : string)
  | IndexError
  | AttributeError (name : string)
  | UnboundLocalError (name : string)
  | AssertionError
  | ZeroDivisionError
  | RuntimeError (msg : string)
  | NotImplementedError (msg : string)
  | FileNotFoundError
  | CvError.

(** [except RuntimeError] also catches its subclasses; of the exceptions
    above [NotImplementedError] is one. *)
Definition is_RuntimeError (e : exn) : bool :=
  match e with
  | RuntimeError _ | NotImplementedError _ => true
  | _ => false
  end.

Definition result (A : Type) : Type := exn + A.

Definition rbind {A B} (r : result A) (f : A → result B) : result B :=
  match r with
  | inl e => inl e
  | inr a => f a
  end.

(** ** Python arithmetic *)

(** [math.ceil(a / b)] on integers, [b] non-zero. *)
Definition ceil_div (a b : Z) : Z := - ((- a) `div` b).

(** [int(x)]: truncation towards zero. *)
Definition py_int (x : Q) : Z := Z.quot (Qnum x) (Zpos (Qden x)).

(** [round(x)] and [numpy.round]: round half to even. *)
Definition py_round (x : Q) : Z :=
  let f := Qnum x `div` Zpos (Qden x) in
  let r := Qnum x `mod` Zpos (Qden x) in
  match 2 * r ?= Zpos (Qden x) with
  | Lt => f
  | Gt => f + 1
  | Eq => if Z.even f then f else f + 1
  end.

(** A Python slice [start:stop] (step 1) on an axis of extent [n]:
    negative bounds count from the end, and both are clamped to [0, n].
    The result is the first index and the number of indices selected. *)
Definition slice_norm (n i : Z) : Z :=
  let i := if i <? 0 then i + n else i in
  if i <? 0 then 0 else if n <? i then n else i.

Definition slice_bounds (n start stop : Z) : Z * Z :=
  let a := slice_norm n start in
  let b := slice_norm n stop in
  (a, Z.max 0 (b - a)).

(** ** Arrays *)

Inductive dtype : Type := UInt8 | UInt16 | Float16 | Float32 | Float64.

Global Instance dtype_eq_dec : EqDecision dtype.
Proof. solve_decision. Defined.

Record array : Type := mk_array {
  shape : list Z;
  a_dtype : dtype;
  data : list Z → Q
}.

Definition ndim (a : array) : nat := length (shape a).

(** All index lists of an array of the given shape, in row-major order. *)
Fixpoint indices (s : list Z) : list (list Z) :=
  match s with
  | [] => [[]]
  | n :: s' => i ← seqZ 0 n; (λ tl, i :: tl) <$> indices s'
  end.

Definition samples (a : array) : list Q := data a <$> indices (shape a).

Definition Qmax' (x y : Q) : Q := if Qle_bool x y then y else x.

(** [np.max(a)]; a zero-size array has no maximum ([ValueError]). *)
Definition np_max (a : array) : result Q :=
  match samples a with
  | [] => inl ValueError
  | x :: xs => inr (foldl Qmax' x xs)
  end.

Definition map_samples (f : Q → Q) (t : dtype) (a : array) : array :=
  mk_array (shape a) t (λ i, f (data a i)).

(** [a.astype(t)]: into an unsigned integer type the value is truncated
    and wraps; into a floating type it is kept (exact model). *)
Definition cast (t : dtype) (x : Q) : Q :=
  match t with
  | UInt8 => inject_Z (py_int x `mod` 256)
  | UInt16 => inject_Z (py_int x `mod` 65536)
  | _ => x
  end.

Definition astype (t : dtype) (a : array) : array := map_samples (cast t) t a.

(** [clamp(0, 1)] / [clip(0, 1)]. *)
Definition clamp01 (x : Q) : Q :=
  if Qle_bool x 0 then 0%Q else if Qle_bool 1 x then 1%Q else x.

(** Index-list surgery used by the views. *)
Definition put_at (k : nat) (x : Z) (i : list Z) : list Z := take k i ++ x :: drop k i.
Definition drop_at (k : nat) (i : list Z) : list Z := take k i ++ drop (S k) i.
Definition nth_Z (k : nat) (i : list Z) : Z := nth k i 0.
Definition add_at (k : nat) (d : Z) (i : list Z) : list Z := <[k := nth_Z k i + d]> i.

(** [permute p l] has [l[p[k]]] at position [k]. *)
Definition permute (p : list nat) (l : list Z) : list Z := (λ a, nth_Z a l) <$> p.

Fixpoint index_of (a : nat) (p : list nat) : nat :=
  match p with
  | [] => 0%nat
  | b :: p' => if decide (a = b) then 0%nat else S (index_of a p')
  end.

Definition inv_perm (p : list nat) : list nat := (λ a, index_of a p) <$> seq 0 (length p).

(** ** The store and views on it *)

Record handle : Type := mk_handle {
  h_loc : nat;                       (* the buffer viewed *)
  h_shape : list Z;                  (* shape of the view *)
  h_map : list Z → list Z;           (* view index to buffer index *)
  h_inv : list Z → option (list Z)   (* buffer index to view index, if viewed *)
}.

Abbreviation store := (list array).

(** The array a handle denotes. *)
Definition view_of (h : handle) (b : array) : array :=
  mk_array (h_shape h) (a_dtype b) (λ i, data b (h_map h i)).

Definition deref (s : store) (h : handle) : option array := view_of h <$> s !! h_loc h.

(** A handle on a whole buffer. *)
Definition whole (l : nat) (s : list Z) : handle := mk_handle l s id Some.

(** In-place assignment through a view: the buffer samples the view
    covers are replaced, cast to the buffer's element type. *)
Definition poke (h : handle) (v : list Z → Q) (b : array) : array :=
  mk_array (shape b) (a_dtype b)
    (λ j, match h_inv h j with
          | Some i => cast (a_dtype b) (v i)
          | None => data b j
          end).

Definition store_poke (h : handle) (v : list Z → Q) (s : store) : store :=
  match s !! h_loc h with
  | Some b => <[h_loc h := poke h v b]> s
  | None => s
  end.

(** *** Views: the operations of numpy and torch that do not copy *)

(** [np.transpose(a, p)] *)
Definition v_transpose (p : list nat) (h : handle) : result handle :=
  if decide (length p = length (h_shape h)) then
    inr (mk_handle (h_loc h) (permute p (h_shape h))
           (λ i, h_map h (permute (inv_perm p) i))
           (λ j, permute p <$> h_inv h j))
  else inl ValueError.

(** [t.unsqueeze(0)], [np.expand_dims(a, axis=0)] *)
Definition v_unsqueeze0 (h : handle) : handle :=
  mk_handle (h_loc h) (1 :: h_shape h)
    (λ i, h_map h (tail i))
    (λ j, cons 0 <$> h_inv h j).

(** [a.squeeze()]: every axis of extent 1 is removed. *)
Fixpoint squeeze_shape (s : list Z) : list Z :=
  match s with
  | [] => []
  | n :: s' => if decide (n = 1) then squeeze_shape s' else n :: squeeze_shape s'
  end.

Fixpoint unsqueeze_index (s : list Z) (i : list Z) : list Z :=
  match s with
  | [] => []
  | n :: s' =>
      if decide (n = 1) then 0 :: unsqueeze_index s' i
      else match i with
           | [] => 0 :: unsqueeze_index s' []
           | x :: i' => x :: unsqueeze_index s' i'
           end
  end.

Fixpoint squeeze_index (s : list Z) (i : list Z) : list Z :=
  match s, i with
  | n :: s', x :: i' => if decide (n = 1) then squeeze_index s' i' else x :: squeeze_index s' i'
  | _, _ => []
  end.

Definition v_squeeze (h : handle) : handle :=
  mk_handle (h_loc h) (squeeze_shape (h_shape h))
    (λ i, h_map h (unsqueeze_index (h_shape h) i))
    (λ j, squeeze_index (h_shape h) <$> h_inv h j).

(** [a[..., start:stop, ...]] on axis [k] (the other axes whole). *)
Definition v_slice (k : nat) (start stop : Z) (h : handle) : result handle :=
  match h_shape h !! k with
  | None => inl IndexError
  | Some n =>
      let '(a, len) := slice_bounds n start stop in
      inr (mk_handle (h_loc h) (<[k := len]> (h_shape h))
             (λ i, h_map h (add_at k a i))
             (λ j, i ← h_inv h j;
                   if (a <=? nth_Z k i) && (nth_Z k i <? a + len)
                   then Some (add_at k (- a) i) else None))
  end.

(** [a[..., c, ...]]: integer index [c] on axis [k], which disappears. *)
Definition v_index (k : nat) (c : Z) (h : handle) : result handle :=
  match h_shape h !! k with
  | None => inl IndexError
  | Some n =>
      let c' := if c <? 0 then c + n else c in
      if (0 <=? c') && (c' <? n) then
        inr (mk_handle (h_loc h) (drop_at k (h_shape h))
               (λ i, h_map h (put_at k c' i))
               (λ j, i ← h_inv h j;
                     if decide (nth_Z k i = c') then Some (drop_at k i) else None))
      else inl IndexError
  end.

(** *** Operations that allocate a new array *)

(** Reflection of an out-of-range index back into [0, n): torch pads by
    less than the extent, numpy reflects as often as needed. *)
Definition torch_reflect (n x : Z) : Z := if x <? n then x else 2 * (n - 1) - x.

Definition np_reflect (n x : Z) : Z :=
  if n <=? 1 then 0
  else let m := x `mod` (2 * (n - 1)) in
       if m <? n then m else 2 * (n - 1) - m.

Definition reflect_hw (reflect : Z → Z → Z) (h w : Z) (i : list Z) : list Z :=
  <[2%nat := reflect h (nth_Z 2 i)]> (<[3%nat := reflect w (nth_Z 3 i)]> i).

(** [F.pad(t, (0, pw, 0, ph), "reflect")]: pads the right of the last
    axis and the bottom of the last but one.  Each pad must be smaller
    than the extent it pads, all extents but the batch must be non-zero
    and the result non-empty; a negative pad crops. *)
Definition F_pad_reflect (pw ph : Z) (a : array) : result array :=
  match shape a with
  | [n; c; h; w] =>
      if (pw <? w) && (ph <? h) && (0 <? c) && (0 <? h) && (0 <? w)
         && (1 <=? h + ph) && (1 <=? w + pw)
      then inr (mk_array [n; c; h + ph; w + pw] (a_dtype a)
                  (λ i, data a (reflect_hw torch_reflect h w i)))
      else inl (RuntimeError "Padding size should be less than the corresponding input dimension")
  | _ => inl (NotImplementedError "padding of this rank")
  end.

(** [np.pad(a, ((0, 0), (0, 0), (0, ph), (0, pw)), "reflect")] *)
Definition np_pad_reflect (ph pw : Z) (a : array) : result array :=
  match shape a with
  | [n; c; h; w] =>
      if (ph <? 0) || (pw <? 0) then inl ValueError
      else if ((h =? 0) && negb (ph =? 0)) || ((w =? 0) && negb (pw =? 0)) then inl ValueError
      else inr (mk_array [n; c; h + ph; w + pw] (a_dtype a)
                  (λ i, data a (reflect_hw np_reflect h w i)))
  | _ => inl ValueError
  end.

(** [t.new_zeros(shape)] *)
Definition new_zeros (s : list Z) (t : dtype) : result array :=
  if forallb (λ n, 0 <=? n) s then inr (mk_array s t (λ _, 0%Q))
  else inl (RuntimeError "negative dimension").

(** Fancy indexing [a[[2, 1, 0], :, :]] (always a copy). *)
Definition take_210 (a : array) : result array :=
  match shape a with
  | c :: h :: w :: rest =>
      if 3 <=? c then
        inr (mk_array (3 :: h :: w :: rest) (a_dtype a)
               (λ i, data a (<[0%nat := 2 - nth_Z 0 i]> i)))
      else inl IndexError
  | _ => inl IndexError
  end.

(** Broadcasting of an assigned value to the shape of its target:
    leading axes of extent 1 of the value are dropped, the rest is
    aligned to the right, and each extent must match or be 1.  The
    result maps a target index to the index read in the value. *)
Fixpoint strip_ones (extra : nat) (s : list Z) : list Z :=
  match extra, s with
  | S e, n :: s' => if decide (n = 1) then strip_ones e s' else s
  | _, _ => s
  end.

Definition broadcast (src dst : list Z) : option (list Z → list Z) :=
  let src' := strip_ones (length src - length dst) src in
  let d := (length dst - length src')%nat in
  if decide (length src' ≤ length dst)%nat then
    if forallb (λ '(dn, sn), (sn =? dn) || (sn =? 1)) (zip (drop d dst) src') then
      Some (λ i, replicate (length src - length src') 0
                 ++ zip_with (λ x sn, if decide (sn = 1) then 0 else x) (drop d i) src')
    else None
  else None.

(** ** The upsampler instance and the program state *)

Definition network : Type := array → result array.

Inductive device_t : Type := Cpu | Cuda (gpu_id : Z).

Global Instance device_eq_dec : EqDecision device_t.
Proof. solve_decision. Defined.

Record instance : Type := mk_instance {
  scale : Z;
  tile_size : Z;
  tile_pad : Z;
  pre_pad : Z;
  mod_scale : option Z;
  half : bool;
  backend : string;
  outscale : option Q;
  (* attributes that exist only once assigned *)
  device : option device_t;
  net_g : option network;
  ort_session : option network;
  triton_client : option network;
  mod_pad_h : option Z;
  mod_pad_w : option Z;
  img : option handle;
  output : option handle
}.

Definition set_img (h : handle) (i : instance) : instance :=
  mk_instance (scale i) (tile_size i) (tile_pad i) (pre_pad i) (mod_scale i) (half i)
    (backend i) (outscale i) (device i) (net_g i) (ort_session i) (triton_client i)
    (mod_pad_h i) (mod_pad_w i) (Some h) (output i).

Definition set_output (h : handle) (i : instance) : instance :=
  mk_instance (scale i) (tile_size i) (tile_pad i) (pre_pad i) (mod_scale i) (half i)
    (backend i) (outscale i) (device i) (net_g i) (ort_session i) (triton_client i)
    (mod_pad_h i) (mod_pad_w i) (img i) (Some h).

Definition set_mod_scale (m : Z) (i : instance) : instance :=
  mk_instance (scale i) (tile_size i) (tile_pad i) (pre_pad i) (Some m) (half i)
    (backend i) (outscale i) (device i) (net_g i) (ort_session i) (triton_client i)
    (mod_pad_h i) (mod_pad_w i) (img i) (output i).

Definition set_mod_pad_h (p : Z) (i : instance) : instance :=
  mk_instance (scale i) (tile_size i) (tile_pad i) (pre_pad i) (mod_scale i) (half i)
    (backend i) (outscale i) (device i) (net_g i) (ort_session i) (triton_client i)
    (Some p) (mod_pad_w i) (img i) (output i).

Definition set_mod_pad_w (p : Z) (i : instance) : instance :=
  mk_instance (scale i) (tile_size i) (tile_pad i) (pre_pad i) (mod_scale i) (half i)
    (backend i) (outscale i) (device i) (net_g i) (ort_session i) (triton_client i)
    (mod_pad_h i) (Some p) (img i) (output i).

(** What the program prints, and the inference calls it makes. *)
Inductive message : Type :=
  | MsgError (e : exn)              (* print("Error", error) *)
  | MsgTile (tile_idx total : Z)    (* print(f"\tTile {tile_idx}/{tiles_x * tiles_y}") *)
  | Msg16bit.                       (* print("\tInput is a 16-bit image") *)

Inductive event : Type :=
  | Printed (m : message)
  | Inferred (input : array).

Record state : Type := mk_state {
  self : instance;
  heap : store;
  trace : list event
}.

(** ** The monad of methods: state and exceptions *)

Definition M (A : Type) : Type := state → result A * state.

Definition ret {A} (a : A) : M A := λ σ, (inr a, σ).

Definition raise {A} (e : exn) : M A := λ σ, (inl e, σ).

Definition bind {A B} (m : M A) (f : A → M B) : M B :=
  λ σ, match m σ with
       | (inl e, σ') => (inl e, σ')
       | (inr a, σ') => f a σ'
       end.

Notation "'let*' x := m 'in' k" := (bind m (λ x, k))
  (at level 10, x pattern, m at level 100, k at level 200).
Notation "m ;; k" := (bind m (λ _, k))
  (at level 100, k at level 200, right associativity).

Definition lift {A} (r : result A) : M A :=
  match r with
  | inl e => raise e
  | inr a => ret a
  end.

(** [try: m  except RuntimeError as error: handler(error)] *)
Definition try_except_RuntimeError {A} (m : M A) (handler : exn → M A) : M A :=
  λ σ, match m σ with
       | (inl e, σ') => if is_RuntimeError e then handler e σ' else (inl e, σ')
       | r => r
       end.

Definition get_self : M instance := λ σ, (inr (self σ), σ).

Definition modify_self (f : instance → instance) : M unit :=
  λ σ, (inr tt, mk_state (f (self σ)) (heap σ) (trace σ)).

(** Reading an attribute that may not have been assigned yet. *)
Definition attr {A} (name : string) (f : instance → option A) : M A :=
  let* i := get_self in
  match f i with
  | Some a => ret a
  | None => raise (AttributeError name)
  end.

Definition emit (e : event) : M unit :=
  λ σ, (inr tt, mk_state (self σ) (heap σ) (trace σ ++ [e])).

Definition print (m : message) : M unit := emit (Printed m).

(** Allocation of a new array; the handle views all of it. *)
Definition alloc (a : array) : M handle :=
  λ σ, (inr (whole (length (heap σ)) (shape a)),
        mk_state (self σ) (heap σ ++ [a]) (trace σ)).

(** The array a handle currently denotes (zeros of the view's shape
    should the handle name no buffer, which does not happen). *)
Definition load (h : handle) : M array :=
  λ σ, (inr (default (mk_array (h_shape h) Float32 (λ _, 0%Q)) (deref (heap σ) h)), σ).

(** In-place update of the samples a handle views. *)
Definition poke_with (h : handle) (v : list Z → Q) : M unit :=
  λ σ, (inr tt, mk_state (self σ) (store_poke h v (heap σ)) (trace σ)).

(** [for x in l: body x], threading the loop-carried locals [acc]. *)
Fixpoint for_each {A B} (l : list A) (body : A → B → M B) (acc : B) : M B :=
  match l with
  | [] => ret acc
  | x :: l' => let* acc' := body x acc in for_each l' body acc'
  end.

Definition range (n : Z) : list Z := seqZ 0 n.

(** ** Code outside the repository *)

Inductive interpolation : Type := INTER_LINEAR | INTER_LANCZOS4.

Class Externals : Type := {
  (** a parameter tensor of a checkpoint, with [w * t] and [t + u]
      (the sum fails when the shapes do not broadcast) *)
  param : Type;
  param_scale : Q → param → param;
  param_add : param → param → result param;
  (** [torch.load(path, map_location=...)]: a checkpoint maps names such
      as "params" and "params_ema" to state dictionaries *)
  torch_load : string → result (gmap string (gmap string param));
  (** [basicsr.utils.download_util.load_file_from_url] *)
  load_file_from_url : string → result string;
  (** an [nn.Module]; [load_state_dict(sd, strict=True)]; and the module
      in evaluation mode on a device, in half precision or not, as a
      function of its input *)
  module : Type;
  load_state_dict : module → gmap string param → result module;
  forward : module → device_t → bool → network;
  cuda_is_available : bool;
  (** [AutoModel.from_pretrained(repo, trust_remote_code=True)] *)
  from_pretrained : option string → result module;
  (** [ort.InferenceSession(path, providers=...)] as the function its
      [run] computes from the first input to the first output *)
  InferenceSession : option string → result network;
  (** [httpclient.InferenceServerClient(url)] with [infer]: model name,
      model version, precision tag ("FP16" or "FP32"), input "lr",
      output "hr" *)
  InferenceServerClient : option string →
    result (option string → option string → string → network);
  (** OpenCV: the sample [cv2.resize] computes at an index of the
      destination, and the grey value of a (B, G, R) pixel *)
  resize_kernel : interpolation → array → Z → Z → list Z → Q;
  bgr2gray : Q → Q → Q → Q
}.

Section RealESRGANer.
Context `{E : Externals}.

Abbreviation state_dict := (gmap string param).
Abbreviation checkpoint := (gmap string (gmap string param)).

(** ** Deep network interpolation: [RealESRGANer.dni] *)

Definition subscript {A} (l : list A) (i : nat) : result A :=
  match l !! i with
  | Some x => inr x
  | None => inl IndexError
  end.

Definition getitem {A} (d : gmap string A) (k : string) : result A :=
  match d !! k with
  | Some x => inr x
  | None => inl (KeyError k)
  end.

(** The body of the loop: [net_a[key][k] = dni_weight[0] * v_a +
    dni_weight[1] * net_b[key][k]]. *)
Definition dni_assign (dni_weight : list Q) (net_b : checkpoint) (key : string)
    (k : string) (v_a : param) (params_a : state_dict) : result state_dict :=
  rbind (subscript dni_weight 0) (λ w0,
  rbind (subscript dni_weight 1) (λ w1,
  rbind (getitem net_b key) (λ params_b,
  rbind (getitem params_b k) (λ v_b,
  rbind (param_add (param_scale w0 v_a) (param_scale w1 v_b)) (λ v,
  inr (<[k := v]> params_a)))))).

(** [for k, v_a in net_a[key].items(): ...] updates [net_a[key]] in
    place while iterating over it (no key is added, so the iteration is
    not disturbed).  The order of iteration is the map's. *)
Definition dni_loop (dni_weight : list Q) (net_b : checkpoint) (key : string)
    (params_a : state_dict) : result state_dict :=
  map_fold (λ k v_a acc, rbind acc (dni_assign dni_weight net_b key k v_a))
    (inr params_a) params_a.

Definition dni (net_a net_b : string) (dni_weight : list Q) (key : string) :
    result checkpoint :=
  rbind (torch_load net_a) (λ net_a,
  rbind (torch_load net_b) (λ net_b,
  rbind (getitem net_a key) (λ params_a,
  rbind (dni_loop dni_weight net_b key params_a) (λ merged,
  inr (<[key := merged]> net_a))))).

(** ** Construction: [RealESRGANer.__init__] *)

Inductive model_path_t : Type :=
  | Path (p : string)
  | Paths (ps : list string).

Record init_args : Type := mk_init_args {
  arg_scale : Z;
  arg_model_path : option model_path_t;
  arg_dni_weight : option (list Q);
  arg_model : option module;
  arg_tile : Z;
  arg_tile_pad : Z;
  arg_pre_pad : Z;
  arg_half : bool;
  arg_device : option device_t;
  arg_gpu_id : option Z;
  arg_backend : string;
  arg_onnx_path : option string;
  arg_triton_url : option string;
  arg_triton_model_name : option string;
  arg_triton_model_version : option string;
  arg_outscale : option Q;
  arg_hf_repository : option string
}.

Definition choose_device (a : init_args) : device_t :=
  match arg_gpu_id a with
  | Some g =>
      if decide (g = -1) then default Cpu (arg_device a)
      else match arg_device a with
           | None => if cuda_is_available then Cuda g else Cpu
           | Some d => d
           end
  | None => default Cpu (arg_device a)
  end.

(** The fields assigned at the top of [__init__]. *)
Definition init_fields (a : init_args) : instance :=
  mk_instance (arg_scale a) (arg_tile a) (arg_tile_pad a) (arg_pre_pad a) None (arg_half a)
    (arg_backend a) (arg_outscale a) None None None None None None None None.

Definition with_net (d : device_t) (n : network) (i : instance) : instance :=
  mk_instance (scale i) (tile_size i) (tile_pad i) (pre_pad i) (mod_scale i) (half i)
    (backend i) (outscale i) (Some d) (Some n) (ort_session i) (triton_client i)
    (mod_pad_h i) (mod_pad_w i) (img i) (output i).

Definition with_ort_session (n : network) (i : instance) : instance :=
  mk_instance (scale i) (tile_size i) (tile_pad i) (pre_pad i) (mod_scale i) (half i)
    (backend i) (outscale i) (device i) (net_g i) (Some n) (triton_client i)
    (mod_pad_h i) (mod_pad_w i) (img i) (output i).

Definition with_triton_client (n : network) (i : instance) : instance :=
  mk_instance (scale i) (tile_size i) (tile_pad i) (pre_pad i) (mod_scale i) (half i)
    (backend i) (outscale i) (device i) (net_g i) (ort_session i) (Some n)
    (mod_pad_h i) (mod_pad_w i) (img i) (output i).

(** [loadnet] for the torch backend: interpolated from two checkpoints
    when [model_path] is a list, loaded (after a download for an https
    URL) otherwise. *)
Definition load_checkpoint (a : init_args) : result checkpoint :=
  match arg_model_path a with
  | Some (Paths ps) =>
      match arg_dni_weight a with
      | None => inl TypeError
      | Some ws =>
          if decide (length ps = length ws) then
            rbind (subscript ps 0) (λ p0,
            rbind (subscript ps 1) (λ p1,
            dni p0 p1 ws "params"))
          else inl AssertionError
      end
  | Some (Path p) =>
      rbind (if String.prefix "https://" p then load_file_from_url p else inr p) torch_load
  | None => inl (AttributeError "startswith")
  end.

(** "prefer to use params_ema" *)
Definition keyname (loadnet : checkpoint) : string :=
  if decide (is_Some (loadnet !! "params_ema")) then "params_ema" else "params".

Definition init (a : init_args) : result instance :=
  let i := init_fields a in
  if decide (arg_backend a = "torch") then
    let d := choose_device a in
    rbind (load_checkpoint a) (λ loadnet,
    (* model.load_state_dict(loadnet[keyname], strict=True): the method
       is looked up before its argument is evaluated *)
    match arg_model a with
    | None => inl (AttributeError "load_state_dict")
    | Some model =>
        rbind (getitem loadnet (keyname loadnet)) (λ sd,
        rbind (load_state_dict model sd) (λ model,
        inr (with_net d (forward model d (half i)) i)))
    end)
  else if decide (arg_backend a = "onnx") then
    rbind (InferenceSession (arg_onnx_path a)) (λ s, inr (with_ort_session s i))
  else if decide (arg_backend a = "triton") then
    rbind (InferenceServerClient (arg_triton_url a)) (λ c,
    inr (with_triton_client
           (c (arg_triton_model_name a) (arg_triton_model_version a)
              (if half i then "FP16" else "FP32")) i))
  else if decide (arg_backend a = "huggingface") then
    let d := choose_device a in
    rbind (from_pretrained (arg_hf_repository a)) (λ model,
    inr (with_net d (forward model d (half i)) i))
  else inl ValueError.

End RealESRGANer.

(** ** Padding: [pre_process], [pre_process_numpy], [post_process] *)

(** [t.float()], [t.half()]: the tensor itself when it already has the
    element type, a converted copy otherwise. *)
Definition to_dtype (t : dtype) (h : handle) : M handle :=
  let* a := load h in
  if decide (a_dtype a = t) then ret h else alloc (astype t a).

(** [t.to(device)], [t.cpu()] for a tensor living on [from]. *)
Definition to_device (from to : device_t) (h : handle) : M handle :=
  if decide (from = to) then ret h
  else let* a := load h in alloc a.

Definition when (b : bool) (m : M unit) : M unit := if b then m else ret tt.

(** The "mod pad for divisible borders" part shared by both
    pre-processing functions; [pad ph pw] is the padding call. *)
Definition mod_pad (pad : Z → Z → array → result array) : M unit :=
  let* s := get_self in
  (if decide (scale s = 2) then modify_self (set_mod_scale 2)
   else if decide (scale s = 1) then modify_self (set_mod_scale 4)
   else ret tt);;
  let* s := get_self in
  match mod_scale s with
  | None => ret tt
  | Some m =>
      modify_self (set_mod_pad_h 0);;
      modify_self (set_mod_pad_w 0);;
      let* t := attr "img" img in
      match h_shape t with
      | [_; _; h; w] =>
          when (bool_decide (m = 0)) (raise ZeroDivisionError);;
          when (bool_decide (h `mod` m ≠ 0)) (modify_self (set_mod_pad_h (m - h `mod` m)));;
          when (bool_decide (w `mod` m ≠ 0)) (modify_self (set_mod_pad_w (m - w `mod` m)));;
          let* ph := attr "mod_pad_h" mod_pad_h in
          let* pw := attr "mod_pad_w" mod_pad_w in
          let* a := load t in
          let* a' := lift (pad ph pw a) in
          let* t' := alloc a' in
          modify_self (set_img t')
      | _ => raise ValueError
      end
  end.

Definition pre_process (img_arg : handle) : M unit :=
  (* torch.from_numpy(np.transpose(img, (2, 0, 1))).float() *)
  let* t := lift (v_transpose [2; 0; 1]%nat img_arg) in
  let* t := to_dtype Float32 t in
  (* self.img = img.unsqueeze(0).to(self.device) *)
  let* d := attr "device" device in
  let* t := to_device Cpu d (v_unsqueeze0 t) in
  modify_self (set_img t);;
  let* s := get_self in
  when (half s)
    (let* t := attr "img" img in
     let* t := to_dtype Float16 t in
     modify_self (set_img t));;
  (* pre_pad *)
  when (bool_decide (pre_pad s ≠ 0))
    (let* t := attr "img" img in
     let* a := load t in
     let* a' := lift (F_pad_reflect (pre_pad s) (pre_pad s) a) in
     let* t' := alloc a' in
     modify_self (set_img t'));;
  (* mod pad for divisible borders: F.pad(self.img, (0, mod_pad_w, 0, mod_pad_h)) *)
  mod_pad (λ ph pw, F_pad_reflect pw ph).

Definition pre_process_numpy (img_arg : handle) : M unit :=
  let* t := lift (v_transpose [2; 0; 1]%nat img_arg) in
  let t := v_unsqueeze0 t in
  (* self.img = img.astype(np.float16) if self.half else img *)
  let* s := get_self in
  let* t := (if half s then let* a := load t in alloc (astype Float16 a) else ret t) in
  modify_self (set_img t);;
  when (bool_decide (pre_pad s ≠ 0))
    (let* t := attr "img" img in
     let* a := load t in
     let* a' := lift (np_pad_reflect (pre_pad s) (pre_pad s) a) in
     let* t' := alloc a' in
     modify_self (set_img t'));;
  mod_pad np_pad_reflect.

(** [self.output[:, :, 0:h - ph * scale, 0:w - pw * scale]] *)
Definition crop_output (ph pw : Z) : M unit :=
  let* o := attr "output" output in
  let* s := get_self in
  match h_shape o with
  | [_; _; h; w] =>
      let* o := lift (v_slice 2 0 (h - ph * scale s) o) in
      let* o := lift (v_slice 3 0 (w - pw * scale s) o) in
      modify_self (set_output o)
  | _ => raise ValueError
  end.

Definition post_process : M handle :=
  let* s := get_self in
  (* remove extra pad *)
  when (bool_decide (mod_scale s ≠ None))
    (let* o := attr "output" output in
     match h_shape o with
     | [_; _; _; _] =>
         let* ph := attr "mod_pad_h" mod_pad_h in
         let* pw := attr "mod_pad_w" mod_pad_w in
         crop_output ph pw
     | _ => raise ValueError
     end);;
  (* remove prepad *)
  when (bool_decide (pre_pad s ≠ 0)) (crop_output (pre_pad s) (pre_pad s));;
  attr "output" output.

(** ** Inference: [process] and [tile_process] *)

(** One call of a backend: the input is read through its view and the
    result is a new tensor. *)
Definition infer (n : network) (input : handle) : M handle :=
  let* a := load input in
  emit (Inferred a);;
  let* r := lift (n a) in
  alloc r.

Definition process : M unit :=
  let* s := get_self in
  if decide (backend s = "torch") then
    let* n := attr "net_g" net_g in
    let* x := attr "img" img in
    let* o := infer n x in
    modify_self (set_output o)
  else if decide (backend s = "onnx") then
    let* n := attr "ort_session" ort_session in
    let* x := attr "img" img in
    let* o := infer n x in
    modify_self (set_output o)
  else if decide (backend s = "triton") then
    let* x := attr "img" img in
    let* n := attr "triton_client" triton_client in
    let* o := infer n x in
    modify_self (set_output o)
  else if decide (backend s = "huggingface") then
    let* n := attr "net_g" net_g in
    let* x := attr "img" img in
    let* o := infer n x in
    modify_self (set_output o)
  else raise ValueError.

(** The rectangles of one tile, named as in the source. *)
Record tile : Type := mk_tile {
  input_start_x : Z; input_end_x : Z;
  input_start_y : Z; input_end_y : Z;
  input_start_x_pad : Z; input_end_x_pad : Z;
  input_start_y_pad : Z; input_end_y_pad : Z;
  input_tile_width : Z; input_tile_height : Z;
  tile_idx : Z;
  output_start_x : Z; output_end_x : Z;
  output_start_y : Z; output_end_y : Z;
  output_start_x_tile : Z; output_end_x_tile : Z;
  output_start_y_tile : Z; output_end_y_tile : Z
}.

Definition tile_at (s : instance) (width height tiles_x : Z) (y x : Z) : tile :=
  let ofs_x := x * tile_size s in
  let ofs_y := y * tile_size s in
  (* input tile area on total image *)
  let input_start_x := ofs_x in
  let input_end_x := Z.min (ofs_x + tile_size s) width in
  let input_start_y := ofs_y in
  let input_end_y := Z.min (ofs_y + tile_size s) height in
  (* input tile area on total image with padding *)
  let input_start_x_pad := Z.max (input_start_x - tile_pad s) 0 in
  let input_end_x_pad := Z.min (input_end_x + tile_pad s) width in
  let input_start_y_pad := Z.max (input_start_y - tile_pad s) 0 in
  let input_end_y_pad := Z.min (input_end_y + tile_pad s) height in
  (* input tile dimensions *)
  let input_tile_width := input_end_x - input_start_x in
  let input_tile_height := input_end_y - input_start_y in
  let tile_idx := y * tiles_x + x + 1 in
  (* output tile area on total image *)
  let output_start_x := input_start_x * scale s in
  let output_end_x := input_end_x * scale s in
  let output_start_y := input_start_y * scale s in
  let output_end_y := input_end_y * scale s in
  (* output tile area without padding *)
  let output_start_x_tile := (input_start_x - input_start_x_pad) * scale s in
  let output_end_x_tile := output_start_x_tile + input_tile_width * scale s in
  let output_start_y_tile := (input_start_y - input_start_y_pad) * scale s in
  let output_end_y_tile := output_start_y_tile + input_tile_height * scale s in
  mk_tile input_start_x input_end_x input_start_y input_end_y
    input_start_x_pad input_end_x_pad input_start_y_pad input_end_y_pad
    input_tile_width input_tile_height tile_idx
    output_start_x output_end_x output_start_y output_end_y
    output_start_x_tile output_end_x_tile output_start_y_tile output_end_y_tile.

(** [a[:, :, y0:y1, x0:x1]] *)
Definition slice_hw (y0 y1 x0 x1 : Z) (h : handle) : result handle :=
  rbind (v_slice 2 y0 y1 h) (v_slice 3 x0 x1).

(** [dst[...] = src]: the value is broadcast to the target and copied
    into the buffer the target views. *)
Definition setitem (mismatch : exn) (dst src : handle) : M unit :=
  let* v := load src in
  match broadcast (shape v) (h_shape dst) with
  | Some f => poke_with dst (λ i, data v (f i))
  | None => raise mismatch
  end.

(** The body of the tile loop for one tile.  [output_tile] is the local
    variable of that name: unbound until an inference call has
    returned, and keeping its value from one iteration to the next. *)
Definition tile_body (t : tile) (total : Z) (output_tile : option handle) :
    M (option handle) :=
  let* im := attr "img" img in
  let* input_tile :=
    lift (slice_hw (input_start_y_pad t) (input_end_y_pad t)
            (input_start_x_pad t) (input_end_x_pad t) im) in
  (* upscale tile *)
  let* output_tile :=
    try_except_RuntimeError
      (let* n := attr "net_g" net_g in
       let* o := infer n input_tile in
       ret (Some o))
      (λ error, print (MsgError error);; ret output_tile) in
  print (MsgTile (tile_idx t) total);;
  (* put tile into output image *)
  match output_tile with
  | None => raise (UnboundLocalError "output_tile")
  | Some ot =>
      let* src :=
        lift (slice_hw (output_start_y_tile t) (output_end_y_tile t)
                (output_start_x_tile t) (output_end_x_tile t) ot) in
      let* o := attr "output" output in
      let* dst :=
        lift (slice_hw (output_start_y t) (output_end_y t)
                (output_start_x t) (output_end_x t) o) in
      setitem (RuntimeError "shape mismatch") dst src;;
      ret output_tile
  end.

(** [for y in range(tiles_y): for x in range(tiles_x): ...] *)
Definition tile_loop (s : instance) (width height : Z) : M (option handle) :=
  let tiles_x := ceil_div width (tile_size s) in
  let tiles_y := ceil_div height (tile_size s) in
  for_each (range tiles_y)
    (λ y, for_each (range tiles_x)
            (λ x, tile_body (tile_at s width height tiles_x y x) (tiles_x * tiles_y)))
    None.

Definition tile_process : M unit :=
  let* s := get_self in
  if bool_decide (backend s = "onnx") || bool_decide (backend s = "triton") then
    raise (NotImplementedError "backend isn't supported for tile process yet")
  else
    let* im := attr "img" img in
    match h_shape im with
    | [batch; channel; height; width] =>
        let output_height := height * scale s in
        let output_width := width * scale s in
        (* start with black image *)
        let* a := load im in
        let* z := lift (new_zeros [batch; channel; output_height; output_width] (a_dtype a)) in
        let* o := alloc z in
        modify_self (set_output o);;
        when (bool_decide (tile_size s = 0)) (raise ZeroDivisionError);;
        tile_loop s width height;;
        ret tt
    | _ => raise ValueError
    end.

(** The tiles in the order in which [tile_loop] visits them. *)
Definition tile_grid (s : instance) (width height : Z) : list tile :=
  let tiles_x := ceil_div width (tile_size s) in
  let tiles_y := ceil_div height (tile_size s) in
  y ← range tiles_y; x ← range tiles_x; [tile_at s width height tiles_x y x].

(** The output rectangle of a tile, as a set of pixels (column, row). *)
Definition in_output_region (t : tile) (px py : Z) : Prop :=
  output_start_x t ≤ px < output_end_x t ∧ output_start_y t ≤ py < output_end_y t.

(** ** OpenCV colour conversion and resizing *)

Section Enhance.
Context `{E : Externals}.

(** An array as OpenCV reads it: rows, columns, channels and the sample
    at (row, column, channel).  Only 2-D and 3-D arrays are images. *)
Definition as_image (a : array) : option (Z * Z * Z * (Z → Z → Z → Q)) :=
  match shape a with
  | [h; w] => Some (h, w, 1, λ y x _, data a [y; x])
  | [h; w; c] => Some (h, w, c, λ y x k, data a [y; x; k])
  | _ => None
  end.

Definition is_empty (h w c : Z) : bool := (h <=? 0) || (w <=? 0) || (c <=? 0).

Inductive color_code : Type :=
  | COLOR_GRAY2RGB | COLOR_BGR2RGB | COLOR_BGR2GRAY | COLOR_BGR2BGRA.

(** The value of a full-opacity alpha channel for an element type. *)
Definition alpha_max (t : dtype) : Q :=
  match t with
  | UInt8 => 255%Q
  | UInt16 => 65535%Q
  | _ => 1%Q
  end.

Definition cvtColor (a : array) (code : color_code) : result array :=
  match as_image a with
  | None => inl CvError
  | Some (h, w, c, px) =>
      if is_empty h w c then inl CvError
      else match code with
           | COLOR_GRAY2RGB =>
               if decide (c = 1) then
                 inr (mk_array [h; w; 3] (a_dtype a) (λ i, px (nth_Z 0 i) (nth_Z 1 i) 0))
               else inl CvError
           | COLOR_BGR2RGB =>
               if decide (c = 3 ∨ c = 4) then
                 inr (mk_array [h; w; 3] (a_dtype a)
                        (λ i, px (nth_Z 0 i) (nth_Z 1 i) (2 - nth_Z 2 i)))
               else inl CvError
           | COLOR_BGR2GRAY =>
               if decide (c = 3 ∨ c = 4) then
                 inr (mk_array [h; w] (a_dtype a)
                        (λ i, bgr2gray (px (nth_Z 0 i) (nth_Z 1 i) 0)
                                (px (nth_Z 0 i) (nth_Z 1 i) 1)
                                (px (nth_Z 0 i) (nth_Z 1 i) 2)))
               else inl CvError
           | COLOR_BGR2BGRA =>
               if decide (c = 3 ∨ c = 4) then
                 inr (mk_array [h; w; 4] (a_dtype a)
                        (λ i, if (nth_Z 2 i <? c) then px (nth_Z 0 i) (nth_Z 1 i) (nth_Z 2 i)
                              else alpha_max (a_dtype a)))
               else inl CvError
           end
  end.

(** Results of an OpenCV kernel are saturated to the element type. *)
Definition saturate (t : dtype) (x : Q) : Q :=
  match t with
  | UInt8 => inject_Z (Z.max 0 (Z.min 255 (py_round x)))
  | UInt16 => inject_Z (Z.max 0 (Z.min 65535 (py_round x)))
  | _ => x
  end.

(** [cv2.resize(src, (dw, dh), interpolation=interp)] *)
Definition cv2_resize (a : array) (dw dh : Z) (interp : interpolation) : result array :=
  match as_image a with
  | None => inl CvError
  | Some (h, w, c, _) =>
      if is_empty h w c || (dw <=? 0) || (dh <=? 0) then inl CvError
      else inr (mk_array (if decide (c = 1) then [dh; dw] else [dh; dw; c]) (a_dtype a)
                  (λ i, saturate (a_dtype a) (resize_kernel interp a dw dh i)))
  end.

(** ** The pipeline: [enhance] *)

(** [h_input, w_input = img.shape[0:2]] *)
Definition shape_0_2 (h : handle) : M (Z * Z) :=
  match h_shape h with
  | h0 :: w0 :: _ => ret (h0, w0)
  | _ => raise ValueError
  end.

Definition cvt (h : handle) (code : color_code) : M handle :=
  let* a := load h in
  let* a' := lift (cvtColor a code) in
  alloc a'.

(** The dispatch on the backend around [pre_process]. *)
Definition pre_process_for_backend (x : handle) : M unit :=
  let* s := get_self in
  if decide (backend s = "torch") then pre_process x
  else if decide (backend s = "onnx") then pre_process_numpy x
  else if decide (backend s = "triton") then pre_process_numpy x
  else if decide (backend s = "huggingface") then pre_process x
  else raise ValueError.

(** Tensor output to a numpy array with samples in [0, 1]:
    torch [o.data.squeeze().float().cpu().clamp_(0, 1).numpy()] clamps in
    place (through the view, unless [float] or [cpu] copied); numpy
    [o.squeeze().astype(np.float32).clip(0, 1)] copies. *)
Definition clamp_torch (o : handle) : M handle :=
  let* o := to_dtype Float32 (v_squeeze o) in
  let* d := attr "device" device in
  let* o := to_device d Cpu o in
  let* a := load o in
  poke_with o (λ i, clamp01 (data a i));;
  ret o.

Definition clip_numpy (o : handle) : M handle :=
  let* a := load (v_squeeze o) in
  let* o := alloc (astype Float32 a) in
  let* a := load o in
  alloc (map_samples clamp01 Float32 a).

Definition clamp_for_backend (o : handle) : M handle :=
  let* s := get_self in
  if decide (backend s = "torch") then clamp_torch o
  else if decide (backend s = "onnx") then clip_numpy o
  else if decide (backend s = "triton") then clip_numpy o
  else if decide (backend s = "huggingface") then clamp_torch o
  else raise ValueError.

(** [np.transpose(o[[2, 1, 0], :, :], (1, 2, 0))] *)
Definition to_bgr_hwc (o : handle) : M handle :=
  let* a := load o in
  let* a' := lift (take_210 a) in
  let* o := alloc a' in
  lift (v_transpose [1; 2; 0]%nat o).

(** What [enhance] does with the image, and again with the alpha
    channel: pad, infer (tiled or not), crop, clamp, reorder. *)
Definition upsample (x : handle) : M handle :=
  pre_process_for_backend x;;
  let* s := get_self in
  (if 0 <? tile_size s then tile_process else process);;
  let* o := post_process in
  let* o := clamp_for_backend o in
  to_bgr_hwc o.

(** [(output_img * m).round().astype(t)] *)
Definition quantize (m : Q) (t : dtype) (o : handle) : M handle :=
  let* a := load o in
  let* o := alloc (map_samples (λ x, x * m)%Q (a_dtype a) a) in
  let* a := load o in
  let* o := alloc (map_samples (λ x, inject_Z (py_round x)) (a_dtype a) a) in
  let* a := load o in
  alloc (astype t a).

Definition enhance (img_arg : handle) (alpha_upsampler : string) : M (handle * string) :=
  let* (h_input, w_input) := shape_0_2 img_arg in
  (* img: numpy *)
  let* a := load img_arg in
  let* im := alloc (astype Float32 a) in
  let* a := load im in
  let* mx := lift (np_max a) in
  let* max_range :=
    (if Qlt_le_dec 256 mx then print Msg16bit;; ret 65535 else ret 255) in
  let* im := alloc (map_samples (λ x, x / inject_Z max_range)%Q Float32 a) in
  (* colour mode *)
  let* (img_mode, im, alpha) :=
    (if decide (length (h_shape im) = 2%nat) then
       let* im := cvt im COLOR_GRAY2RGB in
       ret ("L", im, None)
     else
       let* c := lift (subscript (h_shape im) 2) in
       if decide (c = 4) then
         let* alpha := lift (v_index 2 3 im) in
         let* im := lift (v_slice 2 0 3 im) in
         let* im := cvt im COLOR_BGR2RGB in
         let* alpha :=
           (if decide (alpha_upsampler = "realesrgan") then cvt alpha COLOR_GRAY2RGB
            else ret alpha) in
         ret ("RGBA", im, Some alpha)
       else
         let* im := cvt im COLOR_BGR2RGB in
         ret ("RGB", im, None)) in
  (* process image (without the alpha channel) *)
  let* output_img := upsample im in
  let* output_img :=
    (if decide (img_mode = "L") then cvt output_img COLOR_BGR2GRAY else ret output_img) in
  (* process the alpha channel if necessary *)
  let* output_img :=
    match alpha with
    | Some alpha =>
        let* output_alpha :=
          (if decide (alpha_upsampler = "realesrgan") then
             let* output_alpha := upsample alpha in
             cvt output_alpha COLOR_BGR2GRAY
           else
             (* use the cv2 resize for alpha channel *)
             let* (h, w) := shape_0_2 alpha in
             let* s := get_self in
             let* aa := load alpha in
             let* r := lift (cv2_resize aa (w * scale s) (h * scale s) INTER_LINEAR) in
             alloc r) in
        (* merge the alpha channel *)
        let* output_img := cvt output_img COLOR_BGR2BGRA in
        let* dst := lift (v_index 2 3 output_img) in
        setitem ValueError dst output_alpha;;
        ret output_img
    | None => ret output_img
    end in
  (* return *)
  let* output :=
    (if decide (max_range = 65535) then quantize 65535 UInt16 output_img
     else quantize 255 UInt8 output_img) in
  let* s := get_self in
  let* output :=
    match outscale s with
    | Some os =>
        if Qeq_bool os (inject_Z (scale s)) then ret output
        else
          let* o := load output in
          let* r := lift (cv2_resize o (py_int (inject_Z w_input * os))
                            (py_int (inject_Z h_input * os)) INTER_LANCZOS4) in
          alloc r
    | None => ret output
    end in
  ret (output, img_mode).

End Enhance.

(** ** [PrefetchReader]: a producer thread, a queue, an iterator *)

Module PrefetchReader.
Section Reader.

(** [cv2.imread(path, cv2.IMREAD_UNCHANGED)]: the decoded image, or
    [None] when the file cannot be read or decoded (no exception). *)
Variable imread : string → option array.

(** The threads' shared state.  [todo] and [running] are the producer's
    position in [run]; [que] is the queue, oldest item first; [yielded]
    and [stopped] are what the iterating thread has received from
    [__next__]; [pushed] records every [put] so far. *)
Record sys : Type := mk_sys {
  todo : list string;
  running : bool;
  que : list (option array);
  maxsize : Z;
  pushed : list (option array);
  yielded : list array;
  stopped : bool
}.

(** [PrefetchReader(img_list, num_prefetch_queue)] followed by [start()] *)
Definition init (img_list : list string) (num_prefetch_queue : Z) : sys :=
  mk_sys img_list true [] num_prefetch_queue [] [] false.

(** [queue.Queue(maxsize)]: unbounded when [maxsize <= 0]. *)
Definition full (σ : sys) : bool :=
  (0 <? maxsize σ) && (maxsize σ <=? Z.of_nat (length (que σ))).

Definition put (item : option array) (σ : sys) : sys :=
  mk_sys (todo σ) (running σ) (que σ ++ [item]) (maxsize σ) (pushed σ ++ [item])
    (yielded σ) (stopped σ).

(** One [put] of [run]; [None] when the thread has finished or is
    blocked on a full queue. *)
Definition run_step (σ : sys) : option sys :=
  if running σ then
    if full σ then None
    else match todo σ with
         | img_path :: rest =>
             let σ' := put (imread img_path) σ in
             Some (mk_sys rest true (que σ') (maxsize σ') (pushed σ') (yielded σ') (stopped σ'))
         | [] =>
             let σ' := put None σ in
             Some (mk_sys [] false (que σ') (maxsize σ') (pushed σ') (yielded σ') (stopped σ'))
         end
  else None.

(** One [__next__] of a [for] loop over the reader; [None] when the
    loop has ended or [get] blocks on an empty queue. *)
Definition next_step (σ : sys) : option sys :=
  if stopped σ then None
  else match que σ with
       | [] => None
       | next_item :: q =>
           match next_item with
           | None =>
               Some (mk_sys (todo σ) (running σ) q (maxsize σ) (pushed σ) (yielded σ) true)
           | Some im =>
               Some (mk_sys (todo σ) (running σ) q (maxsize σ) (pushed σ)
                       (yielded σ ++ [im]) false)
           end
       end.

Inductive thread : Type := Producer | Consumer.

Definition step (t : thread) (σ : sys) : option sys :=
  match t with
  | Producer => run_step σ
  | Consumer => next_step σ
  end.

(** An interleaving of the two threads. *)
Fixpoint run_schedule (sched : list thread) (σ : sys) : option sys :=
  match sched with
  | [] => Some σ
  | t :: sched' =>
      match step t σ with
      | Some σ' => run_schedule sched' σ'
      | None => None
      end
  end.

(** No thread can take a step. *)
Definition terminal (σ : sys) : Prop := run_step σ = None ∧ next_step σ = None.

(** The images of the paths that decode, in order. *)
Definition decoded (img_list : list string) : list array := omap imread img_list.

(** What the producer has still to put. *)
Definition pending (σ : sys) : list (option array) :=
  (imread <$> todo σ) ++ (if running σ then [None] else []).

(** What the iterating thread has taken from the queue. *)
Definition taken (σ : sys) : list (option array) :=
  (Some <$> yielded σ) ++ (if stopped σ then [None] else []).

(** Steps left at most: two per item still to put, one per item queued. *)
Definition fuel (σ : sys) : nat :=
  (2 * length (pending σ) + length (que σ))%nat.

(** What holds of every state the two threads can reach from
    [init img_list num_prefetch_queue]. *)
Definition inv (img_list : list string) (num_prefetch_queue : Z) (σ : sys) : Prop :=
  pushed σ ++ pending σ = (imread <$> img_list) ++ [None] ∧
  pushed σ = taken σ ++ que σ ∧
  (running σ = false → todo σ = []) ∧
  maxsize σ = num_prefetch_queue.

End Reader.
End PrefetchReader.

(** ** [IOConsumer]: a thread that saves what arrives on a queue *)

Module IOConsumer.
Section Consumer.

(** What the fields of a message hold, and the messages: a string or a
    dictionary. *)
Inductive value : Type :=
  | Str (s : string)
  | Image (a : array).

Inductive msg : Type :=
  | MsgStr (s : string)
  | MsgDict (d : gmap string value).

(** [cv2.imwrite(save_path, output)] *)
Variable imwrite : value → value → result bool.

(** How [run] stands: in the loop, blocked in [get] on an empty queue;
    after the loop, "IO worker ... is done." printed; or ended by an
    exception. *)
Inductive outcome : Type :=
  | Blocked
  | Done
  | Raised (e : exn).

(** [msg[key]]: a string cannot be indexed by a string. *)
Definition msg_getitem (m : msg) (key : string) : result value :=
  match m with
  | MsgStr _ => inl TypeError
  | MsgDict d =>
      match d !! key with
      | Some v => inr v
      | None => inl (KeyError key)
      end
  end.

(** [isinstance(msg, str) and msg == "quit"] *)
Definition is_quit (m : msg) : bool :=
  match m with
  | MsgStr s => bool_decide (s = "quit")
  | MsgDict _ => false
  end.

(** One iteration of the loop on the message taken from the queue:
    [None] for [break], the file written otherwise. *)
Definition iteration (m : msg) : result (option (value * value)) :=
  if is_quit m then inr None
  else
    rbind (msg_getitem m "output") (λ output,
    rbind (msg_getitem m "save_path") (λ save_path,
    rbind (imwrite save_path output) (λ _,
    inr (Some (save_path, output))))).

(** [run] on the messages [q] that are, or will be, on the queue, oldest
    first; [written] lists the calls of [cv2.imwrite] that returned.
    The result also gives the messages left on the queue. *)
Fixpoint run (q : list msg) (written : list (value * value)) :
    outcome * list (value * value) * list msg :=
  match q with
  | [] => (Blocked, written, [])
  | m :: q' =>
      match iteration m with
      | inl e => (Raised e, written, q')
      | inr None => (Done, written, q')
      | inr (Some w) => run q' (written ++ [w])
      end
  end.

(** A message that asks for a file to be saved. *)
Definition save (save_path : string) (output : array) : msg :=
  MsgDict (<["save_path" := Str save_path]> {["output" := Image output]}).

End Consumer.
End IOConsumer.

(** ** Vocabulary of the statements *)

Section Vocabulary.
Context `{E : Externals}.

(** The interpolated value of one parameter, when it is defined. *)
Definition blend (w0 w1 : Q) (b : gmap string param) (k : string) (va : param) :
    option param :=
  vb ← b !! k;
  match param_add (param_scale w0 va) (param_scale w1 vb) with
  | inr v => Some v
  | inl _ => None
  end.

End Vocabulary.

(** The fields of an instance that no method assigns. *)
Definition settings (i : instance) : instance :=
  mk_instance (scale i) (tile_size i) (tile_pad i) (pre_pad i) None (half i)
    (backend i) (outscale i) (device i) (net_g i) (ort_session i) (triton_client i)
    None None None None.

(** A handle on a buffer allocated after the store was [h0]. *)
Definition fresh (h0 : store) (h : handle) : Prop := (length h0 ≤ h_loc h)%nat.

(** What every method maintains, relative to the store [h0] and the
    instance [i0] at some earlier point: the arrays of [h0] are still in
    the store, unchanged, and the settings are those of [i0]. *)
Definition inv (h0 : store) (i0 : instance) (σ : state) : Prop :=
  h0 `prefix_of` heap σ ∧ settings (self σ) = settings i0.

(** [wp m Q X σ]: run from [σ] (where the invariant holds), [m] keeps
    the invariant, returns with [Q], or raises with [X]. *)
Definition wp (h0 : store) (i0 : instance) {A} (m : M A)
    (Q : A → state → Prop) (X : exn → state → Prop) (σ : state) : Prop :=
  inv h0 i0 σ →
  inv h0 i0 (m σ).2 ∧
  match (m σ).1 with
  | inr a => Q a (m σ).2
  | inl e => X e (m σ).2
  end.

Definition any_exn : exn → state → Prop := λ _ _, True.
Definition no_exn : exn → state → Prop := λ _ _, False.

(** The divisor [mod_pad] uses: set from the scale when it is 2 or 1,
    kept from earlier calls otherwise. *)
Definition next_mod_scale (i : instance) : option Z :=
  if decide (scale i = 2) then Some 2
  else if decide (scale i = 1) then Some 4
  else mod_scale i.

(** The alignment pad an instance records: none without a divisor. *)
Definition padded_by (i : instance) (mh mw : Z) : Prop :=
  match mod_scale i with
  | None => mh = 0 ∧ mw = 0
  | Some _ => mod_pad_h i = Some mh ∧ mod_pad_w i = Some mw
  end.

(** A padding call that adds [ph] rows and [pw] columns to a 4-D array. *)
Definition pads_hw (pad : Z → Z → array → result array) : Prop :=
  ∀ ph pw a a' n c h w,
    pad ph pw a = inr a' → shape a = [n; c; h; w] → shape a' = [n; c; h + ph; w + pw].

Definition img_fresh (h0 : store) (σ : state) : Prop :=
  ∀ t, img (self σ) = Some t → fresh h0 t.

Definition output_fresh (h0 : store) (σ : state) : Prop :=
  ∀ o, output (self σ) = Some o → fresh h0 o.

(** The statements of the tile loop's body after the [try]. *)
Definition tile_put (t : tile) (total : Z) (output_tile : option handle) :
    M (option handle) :=
  print (MsgTile (tile_idx t) total);;
  match output_tile with
  | None => raise (UnboundLocalError "output_tile")
  | Some ot =>
      let* src :=
        lift (slice_hw (output_start_y_tile t) (output_end_y_tile t)
                (output_start_x_tile t) (output_end_x_tile t) ot) in
      let* o := attr "output" output in
      let* dst :=
        lift (slice_hw (output_start_y t) (output_end_y t)
                (output_start_x t) (output_end_x t) o) in
      setitem (RuntimeError "shape mismatch") dst src;;
      ret output_tile
  end.

Definition printed (σ : state) : list message :=
  omap (λ e, match e with Printed m => Some m | Inferred _ => None end) (trace σ).

Definition inferred (σ : state) : list array :=
  omap (λ e, match e with Inferred a => Some a | Printed _ => None end) (trace σ).

(** The samples of [self.output], in row-major order. *)
Definition output_samples (σ : state) : option (list Q) :=
  o ← output (self σ); a ← deref (heap σ) o; Some (samples a).

(** A tile whose rectangles fit: the padded input rectangle lies in an
    image of [W] by [H], the slice taken from the network's output lies
    in [scale] times the padded rectangle, the output rectangle lies in
    [scale] times the image, and slice and output rectangle have the
    same size. *)
Definition tile_fits (s : instance) (W H : Z) (t : tile) : Prop :=
  ((0 ≤ input_start_y_pad t ≤ input_end_y_pad t ∧ input_end_y_pad t ≤ H) ∧
   (0 ≤ input_start_x_pad t ≤ input_end_x_pad t ∧ input_end_x_pad t ≤ W)) ∧
  ((0 ≤ output_start_y_tile t ≤ output_end_y_tile t ∧
    output_end_y_tile t ≤ (input_end_y_pad t - input_start_y_pad t) * scale s) ∧
   (0 ≤ output_start_x_tile t ≤ output_end_x_tile t ∧
    output_end_x_tile t ≤ (input_end_x_pad t - input_start_x_pad t) * scale s)) ∧
  ((0 ≤ output_start_y t ≤ output_end_y t ∧ output_end_y t ≤ H * scale s) ∧
   (0 ≤ output_start_x t ≤ output_end_x t ∧ output_end_x t ≤ W * scale s)) ∧
  output_end_y_tile t - output_start_y_tile t = output_end_y t - output_start_y t ∧
  output_end_x_tile t - output_start_x_tile t = output_end_x t - output_start_x t.

(** A network that, when it returns, returns a tensor of [s] times the
    height and width of its input. *)
Definition scales (s : Z) (n : network) : Prop :=
  ∀ a r b c h w, n a = inr r → shape a = [b; c; h; w] → shape r = [b; c; h * s; w * s].

(** The networks of an instance scale by its scale. *)
Definition networks_scale (i : instance) : Prop :=
  ∀ n, net_g i = Some n ∨ ort_session i = Some n ∨ triton_client i = Some n →
       scales (scale i) n.

(** A network that computes every output sample from the input sample
    under it: the sample at row [y] and column [x] of the result is [g]
    of the sample at row [y / s] and column [x / s] of the input. *)
Definition pointwise (s : Z) (g : Q → Q) (n : network) : Prop :=
  ∀ a b c h w,
    shape a = [b; c; h; w] →
    ∃ r, n a = inr r ∧ shape r = [b; c; h * s; w * s] ∧
      ∀ jn jc jy jx, data r [jn; jc; jy; jx] = g (data a [jn; jc; jy `div` s; jx `div` s]).

(** The tensor a tile's inference call receives: [self.img] (in the
    store [hp]) through the tile's padded input rectangle. *)
Definition tile_input (hp : store) (im : handle) (t : tile) : option array :=
  match slice_hw (input_start_y_pad t) (input_end_y_pad t)
          (input_start_x_pad t) (input_end_x_pad t) im with
  | inr h => deref hp h
  | inl _ => None
  end.

(** The sample of a tile's network output [r] that belongs at row [py]
    and column [px] of the whole output. *)
Definition tile_sample (r : array) (t : tile) (jn jc py px : Z) : Q :=
  data r [jn; jc; py - output_start_y t + output_start_y_tile t;
          px - output_start_x t + output_start_x_tile t].

(** The state of the tile loop once the tiles [done] have been
    processed, for a loop started with the store [hp0] after the
    inference calls [tr0]: [self.output] is the whole of buffer [lo], of
    element type [t0]; the buffer of [self.img] is as it was; the
    inference calls so far were made on the padded rectangles of the
    tiles processed, in their order; and the output region of each tile
    processed holds the matching samples of what the network returned
    for that tile. *)
Definition stitched (s : instance) (im : handle) (n : network) (hp0 : store)
    (tr0 : list array) (lo : nat) (t0 : dtype) (b c H W : Z) (done : list tile)
    (σ : state) : Prop :=
  let o := whole lo [b; c; H * scale s; W * scale s] in
  self σ = set_output o s ∧
  heap σ !! h_loc im = hp0 !! h_loc im ∧
  (∃ inputs, inferred σ = tr0 ++ inputs ∧
     Forall2 (λ t a, tile_input hp0 im t = Some a) done inputs) ∧
  ∃ r, deref (heap σ) o = Some r ∧ a_dtype r = t0 ∧
    ∀ t, t ∈ done →
      ∃ a_t r_t, tile_input hp0 im t = Some a_t ∧ n a_t = inr r_t ∧
        ∀ jn jc py px, 0 ≤ jn < b → 0 ≤ jc < c → in_output_region t px py →
          data r [jn; jc; py; px] = cast t0 (tile_sample r_t t jn jc py px).

(** The channels of the result of a colour conversion. *)
Definition channels_of (code : color_code) : list Z :=
  match code with
  | COLOR_GRAY2RGB | COLOR_BGR2RGB => [3]
  | COLOR_BGR2GRAY => []
  | COLOR_BGR2BGRA => [4]
  end.

(** The colour mode [enhance] reports for an input of a given shape. *)
Definition img_mode_of (s : list Z) : string :=
  if decide (length s = 2%nat) then "L"
  else if decide (s !! 2%nat = Some 4) then "RGBA"
  else "RGB".

(** The number of values of an unsigned integer type, and the arrays
    all of whose samples are such values. *)
Definition dtype_range (t : dtype) : Z :=
  match t with
  | UInt8 => 256
  | UInt16 => 65536
  | _ => 0
  end.

Definition integral (t : dtype) (a : array) : Prop :=
  ∀ i, ∃ z, data a i = inject_Z z ∧ 0 ≤ z < dtype_range t.



Section DepthVocabulary.
Context `{E : Externals}.


End DepthVocabulary.

(** ** Sample inputs

    A concrete environment, networks and images on which the model is
    run in the examples below. *)

Module Sample.

(** A network that repeats every pixel [s] times in both directions. *)
Definition nn_up (s : Z) : network :=
  λ a, match shape a with
       | [n; c; h; w] =>
           inr (mk_array [n; c; h * s; w * s] (a_dtype a)
                  (λ i, data a (<[2%nat := nth_Z 2 i `div` s]>
                                  (<[3%nat := nth_Z 3 i `div` s]> i))))
       | _ => inl (RuntimeError "expected a 4-D tensor")
       end.

(** Nearest-neighbour resampling. *)
Definition nearest (a : array) (dw dh : Z) (i : list Z) : Q :=
  match shape a with
  | h :: w :: _ =>
      data a (<[0%nat := (nth_Z 0 i * h) `div` dh]> (<[1%nat := (nth_Z 1 i * w) `div` dw]> i))
  | _ => 0%Q
  end.

(** Checkpoint files: two single-parameter checkpoints, one with both
    weight keys, one with none. *)
Definition files (path : string) : result (gmap string (gmap string Q)) :=
  if decide (path = "a.pth") then inr {[ "params" := {[ "w" := 1%Q ]} ]}
  else if decide (path = "b.pth") then inr {[ "params" := {[ "w" := 2%Q ]} ]}
  else if decide (path = "ema.pth") then
    inr (<[ "params_ema" := {[ "w" := 5%Q ]} ]> {[ "params" := {[ "w" := 1%Q ]} ]})
  else if decide (path = "empty.pth") then inr ∅
  else inl FileNotFoundError.

(** Parameters are exact rationals in lowest terms; a module is the
    state dictionary it was loaded with and computes [nn_up 2]. *)
Definition externals : Externals := {|
  param := Q;
  param_scale := λ w x, Qred (w * x);
  param_add := λ x y, inr (Qred (x + y));
  torch_load := files;
  load_file_from_url := λ _, inl FileNotFoundError;
  module := gmap string Q;
  load_state_dict := λ _ sd, inr sd;
  forward := λ _ _ _, nn_up 2;
  cuda_is_available := false;
  from_pretrained := λ _, inl FileNotFoundError;
  InferenceSession := λ _, inl FileNotFoundError;
  InferenceServerClient := λ _, inl FileNotFoundError;
  resize_kernel := λ _, nearest;
  bgr2gray := λ b g r, ((114 # 1000) * b + (587 # 1000) * g + (299 # 1000) * r)%Q
|}.

Definition torch_args (path : string) : init_args (E := externals) :=
  mk_init_args 2 (Some (Path path)) None (Some ∅) 0 10 10 false None None "torch"
    None None None None None None.

(** A network that returns its input, but fails (as when the
    accelerator runs out of memory) on an input whose first sample is 7. *)
Definition faulty : network :=
  λ a, if Qeq_bool (data a [0; 0; 0; 0]) 7 then inl (RuntimeError "out of memory")
       else inr a.

(** A one-row tensor (1, 1, 1, 2) with the two given samples. *)
Definition row2 (x0 x1 : Q) : array :=
  mk_array [1; 1; 1; 2] Float32 (λ i, if nth_Z 3 i =? 0 then x0 else x1).

(** Instances: a torch upsampler on the CPU around a network, and an
    onnx one around a session. *)
Definition upsampler (s T P pp : Z) (os : option Q) (n : network) : instance :=
  mk_instance s T P pp None false "torch" os (Some Cpu) (Some n) None None
    None None None None.

Definition onnx_upsampler (s T P pp : Z) (n : network) : instance :=
  mk_instance s T P pp None false "onnx" None None None (Some n) None
    None None None None.

(** Files for [PrefetchReader]: one image that decodes; every other
    path is unreadable. *)
Definition picture : array := mk_array [1; 2] UInt8 (λ i, inject_Z (nth_Z 1 i)).

Definition imread (path : string) : option array :=
  if decide (path = "ok.png") then Some picture else None.

(** An image of [h] rows, [w] columns and [c] channels whose samples
    count the pixels in row-major order. *)
Definition ramp (h w c : Z) : array :=
  mk_array [h; w; c] Float32 (λ i, inject_Z (nth_Z 0 i * w + nth_Z 1 i)).

(** A second environment, whose two checkpoints name their parameter
    differently. *)
Definition renamed_files (path : string) : result (gmap string (gmap string Q)) :=
  if decide (path = "a.pth") then inr {[ "params" := {[ "w" := 1%Q ]} ]}
  else if decide (path = "c.pth") then inr {[ "params" := {[ "weight" := 2%Q ]} ]}
  else inl FileNotFoundError.

Definition renamed : Externals := {|
  param := Q;
  param_scale := λ w x, Qred (w * x);
  param_add := λ x y, inr (Qred (x + y));
  torch_load := renamed_files;
  load_file_from_url := λ _, inl FileNotFoundError;
  module := gmap string Q;
  load_state_dict := λ _ sd, inr sd;
  forward := λ _ _ _, nn_up 2;
  cuda_is_available := false;
  from_pretrained := λ _, inl FileNotFoundError;
  InferenceSession := λ _, inl FileNotFoundError;
  InferenceServerClient := λ _, inl FileNotFoundError;
  resize_kernel := λ _, nearest;
  bgr2gray := λ b g r, ((114 # 1000) * b + (587 # 1000) * g + (299 # 1000) * r)%Q
|}.

(** A tensor (1, 1, h, w) whose samples count the pixels in row-major
    order. *)
Definition tensor (h w : Z) : array :=
  mk_array [1; 1; h; w] Float32 (λ i, inject_Z (nth_Z 2 i * w + nth_Z 3 i)).


(** A program state whose store holds the given arrays. *)
Definition state_with (i : instance) (arrays : list array) : state :=
  mk_state i arrays [].

(** A state in which [self.img] is the tensor [t], as after
    [pre_process] without padding. *)
Definition state_with_img (i : instance) (t : array) : state :=
  mk_state (set_img (whole 0 (shape t)) i) [t] [].

End Sample.

(** * Properties *)

(** ** Weight interpolation and weight-key resolution *)

Section Weights.
Context `{E : Externals}.

Lemma dni_assign_blend w0 w1 net_b b k va v m :
  net_b !! "params" = Some b →
  blend w0 w1 b k va = Some v →
  dni_assign [w0; w1] net_b "params" k va m = inr (<[k := v]> m).
Proof.
  intros Hb Hv. unfold dni_assign, blend, getitem in *. simpl. rewrite Hb. simpl.
  destruct (b !! k) as [vb|]; simpl in *; [|done].
  destruct (param_add _ _); by simplify_eq.
Qed.

Lemma dni_loop_blend w0 w1 net_b b (a : gmap string param) :
  net_b !! "params" = Some b →
  (∀ k va, a !! k = Some va → is_Some (blend w0 w1 b k va)) →
  ∃ merged, dni_loop [w0; w1] net_b "params" a = inr merged ∧
    ∀ k, merged !! k = a !! k ≫= blend w0 w1 b k.
Proof.
  intros Hb Hall. unfold dni_loop.
  pose (P := λ (r : result (gmap string param)) (m : gmap string param),
          m ⊆ a → ∃ merged, r = inr merged ∧
            ∀ k, merged !! k = match m !! k with
                               | Some va => blend w0 w1 b k va
                               | None => a !! k
                               end).
  cut (P (map_fold (λ k v_a acc, rbind acc (dni_assign [w0; w1] net_b "params" k v_a))
            (inr a) a) a).
  { intros H. destruct H as (merged & -> & Hm); [done|].
    exists merged; split; [done|]. intros k. rewrite Hm. by destruct (a !! k). }
  apply (map_fold_weak_ind P _ (inr a)); unfold P.
  - intros _. exists a. split; [done|]. intros k. by rewrite lookup_empty.
  - intros i x m r Hi IH Hsub.
    assert (a !! i = Some x) as Hai.
    { eapply lookup_weaken; [|exact Hsub]. apply lookup_insert_eq. }
    destruct IH as (merged & -> & Hm).
    { etrans; [|exact Hsub]. by apply insert_subseteq. }
    destruct (Hall i x Hai) as [v Hv].
    exists (<[i := v]> merged). split.
    + simpl. by eapply dni_assign_blend.
    + intros k. destruct (decide (i = k)) as [->|Hne].
      * by rewrite !lookup_insert_eq.
      * rewrite !lookup_insert_ne by done. apply Hm.
Qed.

End Weights.

Section WeightsClaims.
Context `{E : Externals}.

(** C5.  Weight interpolation.  For two checkpoints whose "params"
    mappings are [a] and [b] and a weight pair [w0, w1], [dni] returns
    the first checkpoint with "params" replaced by a mapping [merged] on
    the keys of [a] that assigns to every key [k] the value
    [w0 * a[k] + w1 * b[k]].  The premise says that this value exists
    for every key of [a]: [b] has the key and the two tensors can be
    added.  With weights [0.3, 0.7] and single parameters 1.0 and 2.0
    this value is 1.7 (the example that follows the section). *)
Theorem dni_interpolates (path_a path_b : string)
    (net_a net_b : gmap string (gmap string param)) (a b : gmap string param) (w0 w1 : Q) :
  torch_load path_a = inr net_a →
  torch_load path_b = inr net_b →
  net_a !! "params" = Some a →
  net_b !! "params" = Some b →
  (∀ k va, a !! k = Some va →
     ∃ vb v, b !! k = Some vb ∧ param_add (param_scale w0 va) (param_scale w1 vb) = inr v) →
  ∃ merged,
    dni path_a path_b [w0; w1] "params" = inr (<["params" := merged]> net_a) ∧
    dom merged = dom a ∧
    ∀ k va vb, a !! k = Some va → b !! k = Some vb →
      ∃ v, merged !! k = Some v ∧
           param_add (param_scale w0 va) (param_scale w1 vb) = inr v.
Proof.
  intros Ha Hb Hpa Hpb Hall.
  destruct (dni_loop_blend w0 w1 net_b b a Hpb) as (merged & Hloop & Hm).
  { intros k va Hk. destruct (Hall k va Hk) as (vb & v & Hvb & Hv).
    exists v. unfold blend. rewrite Hvb. simpl. by rewrite Hv. }
  exists merged. split; [|split].
  - unfold dni. rewrite Ha, Hb. simpl. unfold getitem. rewrite Hpa. simpl.
    by rewrite Hloop.
  - apply set_eq. intros k. rewrite !elem_of_dom, Hm.
    destruct (a !! k) as [va|] eqn:Hk; simpl.
    + destruct (Hall k va Hk) as (vb & v & Hvb & Hv).
      unfold blend. rewrite Hvb. simpl. rewrite Hv. split; eauto.
    + split; intros [? ?]; done.
  - intros k va vb Hk Hvb. specialize (Hm k). rewrite Hk in Hm. simpl in Hm.
    unfold blend in Hm. rewrite Hvb in Hm. simpl in Hm.
    destruct (Hall k va Hk) as (vb' & v & Hvb' & Hv).
    assert (vb' = vb) as -> by congruence.
    rewrite Hv in Hm. eauto.
Qed.

(** C7.  Weight-key resolution.  When a torch instance is constructed
    with a model and the checkpoint [loadnet] has been loaded:
    if [loadnet] has the key "params_ema", the model is loaded from
    [loadnet["params_ema"]]; otherwise, if it has "params", from
    [loadnet["params"]]; and if it has neither, construction fails, with
    the [KeyError] of the lookup [loadnet["params"]] (the error the
    specification calls ModelLoadError). *)
Theorem init_weight_key (a : init_args) (model : module)
    (loadnet : gmap string (gmap string param)) :
  arg_backend a = "torch" →
  arg_model a = Some model →
  load_checkpoint a = inr loadnet →
  let construct sd :=
    rbind (load_state_dict model sd) (λ m,
      inr (with_net (choose_device a) (forward m (choose_device a) (arg_half a))
             (init_fields a))) in
  (∀ sd, loadnet !! "params_ema" = Some sd → init a = construct sd) ∧
  (∀ sd, loadnet !! "params_ema" = None → loadnet !! "params" = Some sd →
     init a = construct sd) ∧
  (loadnet !! "params_ema" = None → loadnet !! "params" = None →
     init a = inl (KeyError "params")).
Proof.
  intros Hb Hm Hl. unfold init. rewrite Hb, Hm, Hl. simpl.
  unfold keyname, getitem. split; [|split].
  - intros sd Hsd. rewrite decide_True by (rewrite Hsd; eauto). by rewrite Hsd.
  - intros sd Hn Hsd. rewrite decide_False by (rewrite Hn; by intros [? ?]).
    by rewrite Hsd.
  - intros Hn Hn'. rewrite decide_False by (rewrite Hn; by intros [? ?]).
    by rewrite Hn'.
Qed.

End WeightsClaims.

(** The example of C5: weights [0.3, 0.7], one shared parameter, 1.0 in
    the first checkpoint and 2.0 in the second; the merged parameter is
    1.7. *)
Lemma dni_interpolates_example :
  ∃ merged,
    dni (E := Sample.externals) "a.pth" "b.pth" [3 # 10; 7 # 10]%Q "params"
      = inr (<["params" := merged]> {[ "params" := {[ "w" := 1%Q ]} ]}) ∧
    merged !! "w" = Some (17 # 10)%Q.
Proof.
  destruct (dni_interpolates (E := Sample.externals) "a.pth" "b.pth"
              {[ "params" := {[ "w" := 1%Q ]} ]} {[ "params" := {[ "w" := 2%Q ]} ]}
              {[ "w" := 1%Q ]} {[ "w" := 2%Q ]} (3 # 10)%Q (7 # 10)%Q
              eq_refl eq_refl eq_refl eq_refl)
    as (merged & Hd & _ & Hk).
  - intros k va Hk. apply lookup_singleton_Some in Hk as [<- <-].
    exists 2%Q, (17 # 10)%Q. split; reflexivity.
  - exists merged. split; [exact Hd|].
    destruct (Hk "w" 1%Q 2%Q eq_refl eq_refl) as (v & Hv & Hadd).
    vm_compute in Hadd. injection Hadd as <-. exact Hv.
Defined.

Lemma init_weight_key_witness :
  init (E := Sample.externals) (Sample.torch_args "ema.pth")
    = inr (with_net Cpu (Sample.nn_up 2)
             (init_fields (Sample.torch_args "ema.pth"))) ∧
  init (E := Sample.externals) (Sample.torch_args "a.pth")
    = inr (with_net Cpu (Sample.nn_up 2)
             (init_fields (Sample.torch_args "a.pth"))) ∧
  init (E := Sample.externals) (Sample.torch_args "empty.pth") = inl (KeyError "params").
Proof.
  split; [|split].
  - destruct (init_weight_key (E := Sample.externals) (Sample.torch_args "ema.pth") ∅
                (<[ "params_ema" := {[ "w" := 5%Q ]} ]> {[ "params" := {[ "w" := 1%Q ]} ]})
                eq_refl eq_refl eq_refl) as (H & _ & _).
    exact (H {[ "w" := 5%Q ]} eq_refl).
  - destruct (init_weight_key (E := Sample.externals) (Sample.torch_args "a.pth") ∅
                {[ "params" := {[ "w" := 1%Q ]} ]} eq_refl eq_refl eq_refl) as (_ & H & _).
    exact (H {[ "w" := 1%Q ]} eq_refl eq_refl).
  - destruct (init_weight_key (E := Sample.externals) (Sample.torch_args "empty.pth") ∅
                ∅ eq_refl eq_refl eq_refl) as (_ & _ & H).
    exact (H eq_refl eq_refl).
Defined.

(** ** Tiling *)

Lemma ceil_div_bounds (a b : Z) : 0 < b → (ceil_div a b - 1) * b < a ≤ ceil_div a b * b.
Proof.
  intros Hb. unfold ceil_div.
  pose proof (Z.div_mod (- a) b ltac:(lia)) as Hdm.
  pose proof (Z.mod_pos_bound (- a) b Hb) as Hm.
  nia.
Qed.

Lemma ceil_div_pos (a b : Z) : 0 < b → 1 ≤ a → 1 ≤ ceil_div a b.
Proof. intros Hb Ha. pose proof (ceil_div_bounds a b Hb). nia. Qed.

Lemma bind_singleton_fmap {A B} (f : A → B) (l : list A) : (x ← l; [f x]) = f <$> l.
Proof.
  induction l as [|x l IH]; simpl; [done|].
  by f_equal.
Qed.

Lemma lookup_bind_fmap {A B C} (g : A → B → C) (l1 : list A) (l2 : list B) i j y x :
  l1 !! i = Some y → l2 !! j = Some x →
  (y ← l1; g y <$> l2) !! (i * length l2 + j)%nat = Some (g y x).
Proof.
  revert i. induction l1 as [|y' l1 IH]; intros i Hy Hx; [done|].
  rewrite bind_cons. destruct i as [|i]; simpl in Hy |- *.
  - simplify_eq. rewrite lookup_app_l.
    + by rewrite list_lookup_fmap, Hx.
    + rewrite length_fmap. by eapply lookup_lt_Some.
  - rewrite lookup_app_r; rewrite length_fmap; [|lia].
    replace (length l2 + i * length l2 + j - length l2)%nat with (i * length l2 + j)%nat by lia.
    by apply IH.
Qed.

Lemma length_bind_fmap {A B C} (g : A → B → C) (l1 : list A) (l2 : list B) :
  length (y ← l1; g y <$> l2) = (length l1 * length l2)%nat.
Proof.
  induction l1 as [|y l1 IH]; [done|].
  rewrite bind_cons, length_app, length_fmap, IH. simpl. lia.
Qed.

Lemma bind_assoc {A B C} (m : M A) (f : A → M B) (g : B → M C) σ :
  bind (bind m f) g σ = bind m (λ a, bind (f a) g) σ.
Proof. unfold bind. by destruct (m σ) as [[e|a] σ']. Qed.

Lemma bind_ret_l {A B} (a : A) (f : A → M B) σ : bind (ret a) f σ = f a σ.
Proof. done. Qed.

Lemma bind_ext {A B} (m : M A) (f g : A → M B) σ :
  (∀ a σ', f a σ' = g a σ') → bind m f σ = bind m g σ.
Proof. intros H. unfold bind. destruct (m σ) as [[e|a] σ']; [done|apply H]. Qed.

Lemma for_each_app {A B} (l l' : list A) (body : A → B → M B) acc σ :
  for_each (l ++ l') body acc σ = bind (for_each l body acc) (for_each l' body) σ.
Proof.
  revert acc σ. induction l as [|x l IH]; intros acc σ; simpl; [done|].
  rewrite bind_assoc. apply bind_ext. intros; apply IH.
Qed.

Lemma for_each_fmap {A A' B} (f : A → A') (l : list A) (body : A' → B → M B) acc σ :
  for_each (f <$> l) body acc σ = for_each l (λ x, body (f x)) acc σ.
Proof.
  revert acc σ. induction l as [|x l IH]; intros acc σ; simpl; [done|].
  apply bind_ext. intros; apply IH.
Qed.

(** Nested loops run their body over the flattened list of iterations. *)
Lemma for_each_nested {A A' T B} (g : A → A' → T) (l1 : list A) (l2 : list A')
    (body : T → B → M B) acc σ :
  for_each l1 (λ y, for_each l2 (λ x, body (g y x))) acc σ
  = for_each (y ← l1; g y <$> l2) body acc σ.
Proof.
  revert acc σ. induction l1 as [|y l1 IH]; intros acc σ; [done|].
  rewrite bind_cons, for_each_app. simpl. unfold bind at 1 2.
  rewrite for_each_fmap. destruct (for_each l2 _ acc σ) as [[e|a] σ']; [done|apply IH].
Qed.

Lemma tile_grid_fmap (s : instance) (w h : Z) :
  tile_grid s w h
  = (y ← range (ceil_div h (tile_size s));
     tile_at s w h (ceil_div w (tile_size s)) y <$> range (ceil_div w (tile_size s))).
Proof.
  unfold tile_grid. cbv zeta.
  generalize (range (ceil_div h (tile_size s))) as l.
  induction l as [|y l IH]; [done|].
  by rewrite !bind_cons, IH, bind_singleton_fmap.
Qed.

Lemma range_lookup (n k : Z) : 0 ≤ k < n → range n !! Z.to_nat k = Some k.
Proof.
  intros Hk. unfold range. rewrite lookup_seqZ_lt by lia. f_equal. lia.
Qed.

(** One axis: the intervals [k*T*sc, min(k*T + T, n)*sc) for
    0 <= k < ceil(n / T) partition [0, n*sc). *)
Lemma axis_cover (n T sc p : Z) :
  0 < T → 1 ≤ sc → 0 ≤ p < n * sc →
  let k := p `div` (T * sc) in
  0 ≤ k < ceil_div n T ∧ k * T * sc ≤ p < Z.min (k * T + T) n * sc.
Proof.
  intros HT Hsc Hp k.
  pose proof (ceil_div_bounds n T HT) as Hc.
  assert (0 < T * sc) as HD by nia.
  pose proof (Z.div_mod p (T * sc) ltac:(lia)) as Hdm.
  pose proof (Z.mod_pos_bound p (T * sc) HD) as Hm.
  fold k in Hdm.
  assert (0 ≤ k) by (apply Z.div_pos; lia).
  assert (k * T * sc ≤ p < (k * T + T) * sc) as Hk by nia.
  split; [split; [done|nia]|].
  split; [lia|]. destruct (Z.min_spec (k * T + T) n) as [[_ ->]|[_ ->]]; lia.
Qed.

Lemma axis_unique (n T sc p k k' : Z) :
  0 < T → 1 ≤ sc →
  k * T * sc ≤ p < Z.min (k * T + T) n * sc →
  k' * T * sc ≤ p < Z.min (k' * T + T) n * sc →
  k' = k.
Proof.
  intros HT Hsc [H1 H2] [H1' H2'].
  assert (p < (k * T + T) * sc) by (pose proof (Z.le_min_l (k * T + T) n); nia).
  assert (p < (k' * T + T) * sc) by (pose proof (Z.le_min_l (k' * T + T) n); nia).
  destruct (Z.lt_trichotomy k k') as [Hlt|[->|Hlt]]; [|done|]; nia.
Qed.

Lemma axis_inside (n T sc p k : Z) :
  0 < T → 1 ≤ sc → 0 ≤ k →
  k * T * sc ≤ p < Z.min (k * T + T) n * sc → 0 ≤ p < n * sc.
Proof.
  intros HT Hsc Hk [H1 H2].
  pose proof (Z.le_min_r (k * T + T) n). nia.
Qed.

(** The geometry of the tile grid.  For an image of height [h >= 1]
    and width [w >= 1], tile size [T > 0], tile pad [P >= 0] and scale
    [s >= 1]: the tile counts are the ceilings of [w / T] and [h / T];
    the loop runs its body on the tiles of [tile_grid], which lists
    tile (x, y) at position [y * tiles_x + x]; the output region of
    tile (x, y) is [x*T*s, min((x+1)*T, w)*s) by
    [y*T*s, min((y+1)*T, h)*s); every pixel of the output rectangle
    lies in the region of exactly one tile, and every region lies
    inside that rectangle. *)
Lemma tile_grid_geometry (s : instance) (w h : Z) :
  1 ≤ h → 1 ≤ w → 0 < tile_size s → 0 ≤ tile_pad s → 1 ≤ scale s →
  let T := tile_size s in
  let tiles_x := ceil_div w T in
  let tiles_y := ceil_div h T in
  let tile_xy x y := tile_at s w h tiles_x y x in
  ((tiles_x - 1) * T < w ≤ tiles_x * T ∧ (tiles_y - 1) * T < h ≤ tiles_y * T) ∧
  (∀ σ, tile_loop s w h σ
        = for_each (tile_grid s w h) (λ t, tile_body t (tiles_x * tiles_y)) None σ) ∧
  length (tile_grid s w h) = Z.to_nat (tiles_x * tiles_y) ∧
  (∀ x y, 0 ≤ x < tiles_x → 0 ≤ y < tiles_y →
     tile_grid s w h !! Z.to_nat (y * tiles_x + x) = Some (tile_xy x y) ∧
     tile_idx (tile_xy x y) = y * tiles_x + x + 1) ∧
  (∀ x y, 0 ≤ x < tiles_x → 0 ≤ y < tiles_y →
     output_start_x (tile_xy x y) = x * T * scale s ∧
     output_end_x (tile_xy x y) = Z.min ((x + 1) * T) w * scale s ∧
     output_start_y (tile_xy x y) = y * T * scale s ∧
     output_end_y (tile_xy x y) = Z.min ((y + 1) * T) h * scale s) ∧
  (∀ px py, 0 ≤ px < w * scale s → 0 ≤ py < h * scale s →
     ∃ x y, (0 ≤ x < tiles_x ∧ 0 ≤ y < tiles_y) ∧
       in_output_region (tile_xy x y) px py ∧
       ∀ x' y', 0 ≤ x' < tiles_x → 0 ≤ y' < tiles_y →
         in_output_region (tile_xy x' y') px py → x' = x ∧ y' = y) ∧
  (∀ x y px py, 0 ≤ x < tiles_x → 0 ≤ y < tiles_y →
     in_output_region (tile_xy x y) px py →
     0 ≤ px < w * scale s ∧ 0 ≤ py < h * scale s).
Proof.
  intros Hh Hw HT HP Hs T tiles_x tiles_y tile_xy.
  pose proof (ceil_div_bounds w T HT) as Hcx.
  pose proof (ceil_div_bounds h T HT) as Hcy.
  pose proof (ceil_div_pos w T HT Hw) as Hpx.
  pose proof (ceil_div_pos h T HT Hh) as Hpy.
  fold tiles_x in Hcx, Hpx. fold tiles_y in Hcy, Hpy.
  split; [done|]. split; [|split; [|split; [|split; [|split]]]].
  - intros σ. rewrite tile_grid_fmap.
    exact (for_each_nested (tile_at s w h tiles_x) (range tiles_y) (range tiles_x)
             (λ t, tile_body t (tiles_x * tiles_y)) None σ).
  - rewrite tile_grid_fmap, length_bind_fmap. unfold range.
    rewrite !length_seqZ. fold T tiles_x tiles_y. nia.
  - intros x y Hx Hy. split; [|done].
    rewrite tile_grid_fmap. fold T tiles_x tiles_y.
    replace (Z.to_nat (y * tiles_x + x))
      with (Z.to_nat y * length (range tiles_x) + Z.to_nat x)%nat.
    + unfold tile_xy.
      apply (lookup_bind_fmap (tile_at s w h tiles_x)); by apply range_lookup.
    + unfold range. rewrite length_seqZ. nia.
  - intros x y Hx Hy. unfold tile_xy, tile_at. simpl. fold T.
    repeat split; lia.
  - intros px py Hpx' Hpy'.
    destruct (axis_cover w T (scale s) px HT Hs Hpx') as [Hkx Hrx].
    destruct (axis_cover h T (scale s) py HT Hs Hpy') as [Hky Hry].
    exists (px `div` (T * scale s)), (py `div` (T * scale s)).
    split; [done|]. split; [done|].
    intros x' y' Hx' Hy' [Hx'' Hy'']. unfold tile_xy, tile_at in Hx'', Hy''.
    simpl in Hx'', Hy''. fold T in Hx'', Hy''. split.
    + eapply (axis_unique w T (scale s) px); eauto.
    + eapply (axis_unique h T (scale s) py); eauto.
  - intros x y px py Hx Hy [Hx' Hy']. unfold tile_xy, tile_at in Hx', Hy'.
    simpl in Hx', Hy'. fold T in Hx', Hy'. split.
    + eapply (axis_inside w T (scale s) px x); eauto; lia.
    + eapply (axis_inside h T (scale s) py y); eauto; lia.
Qed.

(** C8.  Tiling on a backend without tiling support.  With the onnx or
    the triton backend [tile_process] raises [NotImplementedError] (the
    specification's UnsupportedOperationError) and leaves the program
    state as it was: no inference call is recorded, nothing is
    allocated or written, and [self.output] is not assigned. *)
Theorem tile_process_unsupported_backend (σ : state) :
  backend (self σ) = "onnx" ∨ backend (self σ) = "triton" →
  tile_process σ
  = (inl (NotImplementedError "backend isn't supported for tile process yet"), σ).
Proof.
  intros Hb. unfold tile_process, bind, get_self. simpl.
  destruct Hb as [-> | ->]; reflexivity.
Qed.

Lemma tile_process_unsupported_backend_witness :
  let σ := Sample.state_with (Sample.onnx_upsampler 2 8 2 10 (Sample.nn_up 2)) [] in
  (backend (self σ) = "onnx" ∨ backend (self σ) = "triton") ∧
  tile_process σ
  = (inl (NotImplementedError "backend isn't supported for tile process yet"), σ).
Proof.
  intros σ.
  assert (backend (self σ) = "onnx" ∨ backend (self σ) = "triton") as Hb
    by (left; reflexivity).
  split; [exact Hb|].
  exact (tile_process_unsupported_backend σ Hb).
Defined.

(** ** The prefetch pipeline *)

Module PrefetchReaderFacts.
Import PrefetchReader.

Section Facts.
Variable imread : string → option array.
Variable img_list : list string.
Variable num_prefetch_queue : Z.

Lemma inv_init :
  inv imread img_list num_prefetch_queue (init img_list num_prefetch_queue).
Proof. done. Qed.

Lemma inv_step t σ σ' :
  inv imread img_list num_prefetch_queue σ → step imread t σ = Some σ' →
  inv imread img_list num_prefetch_queue σ'.
Proof.
  intros (Ha & Hb & Hc & Hd) Hstep. destruct t; simpl in Hstep.
  - unfold run_step in Hstep. destruct (running σ) eqn:Hr; [|done].
    destruct (full σ); [done|].
    unfold pending in Ha. rewrite Hr in Ha.
    destruct (todo σ) as [|p rest] eqn:Ht; simplify_eq; unfold inv, pending, taken; simpl.
    + split_and!; [by rewrite <- Ha, app_nil_r| |done|done].
      rewrite Hb. unfold taken. by rewrite <- !app_assoc.
    + split_and!; [by rewrite <- Ha, <- app_assoc| |done|done].
      rewrite Hb. unfold taken. by rewrite <- !app_assoc.
  - unfold next_step in Hstep. destruct (stopped σ) eqn:Hs; [done|].
    unfold taken in Hb. rewrite Hs, app_nil_r in Hb.
    destruct (que σ) as [|[im|] q] eqn:Hq; simplify_eq; unfold inv, pending, taken; simpl.
    + split_and!; [done| |done|done].
      by rewrite Hb, fmap_app, app_nil_r, <- app_assoc.
    + split_and!; [done| |done|done]. by rewrite Hb, <- app_assoc.
Qed.

Lemma inv_run sched σ σ' :
  inv imread img_list num_prefetch_queue σ → run_schedule imread sched σ = Some σ' →
  inv imread img_list num_prefetch_queue σ'.
Proof.
  revert σ. induction sched as [|t sched IH]; intros σ Hinv Hrun; simpl in Hrun.
  - by simplify_eq.
  - destruct (step imread t σ) as [σ1|] eqn:Hstep; [|done].
    eapply IH; [|exact Hrun]. by eapply inv_step.
Qed.

Lemma fuel_step t σ σ' : step imread t σ = Some σ' → S (fuel imread σ') = fuel imread σ.
Proof.
  intros Hstep. destruct t; simpl in Hstep.
  - unfold run_step in Hstep. destruct (running σ) eqn:Hr; [|done].
    destruct (full σ); [done|].
    destruct (todo σ) as [|p rest] eqn:Ht; simplify_eq;
      unfold fuel, pending; simpl; rewrite Hr, Ht; simpl;
      rewrite ?length_app, ?length_fmap; simpl; lia.
  - unfold next_step in Hstep. destruct (stopped σ); [done|].
    destruct (que σ) as [|[im|] q] eqn:Hq; simplify_eq;
      unfold fuel, pending; simpl; rewrite Hq; simpl; lia.
Qed.

Lemma fuel_run sched σ σ' :
  run_schedule imread sched σ = Some σ' →
  (length sched + fuel imread σ')%nat = fuel imread σ.
Proof.
  revert σ. induction sched as [|t sched IH]; intros σ Hrun; simpl in Hrun.
  - by simplify_eq.
  - destruct (step imread t σ) as [σ1|] eqn:Hstep; [|done].
    apply IH in Hrun. apply fuel_step in Hstep. simpl. lia.
Qed.

Lemma fmap_imread_omap (l : list string) :
  Forall (λ p, is_Some (imread p)) l → imread <$> l = Some <$> omap imread l.
Proof.
  induction 1 as [|p l [im Hp] _ IH]; [done|].
  rewrite fmap_cons, IH. cbn. by rewrite Hp.
Qed.

Hypothesis all_decode : Forall (λ p, is_Some (imread p)) img_list.

Lemma fmap_imread_decoded : imread <$> img_list = Some <$> decoded imread img_list.
Proof. by apply fmap_imread_omap. Qed.

(** A list of [Some]s followed by the sentinel splits in one way only. *)
Lemma somes_sentinel_inj (l1 l2 : list array) (r1 r2 : list (option array)) :
  (Some <$> l1) ++ None :: r1 = (Some <$> l2) ++ None :: r2 → l1 = l2 ∧ r1 = r2.
Proof.
  revert l2. induction l1 as [|x l1 IH]; intros [|y l2] Heq; simpl in Heq;
    simplify_eq; [done|].
  destruct (IH l2) as [-> ->]; done.
Qed.

Lemma somes_prefix (l1 l2 : list array) (r1 r2 : list (option array)) :
  (Some <$> l1) ++ r1 = (Some <$> l2) ++ None :: r2 →
  l1 `prefix_of` l2 ∨ ∃ l, l1 = l2 ++ l.
Proof.
  revert l2. induction l1 as [|x l1 IH]; intros l2 Heq.
  - left. apply prefix_nil.
  - destruct l2 as [|y l2]; simpl in Heq.
    + right. by exists (x :: l1).
    + simplify_eq. destruct (IH l2) as [Hp|[l ->]]; [done| |].
      * left. by apply prefix_cons.
      * right. by exists l.
Qed.

Lemma inv_stopped σ :
  inv imread img_list num_prefetch_queue σ → stopped σ = true →
  yielded σ = decoded imread img_list ∧
  pushed σ = (imread <$> img_list) ++ [None] ∧ que σ = [] ∧ running σ = false.
Proof.
  intros (Ha & Hb & _) Hs. unfold taken in Hb. rewrite Hs in Hb.
  rewrite Hb, fmap_imread_decoded, <- !app_assoc in Ha. simpl in Ha.
  apply somes_sentinel_inj in Ha as [Hy Hrest].
  apply app_eq_nil in Hrest as [Hq Hpend].
  unfold pending in Hpend. apply app_eq_nil in Hpend as [_ Hrun].
  destruct (running σ); [done|].
  repeat split; try done.
  rewrite Hb, Hq, app_nil_r, Hy. by rewrite fmap_imread_decoded.
Qed.

Lemma inv_yielded_prefix σ :
  inv imread img_list num_prefetch_queue σ → yielded σ `prefix_of` decoded imread img_list.
Proof.
  intros Hinv. destruct (stopped σ) eqn:Hs.
  - by destruct (inv_stopped σ Hinv Hs) as (-> & _).
  - destruct Hinv as (Ha & Hb & _). unfold taken in Hb. rewrite Hs, app_nil_r in Hb.
    rewrite Hb, fmap_imread_decoded, <- app_assoc in Ha.
    destruct (somes_prefix _ _ _ _ Ha) as [Hp|[l Hl]]; [done|].
    rewrite Hl, fmap_app, <- app_assoc in Ha. apply app_inv_head in Ha.
    destruct l as [|x l]; [|done]. rewrite app_nil_r in Hl. by rewrite Hl.
Qed.

Lemma inv_terminal σ :
  inv imread img_list num_prefetch_queue σ → terminal imread σ → stopped σ = true.
Proof.
  intros (Ha & Hb & Hc & Hd) [Hrun Hnext].
  destruct (stopped σ) eqn:Hs; [done|]. exfalso.
  unfold next_step in Hnext. rewrite Hs in Hnext.
  destruct (que σ) as [|[im|] q] eqn:Hq; [|done|done].
  unfold run_step, full in Hrun. rewrite Hq in Hrun. simpl in Hrun.
  unfold taken in Hb. rewrite Hs, !app_nil_r in Hb.
  unfold pending in Ha.
  destruct (running σ).
  - destruct (0 <? maxsize σ) eqn:H0; simpl in Hrun.
    + change (Z.of_nat 0) with 0 in Hrun.
      destruct (maxsize σ <=? 0) eqn:H1; [lia|]. by destruct (todo σ).
    + by destruct (todo σ).
  - rewrite (Hc eq_refl), Hb, !app_nil_r in Ha.
    assert (None ∈ (Some <$> yielded σ)) as Hin.
    { rewrite Ha. apply elem_of_app. right. by apply list_elem_of_singleton. }
    apply list_elem_of_fmap in Hin as (? & ? & _). done.
Qed.

End Facts.
End PrefetchReaderFacts.

(** C9 (amended).  Pipeline ordering, for path lists all of whose paths
    decode ([cv2.imread] returns an image, not [None]).  In every state
    the producer and the iterating thread can reach, whatever the
    interleaving and the queue bound: what has been put on the queue is
    an initial part of the decoded images in path order followed by one
    sentinel; what iteration has yielded is an initial part of the
    decoded images in path order; the end of the sequence has been
    signalled only if every image has been yielded, the sentinel has
    been put and taken, the queue is empty and the producer has
    finished; a state in which neither thread can move has the end
    signalled; and no interleaving has more than two steps per put. *)
Theorem prefetch_reader_order (imread : string → option array) (img_list : list string)
    (num_prefetch_queue : Z) (sched : list PrefetchReader.thread) (σ : PrefetchReader.sys) :
  Forall (λ p, is_Some (imread p)) img_list →
  PrefetchReader.run_schedule imread sched
    (PrefetchReader.init img_list num_prefetch_queue) = Some σ →
  let images := PrefetchReader.decoded imread img_list in
  imread <$> img_list = Some <$> images ∧
  PrefetchReader.pushed σ `prefix_of` (Some <$> images) ++ [None] ∧
  PrefetchReader.yielded σ `prefix_of` images ∧
  (PrefetchReader.stopped σ = true →
     PrefetchReader.yielded σ = images ∧
     PrefetchReader.pushed σ = (Some <$> images) ++ [None] ∧
     PrefetchReader.que σ = [] ∧
     PrefetchReader.running σ = false) ∧
  (PrefetchReader.terminal imread σ → PrefetchReader.stopped σ = true) ∧
  (length sched ≤ 2 * (length img_list + 1))%nat.
Proof.
  intros Hdec Hrun images.
  pose proof (PrefetchReaderFacts.inv_run imread img_list num_prefetch_queue sched _ σ
                (PrefetchReaderFacts.inv_init imread img_list num_prefetch_queue) Hrun)
    as Hinv.
  pose proof (PrefetchReaderFacts.fmap_imread_decoded imread img_list Hdec) as Himg.
  split_and!.
  - exact Himg.
  - destruct Hinv as (Ha & _). fold images in Himg. rewrite <- Himg, <- Ha.
    by apply prefix_app_r.
  - by eapply PrefetchReaderFacts.inv_yielded_prefix.
  - intros Hs.
    destruct (PrefetchReaderFacts.inv_stopped imread img_list num_prefetch_queue Hdec σ
                Hinv Hs) as (Hy & Hp & Hq & Hr).
    fold images in Himg. by rewrite <- Himg.
  - by eapply PrefetchReaderFacts.inv_terminal.
  - apply PrefetchReaderFacts.fuel_run in Hrun.
    unfold PrefetchReader.fuel, PrefetchReader.pending in Hrun. simpl in Hrun.
    rewrite !length_app, !length_fmap in Hrun. simpl in Hrun. lia.
Qed.

Lemma prefetch_reader_order_witness :
  let img_list := ["ok.png"; "ok.png"] in
  let sched := [PrefetchReader.Producer; PrefetchReader.Consumer; PrefetchReader.Producer;
                PrefetchReader.Consumer; PrefetchReader.Producer; PrefetchReader.Consumer] in
  let σ := PrefetchReader.mk_sys [] false [] 1
             [Some Sample.picture; Some Sample.picture; None]
             [Sample.picture; Sample.picture] true in
  Forall (λ p, is_Some (Sample.imread p)) img_list ∧
  PrefetchReader.run_schedule Sample.imread sched (PrefetchReader.init img_list 1) = Some σ ∧
  PrefetchReader.yielded σ = PrefetchReader.decoded Sample.imread img_list ∧
  PrefetchReader.pushed σ
  = (Some <$> PrefetchReader.decoded Sample.imread img_list) ++ [None].
Proof.
  intros img_list sched σ.
  assert (Forall (λ p, is_Some (Sample.imread p)) img_list) as Hdec.
  { apply List.Forall_cons; [by exists Sample.picture|].
    apply List.Forall_cons; [by exists Sample.picture|]. apply List.Forall_nil. }
  assert (PrefetchReader.run_schedule Sample.imread sched (PrefetchReader.init img_list 1)
          = Some σ) as Hrun by (vm_compute; reflexivity).
  split; [exact Hdec|]. split; [exact Hrun|].
  destruct (prefetch_reader_order Sample.imread img_list 1 sched σ Hdec Hrun)
    as (_ & _ & _ & Hstop & _ & _).
  destruct (Hstop eq_refl) as (Hy & Hp & _ & _). split; [exact Hy|exact Hp].
Defined.

(** C9 as stated, for every path list, fails when a path does not
    decode: [cv2.imread] returns [None], which [run] puts on the queue
    and [__next__] takes for the sentinel.  Here the first of two paths
    is unreadable: iteration ends having yielded nothing, the image of
    the second path and the sentinel put after it stay on the queue, and
    neither thread can move. *)
Lemma prefetch_reader_undecodable_counterexample :
  let img_list := ["missing.png"; "ok.png"] in
  let sched := [PrefetchReader.Producer; PrefetchReader.Consumer; PrefetchReader.Producer; PrefetchReader.Producer] in
  ∃ σ,
    PrefetchReader.run_schedule Sample.imread sched (PrefetchReader.init img_list 0) = Some σ ∧
    PrefetchReader.terminal Sample.imread σ ∧
    PrefetchReader.stopped σ = true ∧
    PrefetchReader.decoded Sample.imread img_list = [Sample.picture] ∧
    PrefetchReader.yielded σ = [] ∧
    PrefetchReader.que σ = [Some Sample.picture; None].
Proof. intros img_list sched. eexists. by split_and!. Qed.

(** ** A fault in one tile *)

(** C3 on the code.  The claim is that after a fault in a tile's
    inference call the fault is reported, the loop goes on and the
    tile's output region keeps its zeros.  The handler only prints:
    the statements after it still copy [output_tile] into the region.
    - With tiles of one pixel on the row (5, 7) and a network that
      fails on the second tile, the fault is printed, and the second
      region receives the output of the first tile: the result is
      (5, 5), not (5, 0).
    - On the row (7, 5) the first tile fails, [output_tile] is unbound,
      and [tile_process] ends with [UnboundLocalError] after one tile:
      the second tile is never processed. *)
Theorem tile_fault_copies_stale_tile :
  let i := Sample.upsampler 1 1 0 0 None Sample.faulty in
  (∃ σ', tile_process (Sample.state_with_img i (Sample.row2 5 7)) = (inr tt, σ') ∧
     printed σ' = [MsgTile 1 2; MsgError (RuntimeError "out of memory"); MsgTile 2 2] ∧
     output_samples σ' = Some [5%Q; 5%Q]) ∧
  (∃ σ', tile_process (Sample.state_with_img i (Sample.row2 7 5))
           = (inl (UnboundLocalError "output_tile"), σ') ∧
     printed σ' = [MsgError (RuntimeError "out of memory"); MsgTile 1 2] ∧
     length (inferred σ') = 1%nat ∧
     output_samples σ' = Some [0%Q; 0%Q]).
Proof.
  intros i. split.
  - eexists. split; [vm_compute; reflexivity|]. split; vm_compute; reflexivity.
  - eexists. split; [vm_compute; reflexivity|]. split_and!; vm_compute; reflexivity.
Qed.

(** ** A program logic for the methods *)

Section Logic.
Variable h0 : store.
Variable i0 : instance.


Lemma wp_ret {A} (a : A) Q X σ : Q a σ → wp h0 i0 (ret a) Q X σ.
Proof. by intros HQ Hinv. Qed.

Lemma wp_raise {A} (e : exn) (Q : A → state → Prop) X σ : X e σ → wp h0 i0 (raise e) Q X σ.
Proof. by intros HX Hinv. Qed.

Lemma wp_bind {A B} (m : M A) (f : A → M B) Q X σ :
  wp h0 i0 m (λ a σ', wp h0 i0 (f a) Q X σ') X σ → wp h0 i0 (bind m f) Q X σ.
Proof.
  intros Hm Hinv. destruct (Hm Hinv) as [Hinv' HQ]. unfold bind.
  destruct (m σ) as [[e|a] σ']; simpl in *; [done|]. by apply HQ.
Qed.

Lemma wp_conseq {A} (m : M A) (Q Q' : A → state → Prop) (X X' : exn → state → Prop) σ :
  wp h0 i0 m Q X σ →
  (∀ a σ', inv h0 i0 σ' → Q a σ' → Q' a σ') →
  (∀ e σ', inv h0 i0 σ' → X e σ' → X' e σ') →
  wp h0 i0 m Q' X' σ.
Proof.
  intros Hm HQ HX Hinv. destruct (Hm Hinv) as [Hinv' H]. split; [done|].
  destruct (m σ).1; eauto.
Qed.

Lemma wp_inv {A} (m : M A) Q X σ : (inv h0 i0 σ → wp h0 i0 m Q X σ) → wp h0 i0 m Q X σ.
Proof. intros H Hinv. by apply H. Qed.

Lemma wp_get_self Q X σ : Q (self σ) σ → wp h0 i0 get_self Q X σ.
Proof. by intros HQ Hinv. Qed.

Lemma wp_lift {A} (r : result A) Q X σ :
  (∀ a, r = inr a → Q a σ) → (∀ e, r = inl e → X e σ) → wp h0 i0 (lift r) Q X σ.
Proof. intros HQ HX Hinv. destruct r; simpl; eauto. Qed.

Lemma wp_attr {A} name (f : instance → option A) Q X σ :
  (∀ a, f (self σ) = Some a → Q a σ) → X (AttributeError name) σ →
  wp h0 i0 (attr name f) Q X σ.
Proof.
  intros HQ HX Hinv. unfold attr, bind, get_self. simpl.
  destruct (f (self σ)); simpl; eauto.
Qed.

Lemma loaded_shape (h : handle) (s : store) :
  shape (default (mk_array (h_shape h) Float32 (λ _, 0%Q)) (deref s h)) = h_shape h.
Proof. unfold deref. by destruct (s !! h_loc h). Qed.

Lemma wp_load (h : handle) Q X σ :
  (∀ a, shape a = h_shape h → (∀ b, deref (heap σ) h = Some b → a = b) → Q a σ) →
  wp h0 i0 (load h) Q X σ.
Proof.
  intros HQ Hinv. split; [done|]. simpl. apply HQ; [apply loaded_shape|].
  by intros b ->.
Qed.

Lemma wp_emit e Q X σ :
  Q tt (mk_state (self σ) (heap σ) (trace σ ++ [e])) → wp h0 i0 (emit e) Q X σ.
Proof. by intros HQ Hinv. Qed.

Lemma wp_print m Q X σ :
  Q tt (mk_state (self σ) (heap σ) (trace σ ++ [Printed m])) → wp h0 i0 (print m) Q X σ.
Proof. apply wp_emit. Qed.

Lemma wp_when b m Q X σ :
  (b = true → wp h0 i0 m Q X σ) → (b = false → Q tt σ) → wp h0 i0 (when b m) Q X σ.
Proof. intros Hm HQ. destruct b; [by apply Hm|]. by apply wp_ret, HQ. Qed.

(** Assignments to the fields that methods do assign. *)
Lemma wp_modify_self f Q X σ :
  settings (f (self σ)) = settings (self σ) →
  Q tt (mk_state (f (self σ)) (heap σ) (trace σ)) →
  wp h0 i0 (modify_self f) Q X σ.
Proof.
  intros Hf HQ [Hpre Hset]. split; [|done]. split; [done|]. simpl. by rewrite Hf.
Qed.

Lemma view_of_whole l a : view_of (whole l (shape a)) a = a.
Proof. by destruct a. Qed.

(** Allocation: the new handle is fresh and denotes the new array. *)
Lemma wp_alloc a Q X σ :
  (∀ h, fresh h0 h → h_shape h = shape a → deref (heap σ ++ [a]) h = Some a →
        Q h (mk_state (self σ) (heap σ ++ [a]) (trace σ))) →
  wp h0 i0 (alloc a) Q X σ.
Proof.
  intros HQ [Hpre Hset]. split.
  - split; [|done]. simpl. by apply prefix_app_r.
  - simpl. apply HQ; [|done|].
    + unfold fresh. simpl. by apply prefix_length.
    + unfold deref. simpl. rewrite lookup_app_r, Nat.sub_diag by done. simpl.
      by rewrite view_of_whole.
Qed.

Lemma store_poke_prefix h v s :
  fresh h0 h → h0 `prefix_of` s → h0 `prefix_of` store_poke h v s.
Proof.
  intros Hf [k ->]. unfold store_poke.
  case_match; [|by apply prefix_app_r].
  rewrite insert_app_r_alt by done. by apply prefix_app_r.
Qed.

(** A write through a view of a fresh buffer. *)
Lemma wp_poke_with h v Q X σ :
  fresh h0 h →
  Q tt (mk_state (self σ) (store_poke h v (heap σ)) (trace σ)) →
  wp h0 i0 (poke_with h v) Q X σ.
Proof.
  intros Hf HQ [Hpre Hset]. split; [|done]. split; [|done].
  by apply store_poke_prefix.
Qed.

Lemma wp_try_except_RuntimeError {A} (m : M A) handler Q X σ :
  wp h0 i0 m Q (λ e σ', if is_RuntimeError e then wp h0 i0 (handler e) Q X σ' else X e σ') σ →
  wp h0 i0 (try_except_RuntimeError m handler) Q X σ.
Proof.
  intros Hm Hinv. destruct (Hm Hinv) as [Hinv' H]. unfold try_except_RuntimeError.
  destruct (m σ) as [[e|a] σ']; simpl in *; [|done].
  destruct (is_RuntimeError e); [by apply H|done].
Qed.

(** A loop with an invariant on its carried locals. *)
Lemma wp_for_each {A B} (l : list A) (body : A → B → M B) (L : B → state → Prop) X acc σ :
  L acc σ →
  (∀ x acc σ, x ∈ l → L acc σ → wp h0 i0 (body x acc) L X σ) →
  wp h0 i0 (for_each l body acc) L X σ.
Proof.
  revert acc σ. induction l as [|x l IH]; intros acc σ HL Hbody; simpl.
  - by apply wp_ret.
  - apply wp_bind. eapply wp_conseq; [apply Hbody; [left|done]| |done].
    intros acc' σ' _ HL'. apply IH; [done|].
    intros; apply Hbody; [by right|done].
Qed.

End Logic.

(** One step of symbolic execution of a method. *)
Ltac wp_simpl :=
  cbv beta;
  cbn [self heap trace scale tile_size tile_pad pre_pad mod_scale half backend outscale
       device net_g ort_session triton_client mod_pad_h mod_pad_w img output
       set_img set_output set_mod_scale set_mod_pad_h set_mod_pad_w] in *.

Ltac wp_step :=
  wp_simpl;
  lazymatch goal with
  | |- wp _ _ ?m _ _ _ =>
      lazymatch m with
      | bind _ _ => apply wp_bind
      | ret _ => apply wp_ret
      | raise _ => apply wp_raise; exact I
      | get_self => apply wp_get_self
      | lift _ => apply wp_lift; [intros ? ?|intros; exact I]
      | attr _ _ => apply wp_attr; [intros ? ?|exact I]
      | load _ => apply wp_load; intros ? ? ?
      | alloc _ => apply wp_alloc; intros ? ? ? ?
      | emit _ => apply wp_emit
      | print _ => apply wp_print
      | modify_self _ => apply wp_modify_self; [reflexivity|]
      | when _ _ => apply wp_when; intros ?
      | match ?b with _ => _ end => destruct b eqn:?
      end
  end.

Ltac wp_steps := repeat wp_step; wp_simpl.

(** ** Views keep their buffer *)

Lemma v_transpose_loc p h h' : v_transpose p h = inr h' → h_loc h' = h_loc h.
Proof. unfold v_transpose. case_decide; [|done]. by intros [= <-]. Qed.

Lemma v_slice_loc k a b h h' : v_slice k a b h = inr h' → h_loc h' = h_loc h.
Proof.
  unfold v_slice. destruct (h_shape h !! k); [|done].
  destruct (slice_bounds _ _ _). by intros [= <-].
Qed.

Lemma v_index_loc k c h h' : v_index k c h = inr h' → h_loc h' = h_loc h.
Proof.
  unfold v_index. destruct (h_shape h !! k); [|done].
  case_match; [|done]. by intros [= <-].
Qed.

Lemma slice_hw_loc y0 y1 x0 x1 h h' : slice_hw y0 y1 x0 x1 h = inr h' → h_loc h' = h_loc h.
Proof.
  unfold slice_hw. destruct (v_slice 2 y0 y1 h) as [|h1] eqn:H1; [done|]. simpl.
  intros H2. apply v_slice_loc in H1, H2. congruence.
Qed.

(** ** What the methods write to *)

Section Frame.
Variable h0 : store.
Variable i0 : instance.


Lemma fresh_loc h h' : h_loc h' = h_loc h → fresh h0 h → fresh h0 h'.
Proof. unfold fresh. by intros ->. Qed.

Lemma wp_to_dtype t h Q σ :
  (∀ h' hp, (fresh h0 h → fresh h0 h') → h_shape h' = h_shape h →
            Q h' (mk_state (self σ) hp (trace σ))) →
  wp h0 i0 (to_dtype t h) Q any_exn σ.
Proof.
  intros HQ. unfold to_dtype. wp_steps.
  - destruct σ. by apply HQ.
  - simpl in *. apply HQ; [done|congruence].
Qed.

Lemma wp_to_device from to h Q σ :
  (∀ h' hp, (fresh h0 h → fresh h0 h') → h_shape h' = h_shape h →
            Q h' (mk_state (self σ) hp (trace σ))) →
  wp h0 i0 (to_device from to h) Q any_exn σ.
Proof.
  intros HQ. unfold to_device. wp_steps.
  - destruct σ. by apply HQ.
  - simpl in *. apply HQ; [done|congruence].
Qed.

Lemma F_pad_reflect_pads : pads_hw (λ ph pw, F_pad_reflect pw ph).
Proof.
  intros ph pw a a' n c h w Hpad Hs. unfold F_pad_reflect in Hpad. rewrite Hs in Hpad.
  case_match; [|done]. by simplify_eq.
Qed.

Lemma np_pad_reflect_pads : pads_hw np_pad_reflect.
Proof.
  intros ph pw a a' n c h w Hpad Hs. unfold np_pad_reflect in Hpad. rewrite Hs in Hpad.
  repeat case_match; by simplify_eq.
Qed.

(** The remainder a pad is computed from. *)
Lemma mod_pad_amount (h m : Z) :
  0 < m →
  let ph := if bool_decide (h `mod` m ≠ 0) then m - h `mod` m else 0 in
  0 ≤ ph < m ∧ (h + ph) `mod` m = 0.
Proof.
  intros Hm ph. pose proof (Z.mod_pos_bound h m Hm) as Hb. subst ph.
  case_bool_decide as Hne.
  - split; [lia|].
    rewrite (Z.div_mod h m) at 1 by lia.
    replace (m * (h `div` m) + h `mod` m + (m - h `mod` m)) with ((h `div` m + 1) * m) by lia.
    by rewrite Z.mod_mul by lia.
  - split; [lia|]. rewrite Z.add_0_r. destruct (decide (h `mod` m = 0)); [done|]. by destruct Hne.
Qed.

Lemma wp_mod_pad pad t n c h w Q σ :
  pads_hw pad →
  img (self σ) = Some t →
  h_shape t = [n; c; h; w] →
  (∀ σ' t' mh mw,
     img (self σ') = Some t' →
     h_shape t' = [n; c; h + mh; w + mw] →
     (fresh h0 t → fresh h0 t') →
     mod_scale (self σ') = next_mod_scale (self σ) →
     padded_by (self σ') mh mw →
     (∀ m, next_mod_scale (self σ) = Some m → 0 < m →
        (0 ≤ mh < m ∧ (h + mh) `mod` m = 0) ∧ (0 ≤ mw < m ∧ (w + mw) `mod` m = 0)) →
     output (self σ') = output (self σ) →
     Q tt σ') →
  wp h0 i0 (mod_pad pad) Q any_exn σ.
Proof.
  intros Hpad Ht Hs HQ. unfold mod_pad.
  wp_steps; simplify_eq; rewrite ?Hs in *; simplify_eq.
  all: lazymatch goal with
  | Hp : _ ?ph ?pw ?a = inr ?a', Hh : h_shape ?h1 = shape ?a',
    Hs : h_shape _ = [_; _; ?h; ?w] |- _ =>
      apply (HQ _ h1 ph pw); wp_simpl;
      [ reflexivity
      | rewrite Hh; eapply Hpad; [exact Hp|congruence]
      | done
      | unfold next_mod_scale; repeat case_decide; congruence
      | unfold padded_by; wp_simpl;
        repeat (case_decide || case_match); simplify_eq; done
      | intros m Hm Hpos; unfold next_mod_scale in Hm;
        repeat case_decide; simplify_eq;
        lazymatch type of Hpos with
        | 0 < ?m' =>
            pose proof (mod_pad_amount h m' Hpos) as Hmh;
            pose proof (mod_pad_amount w m' Hpos) as Hmw
        end;
        cbv zeta in Hmh, Hmw;
        repeat case_bool_decide; try done; split; assumption
      | reflexivity ]
  | _ => idtac
  end.
  apply (HQ σ t 0 0); try done.
  - by rewrite !Z.add_0_r.
  - unfold next_mod_scale. by repeat case_decide.
  - unfold padded_by. by rewrite Heqo.
  - intros m Hm. unfold next_mod_scale in Hm. repeat case_decide; congruence.
Qed.


Lemma wp_pad_tail (pp : array → result array) pad (p : Z) t n c h w Q σ :
  (∀ a a', pp a = inr a' → shape a = [n; c; h; w] → shape a' = [n; c; h + p; w + p]) →
  pads_hw pad →
  img (self σ) = Some t →
  h_shape t = [n; c; h; w] →
  (∀ σ' t' mh mw,
     img (self σ') = Some t' →
     h_shape t' = [n; c; h + p + mh; w + p + mw] →
     (fresh h0 t → fresh h0 t') →
     mod_scale (self σ') = next_mod_scale (self σ) →
     padded_by (self σ') mh mw →
     (∀ m, next_mod_scale (self σ) = Some m → 0 < m →
        (0 ≤ mh < m ∧ (h + p + mh) `mod` m = 0) ∧
        (0 ≤ mw < m ∧ (w + p + mw) `mod` m = 0)) →
     output (self σ') = output (self σ) →
     Q tt σ') →
  wp h0 i0
    (when (bool_decide (p ≠ 0))
       (let* t := attr "img" img in
        let* a := load t in
        let* a' := lift (pp a) in
        let* t' := alloc a' in
        modify_self (set_img t'));;
     mod_pad pad) Q any_exn σ.
Proof.
  intros Hpp Hpad Ht Hs HQ.
  apply wp_bind, wp_when; intros Hp.
  - wp_steps. simplify_eq.
    eapply (wp_mod_pad pad _ n c (h + p) (w + p)); [done|reflexivity| |].
    + etrans; [eassumption|]. eapply Hpp; [eassumption|congruence].
    + intros σ' t' mh mw ? ? ? ? ? ? ?. eapply HQ; eauto.
  - apply bool_decide_eq_false in Hp. assert (p = 0) as -> by lia.
    eapply (wp_mod_pad pad _ n c h w); [done|done|done|].
    intros σ' t' mh mw ? ? ? ? ? ? ?. eapply HQ; eauto; by rewrite ?Z.add_0_r.
Qed.

Lemma v_transpose_201 x t :
  v_transpose [2; 0; 1]%nat x = inr t →
  ∃ hh ww cc, h_shape x = [hh; ww; cc] ∧ h_shape t = [cc; hh; ww] ∧ h_loc t = h_loc x.
Proof.
  unfold v_transpose. case_decide as Hlen; [|done]. intros [= <-].
  destruct (h_shape x) as [|hh [|ww [|cc [|]]]] eqn:Hs; try done.
  by exists hh, ww, cc.
Qed.

Lemma wp_pre_process x Q σ :
  (∀ σ' t' hh ww cc mh mw,
     h_shape x = [hh; ww; cc] →
     img (self σ') = Some t' →
     h_shape t' = [1; cc; hh + pre_pad (self σ) + mh; ww + pre_pad (self σ) + mw] →
     (fresh h0 x → fresh h0 t') →
     mod_scale (self σ') = next_mod_scale (self σ) →
     padded_by (self σ') mh mw →
     (∀ m, next_mod_scale (self σ) = Some m → 0 < m →
        (0 ≤ mh < m ∧ (hh + pre_pad (self σ) + mh) `mod` m = 0) ∧
        (0 ≤ mw < m ∧ (ww + pre_pad (self σ) + mw) `mod` m = 0)) →
     output (self σ') = output (self σ) →
     Q tt σ') →
  wp h0 i0 (pre_process x) Q any_exn σ.
Proof.
  intros HQ. unfold pre_process.
  apply wp_bind, wp_lift; [intros t Ht|done].
  destruct (v_transpose_201 _ _ Ht) as (hh & ww & cc & Hx & Hts & Htl).
  wp_step. apply wp_to_dtype. intros t1 hp1 Hf1 Hs1.
  wp_step. wp_step. wp_step. apply wp_to_device. intros t2 hp2 Hf2 Hs2.
  assert (h_shape t2 = [1; cc; hh; ww]) as Hs2'.
  { rewrite Hs2. simpl. by rewrite Hs1, Hts. }
  assert (fresh h0 x → fresh h0 t2) as Hf2'.
  { intros Hf. apply Hf2, (fresh_loc t1); [done|]. apply Hf1. by apply (fresh_loc x). }
  wp_step. wp_step. wp_step. wp_step. wp_step. wp_step.
  - (* half precision *)
    wp_step. wp_step. wp_step. apply wp_to_dtype. intros t3 hp3 Hf3 Hs3.
    wp_step. simplify_eq.
    eapply (wp_pad_tail (F_pad_reflect (pre_pad (self σ)) (pre_pad (self σ)))
              _ (pre_pad (self σ)) t3 1 cc hh ww);
      [by intros; eapply (F_pad_reflect_pads _ _ _ _ 1 cc hh ww)
      |apply F_pad_reflect_pads|reflexivity|congruence|].
    intros σ' t' mh mw ? ? Hf ? ? ? ?.
    unfold next_mod_scale in *. wp_simpl.
    eapply (HQ σ' t' hh ww cc mh mw); eauto.
  - eapply (wp_pad_tail (F_pad_reflect (pre_pad (self σ)) (pre_pad (self σ)))
              _ (pre_pad (self σ)) t2 1 cc hh ww);
      [by intros; eapply (F_pad_reflect_pads _ _ _ _ 1 cc hh ww)
      |apply F_pad_reflect_pads|reflexivity|congruence|].
    intros σ' t' mh mw ? ? Hf ? ? ? ?.
    unfold next_mod_scale in *. wp_simpl.
    eapply (HQ σ' t' hh ww cc mh mw); eauto.
Qed.

Lemma wp_infer n x Q X σ :
  (∀ o a r, n a = inr r → shape a = h_shape x → fresh h0 o → h_shape o = shape r →
     Q o (mk_state (self σ) (heap σ ++ [r]) (trace σ ++ [Inferred a]))) →
  (∀ e a, n a = inl e → X e (mk_state (self σ) (heap σ) (trace σ ++ [Inferred a]))) →
  wp h0 i0 (infer n x) Q X σ.
Proof.
  intros HQ HX. unfold infer.
  apply wp_bind, wp_load. intros a Ha _.
  apply wp_bind, wp_emit. wp_simpl.
  apply wp_bind, wp_lift; [intros r Hr|intros e He; by apply HX].
  apply wp_alloc. intros o Hf Hs _. wp_simpl. by eapply HQ.
Qed.

Lemma wp_process Q σ :
  (∀ o hp tr, fresh h0 o → Q tt (mk_state (set_output o (self σ)) hp tr)) →
  wp h0 i0 process Q any_exn σ.
Proof.
  intros HQ. unfold process.
  wp_step. wp_step.
  repeat case_decide.
  all: wp_steps; try exact I.
  all: apply wp_infer; [intros o ? ? _ _ Hf _|intros; exact I]; wp_steps; by apply HQ.
Qed.

Lemma wp_setitem mismatch dst src Q σ :
  fresh h0 dst →
  (∀ hp, Q tt (mk_state (self σ) hp (trace σ))) →
  wp h0 i0 (setitem mismatch dst src) Q any_exn σ.
Proof.
  intros Hf HQ. unfold setitem. wp_steps.
  by apply wp_poke_with.
Qed.

Lemma wp_tile_put t total ot Q σ :
  output_fresh h0 σ →
  (∀ hp tr, Q ot (mk_state (self σ) hp tr)) →
  wp h0 i0 (tile_put t total ot) Q any_exn σ.
Proof.
  intros Hout HQ. unfold tile_put. wp_steps; try exact I.
  apply wp_setitem.
  - eapply fresh_loc; [by eapply slice_hw_loc|]. by apply Hout.
  - intros hp. wp_steps. apply HQ.
Qed.

Lemma wp_tile_body t total acc Q σ :
  output_fresh h0 σ →
  (∀ ot hp tr, Q ot (mk_state (self σ) hp tr)) →
  wp h0 i0 (tile_body t total acc) Q any_exn σ.
Proof.
  intros Hout HQ. unfold tile_body.
  wp_step. wp_step. wp_step. wp_step. wp_step.
  apply wp_try_except_RuntimeError.
  wp_step. wp_step. wp_step.
  apply wp_infer.
  - intros o ? ? _ _ _ _. wp_step.
    apply (wp_tile_put t total (Some o)); [done|]. intros; apply HQ.
  - intros e ? _. destruct (is_RuntimeError e); [|exact I].
    wp_step. wp_step. wp_step.
    apply (wp_tile_put t total acc); [done|]. intros; apply HQ.
Qed.

Lemma wp_tile_loop s width height o Q σ :
  fresh h0 o →
  self σ = set_output o s →
  (∀ acc hp tr, Q acc (mk_state (set_output o s) hp tr)) →
  wp h0 i0 (tile_loop s width height) Q any_exn σ.
Proof.
  intros Hf Hself HQ. unfold tile_loop.
  eapply wp_conseq with (Q := λ _ σ', self σ' = set_output o s) (X := any_exn);
    [| |done].
  - apply wp_for_each; [done|]. intros y acc1 σ1 _ Hs1.
    apply wp_for_each; [done|]. intros x acc2 σ2 _ Hs2.
    apply wp_tile_body.
    + intros o'. rewrite Hs2. simpl. by intros [= <-].
    + by intros.
  - intros acc [i hp tr] _ Hs. simpl in Hs. subst i. apply HQ.
Qed.

Lemma wp_tile_process Q σ :
  (∀ o hp tr, fresh h0 o → Q tt (mk_state (set_output o (self σ)) hp tr)) →
  wp h0 i0 tile_process Q any_exn σ.
Proof.
  intros HQ. unfold tile_process.
  wp_step. wp_step. destruct (_ || _); [by apply wp_raise|].
  wp_steps.
  match goal with Hf : fresh h0 ?h |- _ =>
    eapply (wp_tile_loop _ _ _ h); [exact Hf|reflexivity|]
  end.
  intros acc hp tr. wp_steps. by apply HQ.
Qed.

Lemma wp_crop_output ph pw Q σ :
  output_fresh h0 σ →
  (∀ σ', output_fresh h0 σ' → Q tt σ') →
  wp h0 i0 (crop_output ph pw) Q any_exn σ.
Proof.
  intros Hout HQ. unfold crop_output. wp_steps.
  apply HQ. intros o. simpl. intros [= <-].
  repeat match goal with
         | H : v_slice _ _ _ _ = inr _ |- _ => apply v_slice_loc in H
         end.
  eapply fresh_loc; [|by apply Hout]. congruence.
Qed.

Lemma wp_post_process Q σ :
  output_fresh h0 σ →
  (∀ o σ', fresh h0 o → Q o σ') →
  wp h0 i0 post_process Q any_exn σ.
Proof.
  intros Hout HQ. unfold post_process.
  wp_step. wp_step. wp_step.
  eapply wp_conseq with (Q := λ _ σ', output_fresh h0 σ') (X := any_exn).
  - apply wp_when; [intros _|done]. wp_steps.
    apply wp_crop_output; [done|]. by intros.
  - intros _ σ1 _ Hout1. wp_simpl. wp_step.
    eapply wp_conseq with (Q := λ _ σ', output_fresh h0 σ') (X := any_exn).
    + apply wp_when; [intros _|done]. apply wp_crop_output; [done|]. by intros.
    + intros _ σ2 _ Hout2. wp_simpl. wp_steps. apply HQ. by apply Hout2.
    + done.
  - done.
Qed.

Lemma wp_pre_process_numpy x Q σ :
  (∀ σ' t' hh ww cc mh mw,
     h_shape x = [hh; ww; cc] →
     img (self σ') = Some t' →
     h_shape t' = [1; cc; hh + pre_pad (self σ) + mh; ww + pre_pad (self σ) + mw] →
     (fresh h0 x → fresh h0 t') →
     mod_scale (self σ') = next_mod_scale (self σ) →
     padded_by (self σ') mh mw →
     (∀ m, next_mod_scale (self σ) = Some m → 0 < m →
        (0 ≤ mh < m ∧ (hh + pre_pad (self σ) + mh) `mod` m = 0) ∧
        (0 ≤ mw < m ∧ (ww + pre_pad (self σ) + mw) `mod` m = 0)) →
     output (self σ') = output (self σ) →
     Q tt σ') →
  wp h0 i0 (pre_process_numpy x) Q any_exn σ.
Proof.
  intros HQ. unfold pre_process_numpy.
  apply wp_bind, wp_lift; [intros t Ht|done].
  destruct (v_transpose_201 _ _ Ht) as (hh & ww & cc & Hx & Hts & Htl).
  wp_step. wp_step. wp_step.
  eapply wp_conseq
    with (Q := λ t2 σ', self σ' = self σ ∧ h_shape t2 = [1; cc; hh; ww] ∧
                        (fresh h0 x → fresh h0 t2)) (X := any_exn); [| |done].
  - destruct (half (self σ)); wp_steps.
    + split; [done|]. split; [simpl in *; congruence|done].
    + split; [done|]. split; [simpl; by rewrite Hts|].
      intros Hf. by apply (fresh_loc x).
  - intros t2 [i hp tr] _ (Hself & Hs2 & Hf2). simpl in Hself. subst i.
    wp_step. wp_step.
    eapply (wp_pad_tail (np_pad_reflect (pre_pad (self σ)) (pre_pad (self σ)))
              _ (pre_pad (self σ)) t2 1 cc hh ww);
      [by intros; eapply (np_pad_reflect_pads _ _ _ _ 1 cc hh ww)
      |apply np_pad_reflect_pads|reflexivity|done|].
    intros σ' t' mh mw ? ? Hf ? ? ? ?.
    unfold next_mod_scale in *. wp_simpl.
    eapply (HQ σ' t' hh ww cc mh mw); eauto.
Qed.

End Frame.

(** ** Padding and cropping *)

Lemma add_at_0 k (i : list Z) : add_at k 0 i = i.
Proof.
  unfold add_at, nth_Z. rewrite Z.add_0_r.
  destruct (decide (k < length i)%nat) as [Hlt|Hge].
  - destruct (lookup_lt_is_Some_2 i k Hlt) as [x Hx].
    rewrite (nth_lookup_Some _ _ 0 _ Hx). by apply list_insert_id.
  - apply list_insert_ge. lia.
Qed.

Lemma slice_bounds_prefix n stop : 0 ≤ stop ≤ n → slice_bounds n 0 stop = (0, stop).
Proof.
  intros Hs. unfold slice_bounds, slice_norm. simpl.
  destruct (stop <? 0) eqn:H1; [lia|]. rewrite H1.
  destruct (n <? 0) eqn:H2; [lia|].
  destruct (n <? stop) eqn:H3; [lia|].
  f_equal. lia.
Qed.

(** A slice [0:stop] within bounds keeps the buffer and the origin. *)
Lemma v_slice_prefix k n stop h :
  h_shape h !! k = Some n → 0 ≤ stop ≤ n →
  ∃ h', v_slice k 0 stop h = inr h' ∧
        h_shape h' = <[k := stop]> (h_shape h) ∧
        h_loc h' = h_loc h ∧
        ∀ i, h_map h' i = h_map h i.
Proof.
  intros Hk Hs. unfold v_slice. rewrite Hk, slice_bounds_prefix by done.
  eexists. split; [done|]. simpl. split; [done|]. split; [done|].
  intros i. by rewrite add_at_0.
Qed.

(** Equations for running a method step by step. *)
Lemma run_get_self {B} (k : instance → M B) σ : bind get_self k σ = k (self σ) σ.
Proof. done. Qed.

Lemma run_attr {A B} name (f : instance → option A) (k : A → M B) a σ :
  f (self σ) = Some a → bind (attr name f) k σ = k a σ.
Proof. intros Hf. unfold attr, bind, get_self. simpl. by rewrite Hf. Qed.

Lemma run_attr_ret {A} name (f : instance → option A) a σ :
  f (self σ) = Some a → attr name f σ = (inr a, σ).
Proof. intros Hf. unfold attr, bind, get_self. simpl. by rewrite Hf. Qed.

Lemma run_attr_None {A B} name (f : instance → option A) (k : A → M B) σ :
  f (self σ) = None → bind (attr name f) k σ = (inl (AttributeError name), σ).
Proof. intros Hf. unfold attr, bind, get_self. simpl. by rewrite Hf. Qed.

Lemma run_lift {A B} (r : result A) (k : A → M B) a σ :
  r = inr a → bind (lift r) k σ = k a σ.
Proof. by intros ->. Qed.

Lemma run_lift_exn {A B} (r : result A) (k : A → M B) e σ :
  r = inl e → bind (lift r) k σ = (inl e, σ).
Proof. by intros ->. Qed.

Lemma run_modify_self {B} f (k : unit → M B) σ :
  bind (modify_self f) k σ = k tt (mk_state (f (self σ)) (heap σ) (trace σ)).
Proof. done. Qed.

Lemma run_when_true {B} b m (k : unit → M B) σ :
  b = true → bind (when b m) k σ = bind m k σ.
Proof. by intros ->. Qed.

Lemma run_when_false {B} b m (k : unit → M B) σ :
  b = false → bind (when b m) k σ = k tt σ.
Proof. by intros ->. Qed.

Lemma run_bind {A B} (m : M A) (k : A → M B) a σ σ' :
  m σ = (inr a, σ') → bind m k σ = k a σ'.
Proof. intros Hm. unfold bind. by rewrite Hm. Qed.

Lemma run_bind_exn {A B} (m : M A) (k : A → M B) e σ σ' :
  m σ = (inl e, σ') → bind m k σ = (inl e, σ').
Proof. intros Hm. unfold bind. by rewrite Hm. Qed.

Lemma crop_output_run ph pw σ o n c H W :
  output (self σ) = Some o →
  h_shape o = [n; c; H; W] →
  0 ≤ H - ph * scale (self σ) ≤ H →
  0 ≤ W - pw * scale (self σ) ≤ W →
  ∃ o', crop_output ph pw σ
        = (inr tt, mk_state (set_output o' (self σ)) (heap σ) (trace σ)) ∧
        h_shape o' = [n; c; H - ph * scale (self σ); W - pw * scale (self σ)] ∧
        h_loc o' = h_loc o ∧
        ∀ i, h_map o' i = h_map o i.
Proof.
  intros Ho Hs HH HW.
  destruct (v_slice_prefix 2 H (H - ph * scale (self σ)) o)
    as (o1 & Ho1 & Hs1 & Hl1 & Hm1); [by rewrite Hs|done|].
  destruct (v_slice_prefix 3 W (W - pw * scale (self σ)) o1)
    as (o2 & Ho2 & Hs2 & Hl2 & Hm2); [by rewrite Hs1, Hs|done|].
  exists o2. split; [|split; [|split]].
  - unfold crop_output. rewrite (run_attr _ _ _ o), run_get_self, Hs by done.
    rewrite (run_lift _ _ o1), (run_lift _ _ o2) by done. done.
  - by rewrite Hs2, Hs1, Hs.
  - congruence.
  - intros i. by rewrite Hm2, Hm1.
Qed.

(** [post_process] on an output that is large enough: both crops keep
    the buffer and the top-left origin. *)
Lemma post_process_run σ o n c H W mh mw :
  output (self σ) = Some o →
  h_shape o = [n; c; H; W] →
  padded_by (self σ) mh mw →
  0 ≤ mh * scale (self σ) → 0 ≤ mw * scale (self σ) →
  0 ≤ pre_pad (self σ) * scale (self σ) →
  mh * scale (self σ) + pre_pad (self σ) * scale (self σ) ≤ H →
  mw * scale (self σ) + pre_pad (self σ) * scale (self σ) ≤ W →
  ∃ o' i', post_process σ = (inr o', mk_state i' (heap σ) (trace σ)) ∧
    output i' = Some o' ∧
    settings i' = settings (self σ) ∧
    h_shape o' = [n; c; H - mh * scale (self σ) - pre_pad (self σ) * scale (self σ);
                  W - mw * scale (self σ) - pre_pad (self σ) * scale (self σ)] ∧
    h_loc o' = h_loc o ∧
    ∀ i, h_map o' i = h_map o i.
Proof.
  intros Ho Hs Hpad Hmh Hmw Hp HH HW.
  (* remove extra pad *)
  assert (∃ o1 i1,
    when (bool_decide (mod_scale (self σ) ≠ None))
      (let* o := attr "output" output in
       match h_shape o with
       | [_; _; _; _] =>
           let* ph := attr "mod_pad_h" mod_pad_h in
           let* pw := attr "mod_pad_w" mod_pad_w in
           crop_output ph pw
       | _ => raise ValueError
       end) σ = (inr tt, mk_state i1 (heap σ) (trace σ)) ∧
    output i1 = Some o1 ∧ settings i1 = settings (self σ) ∧
    scale i1 = scale (self σ) ∧ pre_pad i1 = pre_pad (self σ) ∧
    h_shape o1 = [n; c; H - mh * scale (self σ); W - mw * scale (self σ)] ∧
    h_loc o1 = h_loc o ∧ ∀ i, h_map o1 i = h_map o i)
    as (o1 & i1 & Hrun1 & Ho1 & Hset1 & Hsc1 & Hpp1 & Hs1 & Hl1 & Hm1).
  { unfold padded_by in Hpad. destruct (mod_scale (self σ)) as [m|] eqn:Hm.
    - destruct Hpad as [Hph Hpw].
      destruct (crop_output_run mh mw σ o n c H W Ho Hs) as (o1 & Hrun & Hs1 & Hl1 & Hm1);
        [lia|lia|].
      exists o1, (set_output o1 (self σ)). split_and!; try done.
      rewrite bool_decide_eq_true_2 by done. simpl.
      rewrite (run_attr _ _ _ o), Hs by done.
      rewrite (run_attr _ _ _ mh), (run_attr _ _ _ mw) by done. exact Hrun.
    - destruct Hpad as [-> ->]. exists o, (self σ).
      rewrite bool_decide_eq_false_2 by (by intros []).
      split_and!; try done; [by destruct σ|].
      rewrite Hs. f_equal. f_equal. f_equal; [lia|f_equal; lia]. }
  (* remove prepad *)
  set (σ1 := mk_state i1 (heap σ) (trace σ)) in *.
  assert (∃ o2 i2,
    when (bool_decide (pre_pad (self σ) ≠ 0))
      (crop_output (pre_pad (self σ)) (pre_pad (self σ))) σ1
    = (inr tt, mk_state i2 (heap σ) (trace σ)) ∧
    output i2 = Some o2 ∧ settings i2 = settings (self σ) ∧
    h_shape o2 = [n; c; H - mh * scale (self σ) - pre_pad (self σ) * scale (self σ);
                  W - mw * scale (self σ) - pre_pad (self σ) * scale (self σ)] ∧
    h_loc o2 = h_loc o ∧ ∀ i, h_map o2 i = h_map o i)
    as (o2 & i2 & Hrun2 & Ho2 & Hset2 & Hs2 & Hl2 & Hm2).
  { destruct (decide (pre_pad (self σ) = 0)) as [Hz|Hnz].
    - exists o1, i1. rewrite bool_decide_eq_false_2 by (by intros []).
      split_and!; try done.
      rewrite Hs1, Hz. f_equal. f_equal. f_equal; [lia|f_equal; lia].
    - destruct (crop_output_run (pre_pad (self σ)) (pre_pad (self σ)) σ1 o1 n c _ _ Ho1 Hs1)
        as (o2 & Hrun & Hs2 & Hl2 & Hm2); simpl; rewrite ?Hsc1; [lia|lia|].
      exists o2, (set_output o2 i1). rewrite bool_decide_eq_true_2 by done.
      split_and!; try done; [|congruence|by intros; rewrite Hm2, Hm1].
      simpl in Hs2. by rewrite Hsc1 in Hs2. }
  exists o2, i2. split; [|done].
  unfold post_process. rewrite run_get_self.
  rewrite (run_bind _ _ _ _ _ Hrun1), (run_bind _ _ _ _ _ Hrun2).
  by apply run_attr_ret.
Qed.

(** From the program logic back to runs. *)
Lemma inv_refl σ : inv (heap σ) (self σ) σ.
Proof. done. Qed.

Lemma wp_run h0 i0 {A} (m : M A) Q X σ a σ' :
  wp h0 i0 m Q X σ → inv h0 i0 σ → m σ = (inr a, σ') → Q a σ' ∧ inv h0 i0 σ'.
Proof. intros Hwp Hinv Hrun. destruct (Hwp Hinv) as [Hinv' HQ]. by rewrite Hrun in *. Qed.

Lemma wp_run_exn h0 i0 {A} (m : M A) Q X σ e σ' :
  wp h0 i0 m Q X σ → inv h0 i0 σ → m σ = (inl e, σ') → X e σ' ∧ inv h0 i0 σ'.
Proof. intros Hwp Hinv Hrun. destruct (Hwp Hinv) as [Hinv' HQ]. by rewrite Hrun in *. Qed.

Lemma settings_fields i j :
  settings i = settings j →
  scale i = scale j ∧ tile_size i = tile_size j ∧ tile_pad i = tile_pad j ∧
  pre_pad i = pre_pad j ∧ half i = half j ∧ backend i = backend j ∧
  outscale i = outscale j ∧ device i = device j ∧ net_g i = net_g j ∧
  ort_session i = ort_session j ∧ triton_client i = triton_client j.
Proof. unfold settings. intros [= ? ? ? ? ? ? ? ? ? ? ?]. by split_and!. Qed.

(** C2.  Padding round trip.  Let [pre_process] (or [pre_process_numpy])
    return on an image of [hh] rows and [ww] columns, for an instance
    of scale [s >= 1] and pre-pad [p >= 0] whose alignment divisor, if
    it was set by an earlier call, is positive.  Then [self.img] has
    [hh + p + mh] rows and [ww + p + mw] columns for some alignment pad
    [mh, mw >= 0]; and whenever [self.output] is then assigned a tensor
    of [s] times that size, [post_process] returns a view of that
    tensor's buffer with [hh * s] rows and [ww * s] columns that starts
    at the same top-left sample: what was padded at the bottom and the
    right is cut off there, and nothing is copied. *)
Theorem padding_round_trip (numpy : bool) (x : handle) (σ σ1 : state) (hh ww cc : Z) :
  h_shape x = [hh; ww; cc] →
  0 ≤ hh → 0 ≤ ww →
  1 ≤ scale (self σ) → 0 ≤ pre_pad (self σ) →
  (∀ m, mod_scale (self σ) = Some m → 0 < m) →
  (if numpy then pre_process_numpy x else pre_process x) σ = (inr tt, σ1) →
  let s := scale (self σ) in
  let p := pre_pad (self σ) in
  ∃ t mh mw,
    img (self σ1) = Some t ∧
    h_shape t = [1; cc; hh + p + mh; ww + p + mw] ∧
    0 ≤ mh ∧ 0 ≤ mw ∧
    ∀ σ2 o n c,
      self σ2 = set_output o (self σ1) →
      h_shape o = [n; c; (hh + p + mh) * s; (ww + p + mw) * s] →
      ∃ o' σ3,
        post_process σ2 = (inr o', σ3) ∧
        heap σ3 = heap σ2 ∧
        h_shape o' = [n; c; hh * s; ww * s] ∧
        h_loc o' = h_loc o ∧
        ∀ i, h_map o' i = h_map o i.
Proof.
  intros Hx Hhh Hww Hs Hp Hm Hrun s p.
  set (Q := λ (_ : unit) σ',
    ∃ t mh mw, img (self σ') = Some t ∧
      h_shape t = [1; cc; hh + p + mh; ww + p + mw] ∧
      padded_by (self σ') mh mw ∧ 0 ≤ mh ∧ 0 ≤ mw).
  assert (Q tt σ1 ∧ inv (heap σ) (self σ) σ1)
    as [(t & mh & mw & Ht & Hts & Hpad & Hmh & Hmw) [_ Hset]].
  { eapply wp_run; [|apply inv_refl|exact Hrun].
    assert (∀ σ' t' hh' ww' cc' mh mw,
      h_shape x = [hh'; ww'; cc'] → img (self σ') = Some t' →
      h_shape t' = [1; cc'; hh' + p + mh; ww' + p + mw] →
      mod_scale (self σ') = next_mod_scale (self σ) →
      padded_by (self σ') mh mw →
      (∀ m, next_mod_scale (self σ) = Some m → 0 < m →
         (0 ≤ mh < m ∧ (hh' + p + mh) `mod` m = 0) ∧
         (0 ≤ mw < m ∧ (ww' + p + mw) `mod` m = 0)) →
      Q tt σ') as HQ.
    { intros σ' t' hh' ww' cc' mh mw Hx' Ht' Hs' Hms Hpad Hmod.
      rewrite Hx in Hx'. simplify_eq. exists t', mh, mw. split_and!; try done.
      all: unfold padded_by in Hpad; rewrite Hms in Hpad.
      all: destruct (next_mod_scale (self σ)) as [m|] eqn:Hn; [|lia].
      all: assert (0 < m) as Hpos
        by (unfold next_mod_scale in Hn; repeat case_decide; simplify_eq; auto with lia).
      all: destruct (Hmod m eq_refl Hpos); lia. }
    destruct numpy.
    - apply wp_pre_process_numpy. intros. eapply HQ; eauto.
    - apply wp_pre_process. intros. eapply HQ; eauto. }
  exists t, mh, mw. split_and!; try done.
  intros σ2 o n c Hself Ho.
  apply settings_fields in Hset as (Hsc & _ & _ & Hpp & _).
  assert (scale (self σ2) = s) as Hsc2 by (rewrite Hself; exact Hsc).
  assert (pre_pad (self σ2) = p) as Hpp2 by (rewrite Hself; exact Hpp).
  destruct (post_process_run σ2 o n c ((hh + p + mh) * s) ((ww + p + mw) * s) mh mw)
    as (o' & i' & Hpost & _ & _ & Hs' & Hl' & Hm'); rewrite ?Hsc2, ?Hpp2; try nia.
  - by rewrite Hself.
  - done.
  - by rewrite Hself.
  - exists o', (mk_state i' (heap σ2) (trace σ2)). split_and!; try done.
    rewrite Hs'. f_equal. f_equal. f_equal; [lia|f_equal; lia].
Qed.

Lemma padding_round_trip_witness :
  let σ := Sample.state_with (Sample.upsampler 2 0 10 1 None (Sample.nn_up 2))
             [Sample.ramp 2 3 1] in
  let x := whole 0 [2; 3; 1] in
  ∃ σ1, pre_process x σ = (inr tt, σ1) ∧
    ∃ t mh mw,
      img (self σ1) = Some t ∧
      h_shape t = [1; 1; 2 + 1 + mh; 3 + 1 + mw] ∧
      0 ≤ mh ∧ 0 ≤ mw ∧
      ∀ σ2 o n c,
        self σ2 = set_output o (self σ1) →
        h_shape o = [n; c; (2 + 1 + mh) * 2; (3 + 1 + mw) * 2] →
        ∃ o' σ3,
          post_process σ2 = (inr o', σ3) ∧
          heap σ3 = heap σ2 ∧
          h_shape o' = [n; c; 2 * 2; 3 * 2] ∧
          h_loc o' = h_loc o ∧
          ∀ i, h_map o' i = h_map o i.
Proof.
  intros σ x.
  destruct (pre_process x σ) as [[e|[]] σ1] eqn:Hrun.
  - exfalso. vm_compute in Hrun. discriminate Hrun.
  - exists σ1. split; [reflexivity|].
    apply (padding_round_trip false x σ σ1 2 3 1); simpl; try lia; try done.
Defined.

(** ** The pipeline of [enhance] *)

Section EnhanceLogic.
Context `{E : Externals}.
Variable h0 : store.
Variable i0 : instance.

Lemma wp_cvt h code Q σ :
  (∀ h' a hp, fresh h0 h' → h_shape h' = shape a →
     (∃ b, cvtColor b code = inr a ∧ shape b = h_shape h) →
     Q h' (mk_state (self σ) hp (trace σ))) →
  wp h0 i0 (cvt h code) Q any_exn σ.
Proof.
  intros HQ. unfold cvt. wp_steps. eapply HQ; eauto.
Qed.

Lemma wp_pre_process_for_backend x Q σ :
  (∀ σ', output (self σ') = output (self σ) → Q tt σ') →
  wp h0 i0 (pre_process_for_backend x) Q any_exn σ.
Proof.
  intros HQ. unfold pre_process_for_backend. wp_step. wp_step.
  repeat case_decide; try (by apply wp_raise).
  all: first [apply wp_pre_process|apply wp_pre_process_numpy]; intros; by apply HQ.
Qed.

Lemma fresh_v_squeeze o : fresh h0 o → fresh h0 (v_squeeze o).
Proof. done. Qed.

Lemma wp_clamp_torch o Q σ :
  fresh h0 o →
  (∀ o' hp, fresh h0 o' → Q o' (mk_state (self σ) hp (trace σ))) →
  wp h0 i0 (clamp_torch o) Q any_exn σ.
Proof.
  intros Hf HQ. unfold clamp_torch.
  wp_step. apply wp_to_dtype. intros o1 hp1 Hf1 _.
  wp_step. wp_step. wp_step. apply wp_to_device. intros o2 hp2 Hf2 _.
  wp_step. wp_step. wp_step.
  apply wp_poke_with; [by apply Hf2, Hf1, fresh_v_squeeze|].
  wp_steps. by apply HQ, Hf2, Hf1, fresh_v_squeeze.
Qed.

Lemma wp_clip_numpy o Q σ :
  (∀ o' hp, fresh h0 o' → Q o' (mk_state (self σ) hp (trace σ))) →
  wp h0 i0 (clip_numpy o) Q any_exn σ.
Proof. intros HQ. unfold clip_numpy. wp_steps. by apply HQ. Qed.

Lemma wp_clamp_for_backend o Q σ :
  fresh h0 o →
  (∀ o' hp, fresh h0 o' → Q o' (mk_state (self σ) hp (trace σ))) →
  wp h0 i0 (clamp_for_backend o) Q any_exn σ.
Proof.
  intros Hf HQ. unfold clamp_for_backend. wp_step. wp_step.
  repeat case_decide; try (by apply wp_raise).
  all: first [by apply wp_clamp_torch|by apply wp_clip_numpy].
Qed.

Lemma wp_to_bgr_hwc o Q σ :
  (∀ o' hp, fresh h0 o' → Q o' (mk_state (self σ) hp (trace σ))) →
  wp h0 i0 (to_bgr_hwc o) Q any_exn σ.
Proof.
  intros HQ. unfold to_bgr_hwc. wp_steps. apply HQ.
  eapply fresh_loc; [by eapply v_transpose_loc|done].
Qed.

Lemma wp_upsample x Q σ :
  (∀ o σ', fresh h0 o → Q o σ') →
  wp h0 i0 (upsample x) Q any_exn σ.
Proof.
  intros HQ. unfold upsample.
  apply wp_bind, wp_pre_process_for_backend. intros σ1 _.
  wp_step. wp_step. wp_step.
  eapply wp_conseq with (Q := λ _ σ', output_fresh h0 σ') (X := any_exn); [| |done].
  { destruct (0 <? tile_size (self σ1)); [apply wp_tile_process|apply wp_process].
    all: intros o hp tr Hf o'; simpl; by intros [= <-]. }
  intros _ σ2 _ Hout. wp_simpl.
  apply wp_bind, wp_post_process; [done|]. intros o σ3 Hf.
  apply wp_bind, wp_clamp_for_backend; [done|]. intros o' hp Hf'.
  apply wp_to_bgr_hwc. intros o'' hp' Hf''. by apply HQ.
Qed.

Lemma wp_shape_0_2 h Q σ :
  (∀ hh ww rest, h_shape h = hh :: ww :: rest → Q (hh, ww) σ) →
  wp h0 i0 (shape_0_2 h) Q any_exn σ.
Proof.
  intros HQ. unfold shape_0_2.
  destruct (h_shape h) as [|hh [|ww rest]] eqn:Hs; try (by apply wp_raise).
  apply wp_ret. by eapply HQ.
Qed.

Lemma wp_quantize m t o Q X σ :
  (∀ o' r hp, fresh h0 o' → h_shape o' = h_shape o → shape r = h_shape o →
     deref hp o' = Some (astype t r) →
     Q o' (mk_state (self σ) hp (trace σ))) →
  wp h0 i0 (quantize m t o) Q X σ.
Proof.
  intros HQ. unfold quantize. 
  apply wp_bind, wp_load. intros a1 Ha1 _.
  apply wp_bind, wp_alloc. intros o1 _ Ho1 _.
  apply wp_bind, wp_load. intros a2 Ha2 _.
  apply wp_bind, wp_alloc. intros o2 _ Ho2 _.
  apply wp_bind, wp_load. intros a3 Ha3 _.
  apply wp_alloc. intros o3 Hf Ho3 Hd. wp_simpl.
  apply (HQ o3 a3); try done; simpl in *; congruence.
Qed.


Lemma astype_integral t a : t = UInt8 ∨ t = UInt16 → integral t (astype t a).
Proof.
  intros [-> | ->] i; simpl; eexists; (split; [reflexivity|]); simpl.
  - apply Z.mod_pos_bound. lia.
  - apply Z.mod_pos_bound. lia.
Qed.

Lemma cv2_resize_integral a dw dh interp r :
  a_dtype a = UInt8 ∨ a_dtype a = UInt16 →
  cv2_resize a dw dh interp = inr r →
  a_dtype r = a_dtype a ∧ integral (a_dtype a) r ∧ ∃ rest, shape r = dh :: dw :: rest.
Proof.
  intros Ht. unfold cv2_resize. destruct (as_image a) as [[[[h w] c] px]|]; [|done].
  case_match; [done|]. intros [= <-]. simpl. split; [done|]. split.
  - intros i. simpl. destruct Ht as [-> | ->]; simpl; eexists; (split; [reflexivity|]); simpl; lia.
  - case_decide; eauto.
Qed.

Lemma cvtColor_BGR2RGB_shape b a :
  cvtColor b COLOR_BGR2RGB = inr a → ∃ h w c, shape b = [h; w; c] ∧ (c = 3 ∨ c = 4).
Proof.
  unfold cvtColor, as_image.
  destruct (shape b) as [|h [|w [|c [|]]]] eqn:Hs; try done.
  - case_match; [done|]. by case_decide as Hc; [destruct Hc|].
  - case_match; [done|]. case_decide; [|done]. eauto.
Qed.

Lemma v_slice_shape k start stop h h' :
  v_slice k start stop h = inr h' → length (h_shape h') = length (h_shape h).
Proof.
  unfold v_slice. destruct (h_shape h !! k); [|done].
  destruct (slice_bounds _ _ _). intros [= <-]. simpl. by rewrite length_insert.
Qed.

Lemma wp_enhance x au Q σ :
  (∀ o r σ' hh ww rest a mx,
     h_shape x = hh :: ww :: rest →
     rest = [] ∨ rest = [3] ∨ rest = [4] →
     (∀ b, deref (heap σ) x = Some b → a = b) →
     np_max a = inr mx →
     fresh h0 o →
     deref (heap σ') o = Some r →
     h_shape o = shape r →
     a_dtype r = (if Qlt_le_dec 256 mx then UInt16 else UInt8) →
     integral (a_dtype r) r →
     (∀ os, outscale (self σ') = Some os →
        Qeq_bool os (inject_Z (scale (self σ'))) = false →
        ∃ rest', shape r = py_int (inject_Z hh * os) :: py_int (inject_Z ww * os) :: rest') →
     Q (o, img_mode_of (h_shape x)) σ') →
  wp h0 i0 (enhance x au) Q any_exn σ.
Proof.
  intros HQ. unfold enhance.
  apply wp_bind, wp_shape_0_2. intros h_input w_input rest Hx. wp_simpl.
  apply wp_bind, wp_load. intros a Ha Hda.
  apply wp_bind, wp_alloc. intros im _ Him Hdim.
  apply wp_bind, wp_load. intros a' _ Hda'. wp_simpl.
  specialize (Hda' _ Hdim). subst a'.
  apply wp_bind, wp_lift; [intros mx Hmx|intros; exact I].
  change (np_max (astype Float32 a)) with (np_max a) in Hmx.
  apply wp_bind.
  eapply wp_conseq with
    (Q := λ max_range σ', self σ' = self σ ∧ heap σ' = heap σ ++ [astype Float32 a] ∧
            max_range = if Qlt_le_dec 256 mx then 65535 else 255)
    (X := any_exn); [| |done].
  { destruct (Qlt_le_dec 256 mx); wp_steps; done. }
  intros max_range [i1 hp1 tr1] _ (Hself & Hheap & Hmr). simpl in Hself, Hheap. subst i1 hp1.
  apply wp_bind, wp_alloc. intros im2 _ Him2 _. wp_simpl.
  simpl in Him2. rewrite Ha in Him2.
  apply wp_bind.
  eapply wp_conseq with
    (Q := λ (r : string * handle * option handle) σ',
            r.1.1 = img_mode_of (h_shape x) ∧ (rest = [] ∨ rest = [3] ∨ rest = [4]))
    (X := any_exn); [| |done].
  { unfold img_mode_of. rewrite Him2.
    case_decide as Hlen.
    - apply wp_bind, wp_cvt. intros. apply wp_ret. split; [done|]. left.
      rewrite Hx in Hlen. by destruct rest.
    - apply wp_bind, wp_lift; [intros c Hc|intros; exact I].
      unfold subscript in Hc. destruct (h_shape x !! 2%nat) as [c'|] eqn:Hc'; [|done].
      simplify_eq.
      case_decide as Hc4.
      + subst c. rewrite decide_True by done.
        apply wp_bind, wp_lift; [intros alpha0 _|intros; exact I].
        apply wp_bind, wp_lift; [intros im0 Him0|intros; exact I].
        apply wp_bind, wp_cvt. intros im1 a1 ? _ _ (b & Hb & Hbs).
        apply wp_bind.
        eapply wp_conseq with (Q := λ _ _, True) (X := any_exn); [| |done].
        { case_decide; [apply wp_cvt; done|by apply wp_ret]. }
        intros. apply wp_ret. split; [done|]. right; right.
        apply cvtColor_BGR2RGB_shape in Hb as (? & ? & ? & Hb & _).
        apply v_slice_shape in Him0. rewrite <- Hbs, Hb, Him2, Hx in Him0.
        rewrite Hx in Hc'. destruct rest as [|? [|]]; simpl in *; by simplify_eq.
      + rewrite decide_False by congruence.
        apply wp_bind, wp_cvt. intros im1 a1 ? _ _ (b & Hb & Hbs).
        apply wp_ret. split; [done|]. right; left.
        apply cvtColor_BGR2RGB_shape in Hb as (? & ? & c3 & Hb & Hc3).
        rewrite Hbs, Him2, Hx in Hb. rewrite Hx in Hc'. simplify_eq.
        simpl in Hc'. simplify_eq. by destruct Hc3 as [->| ->]. }
  intros [[img_mode im3] alpha] σ1 _ [Hmode Hrest]. simpl in Hmode. subst img_mode.
  apply wp_bind, wp_upsample. intros output_img σ2 Hfo.
  apply wp_bind.
  eapply wp_conseq with (Q := λ _ _, True) (X := any_exn); [| |done].
  { case_decide; [apply wp_cvt; done|by apply wp_ret]. }
  intros output_img0 σ3 _ _.
  apply wp_bind.
  eapply wp_conseq with (Q := λ _ _, True) (X := any_exn); [| |done].
  { destruct alpha as [alpha0|]; [|by apply wp_ret].
    apply wp_bind.
    eapply wp_conseq with (Q := λ _ _, True) (X := any_exn); [| |done].
    { case_decide.
      - apply wp_bind, wp_upsample. intros. apply wp_cvt. done.
      - apply wp_bind, wp_shape_0_2. intros. wp_steps. done. }
    intros output_alpha σ4 _ _.
    apply wp_bind, wp_cvt. intros output_img1 ? ? Hf1 _ _.
    apply wp_bind, wp_lift; [intros dst Hdst|intros; exact I].
    apply wp_bind, wp_setitem.
    - eapply fresh_loc; [by eapply v_index_loc|done].
    - intros. by apply wp_ret. }
  intros output_img1 σ4 _ _.
  apply wp_bind.
  eapply wp_conseq with
    (Q := λ o σ', fresh h0 o ∧ ∃ r, deref (heap σ') o = Some r ∧ h_shape o = shape r ∧
            a_dtype r = (if Qlt_le_dec 256 mx then UInt16 else UInt8) ∧
            integral (a_dtype r) r)
    (X := any_exn); [| |done].
  { subst max_range. destruct (Qlt_le_dec 256 mx); simpl.
    - apply wp_quantize. intros o' r hp Hf Hs Hr Hd. split; [done|].
      exists (astype UInt16 r). split_and!; try done; [simpl; congruence|].
      apply astype_integral. by right.
    - apply wp_quantize. intros o' r hp Hf Hs Hr Hd. split; [done|].
      exists (astype UInt8 r). split_and!; try done; [simpl; congruence|].
      apply astype_integral. by left. }
  intros output σ5 _ (Hfo5 & r & Hdr & Hsr & Htr & Hir).
  wp_step. wp_step. wp_step.
  destruct (outscale (self σ5)) as [os|] eqn:Hos.
  - destruct (Qeq_bool os (inject_Z (scale (self σ5)))) eqn:Heq.
    + wp_steps. eapply HQ; eauto. intros os' Hos'. rewrite Hos in Hos'. simplify_eq. by rewrite Heq.
    + apply wp_bind, wp_load. intros o _ Hdo. specialize (Hdo _ Hdr). subst o.
      apply wp_bind, wp_lift; [intros r' Hr'|intros; exact I].
      apply wp_alloc. intros o' Hfo' Hso' Hdo'. wp_steps.
      assert (a_dtype r = UInt8 ∨ a_dtype r = UInt16) as Hu
        by (rewrite Htr; destruct (Qlt_le_dec 256 mx); auto).
      destruct (cv2_resize_integral _ _ _ _ _ Hu Hr') as (Ht' & Hi' & rest' & Hs').
      eapply HQ; eauto; simpl; rewrite ?Ht'; try done.
      intros os' Hos'. rewrite Hos in Hos'. simplify_eq. eauto.
  - wp_steps. eapply HQ; eauto. intros os' Hos'. by rewrite Hos in Hos'.
Qed.
End EnhanceLogic.

Section EnhanceFacts.
Context `{E : Externals}.

Lemma deref_prefix (s s' : store) h a :
  s `prefix_of` s' → deref s h = Some a → deref s' h = Some a.
Proof.
  intros Hp. unfold deref. destruct (s !! h_loc h) as [b|] eqn:Hb; [|done].
  by rewrite (prefix_lookup_Some _ _ _ _ Hb Hp).
Qed.

(** Runs that return, and runs that raise. *)
Lemma wp_returns h0 i0 {A} (m : M A) Q X σ a σ' :
  wp h0 i0 m Q X σ → inv h0 i0 σ → m σ = (inr a, σ') → Q a σ'.
Proof. intros Hwp Hinv Hrun. by destruct (wp_run h0 i0 m Q X σ a σ' Hwp Hinv Hrun). Qed.

(** C10.  [enhance] writes to arrays of its own only.  Whether it returns or
    raises, every array that was in the store when it was called, the
    caller's image among them, denotes the same samples afterwards
    through every handle on it, and the settings of the instance
    (scale, tile size, pads, backend, networks) are as they were. *)
Theorem enhance_keeps_arrays (x : handle) (alpha_upsampler : string) (σ : state) :
  let σ' := (enhance x alpha_upsampler σ).2 in
  (∀ h a, deref (heap σ) h = Some a → deref (heap σ') h = Some a) ∧
  settings (self σ') = settings (self σ).
Proof.
  intros σ'.
  destruct (wp_enhance (heap σ) (self σ) x alpha_upsampler (λ _ _, True) σ) as [[Hpre Hset] _];
    [done|apply inv_refl|].
  split; [|done]. intros h a. by apply deref_prefix.
Qed.

(** The colour mode [enhance] reports, and the images it accepts.  When
    [enhance] returns, its input is a 2-D array and the mode is ["L"], or
    a 3-D array of 3 channels and the mode is ["RGB"], or a 3-D array of
    4 channels and the mode is ["RGBA"]; on an input of any other shape
    it raises. *)
Theorem enhance_img_mode (x : handle) (alpha_upsampler : string) (σ σ' : state)
    (o : handle) (img_mode : string) :
  enhance x alpha_upsampler σ = (inr (o, img_mode), σ') →
  ∃ hh ww,
    (img_mode = "L" ∧ h_shape x = [hh; ww]) ∨
    (img_mode = "RGB" ∧ h_shape x = [hh; ww; 3]) ∨
    (img_mode = "RGBA" ∧ h_shape x = [hh; ww; 4]).
Proof.
  intros Hrun.
  apply (wp_returns (heap σ) (self σ) (enhance x alpha_upsampler)
           (λ r _, ∃ hh ww,
              (r.2 = "L" ∧ h_shape x = [hh; ww]) ∨
              (r.2 = "RGB" ∧ h_shape x = [hh; ww; 3]) ∨
              (r.2 = "RGBA" ∧ h_shape x = [hh; ww; 4]))
           any_exn σ (o, img_mode) σ'); [|apply inv_refl|exact Hrun].
  apply wp_enhance. intros ? ? ? hh ww rest a mx Hx Hrest; intros.
  exists hh, ww. simpl. unfold img_mode_of. rewrite Hx. destruct Hrest as [->|[->| ->]]; auto.
Qed.



Lemma indices_empty (s : list Z) : (∃ n, n ∈ s ∧ n ≤ 0) → indices s = [].
Proof.
  induction s as [|m s IH]; intros (n & Hin & Hn).
  - by apply elem_of_nil in Hin.
  - simpl. apply elem_of_cons in Hin as [->|Hin].
    + by rewrite seqZ_nil by lia.
    + rewrite IH by eauto. generalize (seqZ 0 m). intros l.
      induction l as [|? l IHl]; [done|]. by rewrite bind_cons, IHl.
Qed.

Lemma wp_raises h0 i0 {A} (m : M A) X σ :
  wp h0 i0 m (λ _ _, False) X σ → inv h0 i0 σ → ∃ e, (m σ).1 = inl e ∧ X e (m σ).2.
Proof.
  intros Hwp Hinv. destruct (Hwp Hinv) as [_ H].
  destruct (m σ).1 as [e|a]; [eauto|done].
Qed.

Lemma np_max_empty a : (∃ n, n ∈ shape a ∧ n ≤ 0) → np_max a = inl ValueError.
Proof. intros Hs. unfold np_max, samples. by rewrite indices_empty. Qed.

(** Images without pixels.  On an array of fewer than two dimensions
    (the unpacking of [img.shape[0:2]] fails) or with an extent of zero
    ([np.max] of an empty array) [enhance] raises [ValueError], having
    printed nothing, called no network and assigned no field. *)
Theorem enhance_empty_image (x : handle) (alpha_upsampler : string) (σ : state) :
  (length (h_shape x) < 2)%nat ∨ (∃ n, n ∈ h_shape x ∧ n ≤ 0) →
  let r := enhance x alpha_upsampler σ in
  r.1 = inl ValueError ∧ self r.2 = self σ ∧ trace r.2 = trace σ.
Proof.
  intros Hx r. subst r.
  destruct (wp_raises (heap σ) (self σ) (enhance x alpha_upsampler)
              (λ e σ1, e = ValueError ∧ self σ1 = self σ ∧ trace σ1 = trace σ) σ)
    as (e & He & -> & Hself & Htr); [|apply inv_refl|done].
  unfold enhance. apply wp_bind. unfold shape_0_2.
  destruct (h_shape x) as [|hh [|ww rest]] eqn:Hs; try (by apply wp_raise).
  destruct Hx as [Hx|Hx]; [simpl in Hx; lia|].
  apply wp_ret.
  apply wp_bind, wp_load. intros a Ha _.
  apply wp_bind, wp_alloc. intros im _ _ Hdim.
  apply wp_bind, wp_load. intros a' _ Hda'. specialize (Hda' _ Hdim). subst a'.
  apply wp_bind, wp_lift.
  - intros mx Hmx. rewrite np_max_empty in Hmx; [done|]. simpl. by rewrite Ha, Hs.
  - intros e He. rewrite np_max_empty in He by (simpl; by rewrite Ha, Hs). by simplify_eq.
Qed.

End EnhanceFacts.

(** ** The two bit depths of [enhance] *)



Lemma prefix_lookup_is_Some {A} (s s' : list A) l :
  s `prefix_of` s' → is_Some (s !! l) → is_Some (s' !! l).
Proof. intros Hp [x Hx]. exists x. by eapply prefix_lookup_Some. Qed.

Section Valid.
Context `{E : Externals}.
Variable h0 : store.
Variable i0 : instance.






End Valid.

Section Depth.
Context `{E : Externals}.
Variable h0 : store.
Variable i0 : instance.

End Depth.

Section DepthFacts.
Context `{E : Externals}.


End DepthFacts.


Lemma enhance_img_mode_witness :
  let σ := Sample.state_with (Sample.upsampler 2 0 10 0 None (Sample.nn_up 2))
             [Sample.ramp 2 2 3] in
  ∃ o σ', enhance (E := Sample.externals) (whole 0 [2; 2; 3]) "realesrgan" σ
          = (inr (o, "RGB"), σ').
Proof.
  intros σ.
  destruct (enhance (E := Sample.externals) (whole 0 [2; 2; 3]) "realesrgan" σ)
    as [[e|[o img_mode]] σ'] eqn:Hrun.
  - exfalso.
    assert (match (enhance (E := Sample.externals) (whole 0 [2; 2; 3]) "realesrgan" σ).1 with
            | inr _ => True | inl _ => False end) as H by (vm_compute; exact I).
    rewrite Hrun in H. exact H.
  - exists o, σ'.
    destruct (enhance_img_mode (E := Sample.externals) _ _ _ _ _ _ Hrun)
      as (hh & ww & [[-> Hs]|[[-> Hs]|[-> Hs]]]); [discriminate Hs|reflexivity|discriminate Hs].
Defined.



Lemma enhance_empty_image_witness :
  let σ := Sample.state_with (Sample.upsampler 2 0 10 0 None (Sample.nn_up 2))
             [Sample.ramp 0 2 3] in
  let x := whole 0 [0; 2; 3] in
  (∃ n, n ∈ h_shape x ∧ n ≤ 0) ∧
  (enhance (E := Sample.externals) x "realesrgan" σ).1 = inl ValueError.
Proof.
  intros σ x.
  assert (∃ n, n ∈ h_shape x ∧ n ≤ 0) as Hx.
  { exists 0. split; [by left|lia]. }
  split; [exact Hx|].
  destruct (enhance_empty_image (E := Sample.externals) x "realesrgan" σ (or_intror Hx))
    as (Hr & _ & _).
  exact Hr.
Defined.

(** ** Tiled inference *)

Lemma slice_bounds_range n a b : 0 ≤ a ≤ b → b ≤ n → slice_bounds n a b = (a, b - a).
Proof.
  intros Ha Hb. unfold slice_bounds, slice_norm.
  destruct (a <? 0) eqn:H1; [lia|]. rewrite H1.
  destruct (b <? 0) eqn:H2; [lia|]. rewrite H2.
  destruct (n <? a) eqn:H3; [lia|].
  destruct (n <? b) eqn:H4; [lia|].
  f_equal. lia.
Qed.

Lemma v_slice_range k n a b h :
  h_shape h !! k = Some n → 0 ≤ a ≤ b → b ≤ n →
  ∃ h', v_slice k a b h = inr h' ∧
        h_shape h' = <[k := b - a]> (h_shape h) ∧
        h_loc h' = h_loc h.
Proof.
  intros Hk Ha Hb. unfold v_slice. rewrite Hk, slice_bounds_range by done.
  eexists. split; [done|]. done.
Qed.

Lemma slice_hw_range n c H W y0 y1 x0 x1 h :
  h_shape h = [n; c; H; W] →
  0 ≤ y0 ≤ y1 → y1 ≤ H → 0 ≤ x0 ≤ x1 → x1 ≤ W →
  ∃ h', slice_hw y0 y1 x0 x1 h = inr h' ∧
        h_shape h' = [n; c; y1 - y0; x1 - x0] ∧
        h_loc h' = h_loc h.
Proof.
  intros Hs Hy0 Hy1 Hx0 Hx1. unfold slice_hw.
  destruct (v_slice_range 2 H y0 y1 h) as (h1 & -> & Hs1 & Hl1); [by rewrite Hs|done|done|].
  destruct (v_slice_range 3 W x0 x1 h1) as (h2 & Hh2 & Hs2 & Hl2);
    [by rewrite Hs1, Hs|done|done|].
  exists h2. simpl. split; [done|]. split; [by rewrite Hs2, Hs1, Hs|congruence].
Qed.

Lemma broadcast_same n c h w : is_Some (broadcast [n; c; h; w] [n; c; h; w]).
Proof.
  unfold broadcast. simpl. rewrite !Z.eqb_refl. simpl. eauto.
Qed.

(** One axis of a tile: the padded interval contains the tile, lies in
    the image and exceeds the tile by at most the pad on each side. *)
Lemma axis_rectangle (n T P k : Z) :
  0 < T → 0 ≤ P → 1 ≤ n → 0 ≤ k < ceil_div n T →
  let a := k * T in
  let b := Z.min (k * T + T) n in
  let a' := Z.max (a - P) 0 in
  let b' := Z.min (b + P) n in
  (0 ≤ a' ≤ a ∧ a < b ∧ b ≤ b' ≤ n) ∧ b - a ≤ T ∧ a - a' ≤ P ∧ b' - b ≤ P.
Proof.
  intros HT HP Hn Hk a b a' b'.
  pose proof (ceil_div_bounds n T HT) as Hc.
  assert (a < n) by (subst a; nia).
  subst a b a' b'. lia.
Qed.

(** The rectangles of a tile.  For every tile of the grid: the padded
    input rectangle contains the tile's input rectangle, which is not
    empty, and lies in the image; a tile is at most [tile_size] wide and
    high, and its padded rectangle at most [tile_size + 2 * tile_pad];
    the rectangle cut from the network's output is not empty and lies
    in [scale] times the padded rectangle; and it has the size of the
    tile's output rectangle, so that the assignment to the output
    copies sample for sample. *)
Theorem tile_rectangles (s : instance) (w h x y : Z) :
  1 ≤ h → 1 ≤ w → 0 < tile_size s → 0 ≤ tile_pad s → 1 ≤ scale s →
  0 ≤ x < ceil_div w (tile_size s) → 0 ≤ y < ceil_div h (tile_size s) →
  let t := tile_at s w h (ceil_div w (tile_size s)) y x in
  let pad_w := input_end_x_pad t - input_start_x_pad t in
  let pad_h := input_end_y_pad t - input_start_y_pad t in
  (0 ≤ input_start_x_pad t ≤ input_start_x t ∧ input_start_x t < input_end_x t ∧
   input_end_x t ≤ input_end_x_pad t ≤ w) ∧
  (0 ≤ input_start_y_pad t ≤ input_start_y t ∧ input_start_y t < input_end_y t ∧
   input_end_y t ≤ input_end_y_pad t ≤ h) ∧
  (input_tile_width t ≤ tile_size s ∧ pad_w ≤ tile_size s + 2 * tile_pad s) ∧
  (input_tile_height t ≤ tile_size s ∧ pad_h ≤ tile_size s + 2 * tile_pad s) ∧
  (0 ≤ output_start_x_tile t ∧ output_start_x_tile t < output_end_x_tile t ∧
   output_end_x_tile t ≤ pad_w * scale s) ∧
  (0 ≤ output_start_y_tile t ∧ output_start_y_tile t < output_end_y_tile t ∧
   output_end_y_tile t ≤ pad_h * scale s) ∧
  output_end_x_tile t - output_start_x_tile t = output_end_x t - output_start_x t ∧
  output_end_y_tile t - output_start_y_tile t = output_end_y t - output_start_y t.
Proof.
  intros Hh Hw HT HP Hs Hx Hy t pad_w pad_h.
  destruct (axis_rectangle w (tile_size s) (tile_pad s) x HT HP Hw Hx) as (Hx1 & Hx2 & Hx3 & Hx4).
  destruct (axis_rectangle h (tile_size s) (tile_pad s) y HT HP Hh Hy) as (Hy1 & Hy2 & Hy3 & Hy4).
  subst t pad_w pad_h. unfold tile_at. cbn [input_start_x input_end_x input_start_y input_end_y
    input_start_x_pad input_end_x_pad input_start_y_pad input_end_y_pad
    input_tile_width input_tile_height output_start_x output_end_x output_start_y output_end_y
    output_start_x_tile output_end_x_tile output_start_y_tile output_end_y_tile].
  cbv zeta in Hx1, Hx2, Hx3, Hx4, Hy1, Hy2, Hy3, Hy4.
  split_and!; try lia; nia.
Qed.

Lemma tile_rectangles_witness :
  let s := Sample.upsampler 4 8 2 10 None (Sample.nn_up 4) in
  let t := tile_at s 13 17 2 2 1 in
  (input_start_x_pad t, input_start_x t, input_end_x t, input_end_x_pad t) = (6, 8, 13, 13) ∧
  (input_start_y_pad t, input_start_y t, input_end_y t, input_end_y_pad t) = (14, 16, 17, 17) ∧
  0 ≤ output_start_x_tile t ∧ output_start_x_tile t < output_end_x_tile t ∧
  output_end_x_tile t ≤ (input_end_x_pad t - input_start_x_pad t) * scale s.
Proof.
  intros s t.
  split; [reflexivity|]. split; [reflexivity|].
  destruct (tile_rectangles s 13 17 1 2) as (_ & _ & _ & _ & Hx & _);
    [simpl; lia|simpl; lia|simpl; lia|simpl; lia|simpl; lia
    |change (0 ≤ 1 < 2); lia|change (0 ≤ 2 < 3); lia|].
  exact Hx.
Defined.

Section Loops.
Variable h0 : store.
Variable i0 : instance.

(** A loop with an invariant that counts the iterations. *)
Lemma wp_for_each_ix {A B} (l : list A) (body : A → B → M B)
    (L : nat → B → state → Prop) X acc σ :
  L 0%nat acc σ →
  (∀ k x acc σ, l !! k = Some x → L k acc σ → wp h0 i0 (body x acc) (L (S k)) X σ) →
  wp h0 i0 (for_each l body acc) (L (length l)) X σ.
Proof.
  revert L acc σ. induction l as [|x l IH]; intros L acc σ HL Hbody; simpl.
  - by apply wp_ret.
  - apply wp_bind. eapply wp_conseq; [apply (Hbody 0%nat); [done|exact HL]| |done].
    intros acc' σ' _ HL'. apply (IH (λ k, L (S k))); [done|].
    intros k y acc1 σ1 Hy. by apply (Hbody (S k)).
Qed.

End Loops.

Section Total.
Variable h0 : store.
Variable i0 : instance.

Lemma wp_attr_Some {A} name (f : instance → option A) a Q X σ :
  f (self σ) = Some a → Q a σ → wp h0 i0 (attr name f) Q X σ.
Proof.
  intros Hf HQ Hinv. unfold attr, bind, get_self. simpl. by rewrite Hf.
Qed.

Lemma wp_lift_inr {A} (r : result A) a Q X σ :
  r = inr a → Q a σ → wp h0 i0 (lift r) Q X σ.
Proof. by intros -> HQ Hinv. Qed.

Lemma wp_infer_inr n x Q X σ :
  (∀ a, shape a = h_shape x →
     ∃ r, n a = inr r ∧
       ∀ o, fresh h0 o → h_shape o = shape r →
         Q o (mk_state (self σ) (heap σ ++ [r]) (trace σ ++ [Inferred a]))) →
  wp h0 i0 (infer n x) Q X σ.
Proof.
  intros HQ. unfold infer.
  apply wp_bind, wp_load. intros a Ha _.
  destruct (HQ a Ha) as (r & Hr & HQ').
  apply wp_bind, wp_emit. wp_simpl.
  apply wp_bind, (wp_lift_inr _ r); [done|].
  apply wp_alloc. intros o Hf Hs _. wp_simpl. by apply HQ'.
Qed.

End Total.

Lemma printed_app σ tr :
  printed (mk_state (self σ) (heap σ) (trace σ ++ tr))
  = printed σ ++ omap (λ e, match e with Printed m => Some m | Inferred _ => None end) tr.
Proof. unfold printed. simpl. by rewrite omap_app. Qed.

Lemma tile_at_fits (s : instance) (w h x y : Z) :
  1 ≤ h → 1 ≤ w → 0 < tile_size s → 0 ≤ tile_pad s → 1 ≤ scale s →
  0 ≤ x < ceil_div w (tile_size s) → 0 ≤ y < ceil_div h (tile_size s) →
  tile_fits s w h (tile_at s w h (ceil_div w (tile_size s)) y x).
Proof.
  intros Hh Hw HT HP Hs Hx Hy.
  destruct (axis_rectangle w (tile_size s) (tile_pad s) x HT HP Hw Hx) as (Hx1 & Hx2 & Hx3 & Hx4).
  destruct (axis_rectangle h (tile_size s) (tile_pad s) y HT HP Hh Hy) as (Hy1 & Hy2 & Hy3 & Hy4).
  unfold tile_fits, tile_at. cbn [input_start_x input_end_x input_start_y input_end_y
    input_start_x_pad input_end_x_pad input_start_y_pad input_end_y_pad
    input_tile_width input_tile_height output_start_x output_end_x output_start_y output_end_y
    output_start_x_tile output_end_x_tile output_start_y_tile output_end_y_tile].
  cbv zeta in Hx1, Hx2, Hx3, Hx4, Hy1, Hy2, Hy3, Hy4.
  split_and!; try lia; nia.
Qed.

Section TileRuns.
Variable h0 : store.
Variable i0 : instance.
Variable s0 : instance.
Variables (o im : handle) (n : network) (b c H W : Z).
Hypothesis Himg : img s0 = Some im.
Hypothesis Him : h_shape im = [b; c; H; W].
Hypothesis Hnet : net_g s0 = Some n.
Hypothesis Hn : ∀ a b' c' h w,
  shape a = [b'; c'; h; w] →
  ∃ r, n a = inr r ∧ shape r = [b'; c'; h * scale s0; w * scale s0].
Hypothesis Hfo : fresh h0 o.
Hypothesis Ho : h_shape o = [b; c; H * scale s0; W * scale s0].

Lemma wp_tile_body_total t total acc σ :
  tile_fits s0 W H t →
  self σ = set_output o s0 →
  wp h0 i0 (tile_body t total acc)
    (λ acc' σ',
       self σ' = set_output o s0 ∧
       ∃ a, trace σ' = trace σ ++ [Inferred a; Printed (MsgTile (tile_idx t) total)])
    no_exn σ.
Proof.
  intros ((Hiy & Hix) & (Hty & Htx) & (Hoy & Hox) & Hey & Hex) Hself.
  unfold tile_body.
  apply wp_bind, (wp_attr_Some _ _ _ _ im); [by rewrite Hself|].
  destruct (slice_hw_range b c H W (input_start_y_pad t) (input_end_y_pad t)
              (input_start_x_pad t) (input_end_x_pad t) im Him)
    as (input_tile & Hit & Hits & _); [lia..|].
  apply wp_bind, (wp_lift_inr _ _ _ input_tile); [exact Hit|].
  apply wp_bind, wp_try_except_RuntimeError.
  apply wp_bind, (wp_attr_Some _ _ _ _ n); [by rewrite Hself|].
  apply wp_bind, wp_infer_inr. intros a Ha.
  destruct (Hn a _ _ _ _ (eq_trans Ha Hits)) as (r & Hr & Hrs).
  exists r. split; [done|]. intros ot _ Hot. wp_simpl.
  apply wp_ret.
  apply wp_bind, wp_print. wp_simpl.
  destruct (slice_hw_range b c _ _ (output_start_y_tile t) (output_end_y_tile t)
              (output_start_x_tile t) (output_end_x_tile t) ot (eq_trans Hot Hrs))
    as (src & Hsrc & Hsrcs & _); [lia..|].
  apply wp_bind, (wp_lift_inr _ _ _ src); [exact Hsrc|].
  apply wp_bind, (wp_attr_Some _ _ _ _ o); [by rewrite Hself|].
  destruct (slice_hw_range b c _ _ (output_start_y t) (output_end_y t)
              (output_start_x t) (output_end_x t) o Ho)
    as (dst & Hdst & Hdsts & Hdstl); [lia..|].
  apply wp_bind, (wp_lift_inr _ _ _ dst); [exact Hdst|].
  apply wp_bind. unfold setitem.
  apply wp_bind, wp_load. intros v Hv _.
  rewrite Hv, Hsrcs, Hdsts, Hey, Hex.
  destruct (broadcast_same b c (output_end_y t - output_start_y t)
              (output_end_x t - output_start_x t)) as [f ->].
  apply wp_poke_with; [by eapply fresh_loc|]. wp_simpl.
  apply wp_ret. split; [done|].
  exists a. by rewrite <- app_assoc.
Qed.
End TileRuns.

Lemma wp_total h0 i0 {A} (m : M A) Q σ :
  wp h0 i0 m Q no_exn σ → inv h0 i0 σ →
  ∃ a σ', m σ = (inr a, σ') ∧ Q a σ' ∧ inv h0 i0 σ'.
Proof.
  intros Hwp Hinv. destruct (Hwp Hinv) as [Hinv' HQ].
  destruct (m σ) as [[e|a] σ']; [done|]. eauto.
Qed.

Lemma wp_run_eq h0 i0 {A} (m m' : M A) Q X σ :
  m σ = m' σ → wp h0 i0 m' Q X σ → wp h0 i0 m Q X σ.
Proof. intros Heq Hwp Hinv. rewrite Heq. by apply Hwp. Qed.

Lemma tile_loop_grid (s : instance) (w h : Z) σ :
  tile_loop s w h σ
  = for_each (tile_grid s w h)
      (λ t, tile_body t (ceil_div w (tile_size s) * ceil_div h (tile_size s))) None σ.
Proof.
  rewrite tile_grid_fmap.
  exact (for_each_nested (tile_at s w h (ceil_div w (tile_size s)))
           (range (ceil_div h (tile_size s))) (range (ceil_div w (tile_size s)))
           (λ t, tile_body t (ceil_div w (tile_size s) * ceil_div h (tile_size s))) None σ).
Qed.

Lemma tile_grid_fits (s : instance) (w h : Z) t :
  1 ≤ h → 1 ≤ w → 0 < tile_size s → 0 ≤ tile_pad s → 1 ≤ scale s →
  t ∈ tile_grid s w h → tile_fits s w h t.
Proof.
  intros Hh Hw HT HP Hs. rewrite tile_grid_fmap.
  intros (y & Ht & Hy)%list_elem_of_bind.
  apply list_elem_of_fmap in Ht as (x & -> & Hx).
  unfold range in Hx, Hy. apply elem_of_seqZ in Hx, Hy.
  apply tile_at_fits; try done; lia.
Qed.

Lemma tile_idx_rows (s : instance) (w h tx : Z) (n : nat) :
  0 ≤ tx →
  tile_idx <$> (y ← seqZ 0 (Z.of_nat n); tile_at s w h tx y <$> seqZ 0 tx)
  = seqZ 1 (tx * Z.of_nat n).
Proof.
  intros Hx. induction n as [|n IH].
  - by rewrite Z.mul_0_r.
  - rewrite seqZ_S, bind_app, fmap_app, IH. simpl.
    rewrite app_nil_r, <- list_fmap_compose.
    replace (tx * Z.of_nat (S n)) with (tx * Z.of_nat n + tx) by lia.
    rewrite seqZ_app by lia. f_equal.
    replace (1 + tx * Z.of_nat n) with (1 + tx * Z.of_nat n + 0) by lia.
    rewrite <- (fmap_add_seqZ (1 + tx * Z.of_nat n) 0 tx).
    apply list_fmap_ext. intros _ x _. simpl. lia.
Qed.

Lemma tile_idx_grid (s : instance) (w h : Z) :
  0 ≤ ceil_div w (tile_size s) → 0 ≤ ceil_div h (tile_size s) →
  tile_idx <$> tile_grid s w h
  = seqZ 1 (ceil_div w (tile_size s) * ceil_div h (tile_size s)).
Proof.
  intros Hx Hy. rewrite tile_grid_fmap. unfold range.
  rewrite <- (Z2Nat.id (ceil_div h (tile_size s))) by done.
  by apply tile_idx_rows.
Qed.

Section TileLoop.
Variable h0 : store.
Variable i0 : instance.
Variable s0 : instance.
Variables (o im : handle) (n : network) (b c H W : Z).
Hypothesis Himg : img s0 = Some im.
Hypothesis Him : h_shape im = [b; c; H; W].
Hypothesis Hnet : net_g s0 = Some n.
Hypothesis Hn : ∀ a b' c' h w,
  shape a = [b'; c'; h; w] →
  ∃ r, n a = inr r ∧ shape r = [b'; c'; h * scale s0; w * scale s0].
Hypothesis Hfo : fresh h0 o.
Hypothesis Ho : h_shape o = [b; c; H * scale s0; W * scale s0].
Hypothesis HH : 1 ≤ H.
Hypothesis HW : 1 ≤ W.
Hypothesis HT : 0 < tile_size s0.
Hypothesis HP : 0 ≤ tile_pad s0.
Hypothesis Hs : 1 ≤ scale s0.

Lemma wp_tile_loop_total σ :
  self σ = set_output o s0 →
  let total := ceil_div W (tile_size s0) * ceil_div H (tile_size s0) in
  wp h0 i0 (tile_loop s0 W H)
    (λ _ σ',
       self σ' = set_output o s0 ∧
       printed σ' = printed σ ++ ((λ t, MsgTile (tile_idx t) total) <$> tile_grid s0 W H) ∧
       length (inferred σ') = (length (inferred σ) + length (tile_grid s0 W H))%nat)
    no_exn σ.
Proof.
  intros Hself total. eapply wp_run_eq; [apply tile_loop_grid|]. fold total.
  eapply wp_conseq; [| |done].
  - apply (wp_for_each_ix h0 i0 (tile_grid s0 W H) _
             (λ k _ σ',
                self σ' = set_output o s0 ∧
                printed σ' = printed σ
                  ++ ((λ t, MsgTile (tile_idx t) total) <$> take k (tile_grid s0 W H)) ∧
                length (inferred σ') = (length (inferred σ) + k)%nat)).
    + split; [done|]. split; [by rewrite app_nil_r|lia].
    + intros k t acc σ1 Ht (Hself1 & Hp1 & Hi1).
      eapply wp_conseq; [|intros acc' σ2 _ HQ; exact HQ|done].
      eapply wp_conseq; [apply (wp_tile_body_total h0 i0 s0 o im n b c H W); try done| |done].
      * apply tile_grid_fits; try done. by eapply list_elem_of_lookup_2.
      * intros acc' σ2 _ (Hself2 & a & Htr). split; [done|].
        rewrite (take_S_r _ _ _ Ht), fmap_app, app_assoc, <- Hp1.
        unfold printed, inferred in *. rewrite Htr, !omap_app, length_app, Hi1. simpl.
        split; [done|lia].
  - intros acc σ' _ (Hself' & Hp' & Hi'). by rewrite firstn_all in Hp'.
Qed.

End TileLoop.

Lemma new_zeros_inr (s : list Z) (t : dtype) :
  Forall (λ n, 0 ≤ n) s → new_zeros s t = inr (mk_array s t (λ _, 0%Q)).
Proof.
  intros Hs. unfold new_zeros.
  replace (forallb (λ n, 0 <=? n) s) with true; [done|].
  induction Hs as [|n s Hn _ IH]; [done|].
  simpl. rewrite <- IH. symmetry. apply andb_true_intro. split; [lia|done].
Qed.

(** Tiled inference with a network that scales.  For the torch or
    huggingface backend, an image tensor of at least one pixel, a
    positive tile size, and a network that maps every 4-D tensor to one
    with [scale] times its height and width: [tile_process] returns;
    [self.output] is a new tensor of [scale] times the size of
    [self.img]; no array that existed before is changed; the network
    is called once per tile, [ceil(W / T) * ceil(H / T)] times in all;
    and the progress lines "Tile k/total" are printed for
    k = 1, ..., total in this order, with no error line. *)
Theorem tile_process_total (σ : state) (im : handle) (n : network) (b c H W : Z) :
  backend (self σ) ≠ "onnx" → backend (self σ) ≠ "triton" →
  img (self σ) = Some im →
  h_shape im = [b; c; H; W] →
  0 ≤ b → 0 ≤ c → 1 ≤ H → 1 ≤ W →
  0 < tile_size (self σ) → 0 ≤ tile_pad (self σ) → 1 ≤ scale (self σ) →
  net_g (self σ) = Some n →
  (∀ a b' c' h w,
     shape a = [b'; c'; h; w] →
     ∃ r, n a = inr r ∧ shape r = [b'; c'; h * scale (self σ); w * scale (self σ)]) →
  let total := ceil_div W (tile_size (self σ)) * ceil_div H (tile_size (self σ)) in
  ∃ o σ',
    tile_process σ = (inr tt, σ') ∧
    self σ' = set_output o (self σ) ∧
    h_shape o = [b; c; H * scale (self σ); W * scale (self σ)] ∧
    fresh (heap σ) o ∧
    heap σ `prefix_of` heap σ' ∧
    printed σ' = printed σ ++ ((λ k, MsgTile k total) <$> seqZ 1 total) ∧
    length (inferred σ') = (length (inferred σ) + Z.to_nat total)%nat.
Proof.
  intros Hb1 Hb2 Himg Him Hb Hc HH HW HT HP Hs Hnet Hn total.
  pose proof (ceil_div_pos W _ HT HW) as Htx.
  pose proof (ceil_div_pos H _ HT HH) as Hty.
  destruct (wp_total (heap σ) (self σ) tile_process
              (λ _ σ', ∃ o,
                 self σ' = set_output o (self σ) ∧
                 h_shape o = [b; c; H * scale (self σ); W * scale (self σ)] ∧
                 fresh (heap σ) o ∧
                 printed σ' = printed σ ++ ((λ k, MsgTile k total) <$> seqZ 1 total) ∧
                 length (inferred σ') = (length (inferred σ) + Z.to_nat total)%nat) σ)
    as ([] & σ' & Hrun & (o & Hself & Ho & Hfo & Hp & Hi) & [Hpre _]); [|apply inv_refl|].
  2: { exists o, σ'. by split_and!. }
  unfold tile_process.
  apply wp_bind, wp_get_self.
  rewrite !bool_decide_eq_false_2 by done. cbn [orb].
  apply wp_bind, (wp_attr_Some _ _ _ _ im); [done|].
  rewrite Him.
  apply wp_bind, wp_load. intros a _ _.
  apply wp_bind. eapply wp_lift_inr; [apply new_zeros_inr; repeat constructor; nia|].
  apply wp_bind, wp_alloc. intros o Hfo Ho _.
  apply wp_bind, wp_modify_self; [done|].
  apply wp_bind. rewrite bool_decide_eq_false_2 by lia. apply wp_ret.
  apply wp_bind.
  eapply wp_conseq;
    [apply (wp_tile_loop_total (heap σ) (self σ) (self σ) o im n b c H W); try done| |done].
  intros acc σ1 _ (Hself1 & Hp1 & Hi1). apply wp_ret.
  assert (tile_idx <$> tile_grid (self σ) W H = seqZ 1 total) as Hidx
    by (apply tile_idx_grid; lia).
  exists o. split_and!; try done.
  - rewrite Hp1, <- Hidx, <- list_fmap_compose. done.
  - rewrite Hi1, <- (length_fmap tile_idx), Hidx, length_seqZ. done.
Qed.

Lemma tile_process_total_witness :
  let σ := Sample.state_with_img (Sample.upsampler 2 2 1 0 None (Sample.nn_up 2))
             (Sample.tensor 3 3) in
  ∃ o σ',
    tile_process σ = (inr tt, σ') ∧
    h_shape o = [1; 1; 6; 6] ∧
    output (self σ') = Some o ∧
    printed σ' = [MsgTile 1 4; MsgTile 2 4; MsgTile 3 4; MsgTile 4 4] ∧
    length (inferred σ') = 4%nat.
Proof.
  intros σ.
  destruct (tile_process_total σ (whole 0 [1; 1; 3; 3]) (Sample.nn_up 2) 1 1 3 3)
    as (o & σ' & Hrun & Hself & Ho & _ & _ & Hp & Hi);
    [discriminate|discriminate|reflexivity|reflexivity
    |lia|lia|lia|lia|simpl; lia|simpl; lia|simpl; lia|reflexivity| |].
  - intros a b' c' h w Ha. unfold Sample.nn_up. rewrite Ha. eexists. split; reflexivity.
  - exists o, σ'. split; [exact Hrun|]. split; [exact Ho|].
    split; [by rewrite Hself|]. split; [exact Hp|exact Hi].
Defined.

(** More equations for running a method step by step. *)
Lemma run_load {B} h (k : array → M B) a σ :
  (load h σ).1 = inr a → bind (load h) k σ = k a σ.
Proof. unfold bind, load. simpl. by intros [= ->]. Qed.

Lemma run_emit {B} e (k : unit → M B) σ :
  bind (emit e) k σ = k tt (mk_state (self σ) (heap σ) (trace σ ++ [e])).
Proof. done. Qed.

Lemma run_try_exn {A} (m : M A) handler e σ σ' :
  m σ = (inl e, σ') → is_RuntimeError e = true →
  try_except_RuntimeError m handler σ = handler e σ'.
Proof. intros Hm He. unfold try_except_RuntimeError. by rewrite Hm, He. Qed.

(** Slicing the last two axes of a 4-D view never fails. *)
Lemma slice_hw_4d y0 y1 x0 x1 h :
  length (h_shape h) = 4%nat → ∃ h', slice_hw y0 y1 x0 x1 h = inr h'.
Proof.
  intros Hlen. destruct (h_shape h) as [|n [|c [|H [|W [|]]]]] eqn:Hs; try done.
  unfold slice_hw, v_slice. rewrite Hs. simpl.
  destruct (slice_bounds H y0 y1) as [a len]. simpl.
  destruct (slice_bounds W x0 x1) as [a' len']. eauto.
Qed.

(** A [RuntimeError] in the inference call of a tile.  The handler
    prints the error, and the body goes on with [output_tile] as the
    iterations before left it.
    - If no call has returned yet (the first tile), the body prints the
      progress line and raises [UnboundLocalError], so the loop ends;
      the store is as it was.
    - Otherwise [output_tile] is the output of the last tile whose call
      returned ([prev]).  It is sliced as if it were this tile's output.
      If the slice fits the tile's output region (after broadcasting) it
      is assigned to the region and the loop goes on; if it does not,
      the assignment, which is outside the [try], raises [RuntimeError]
      and the loop ends with the store as it was. *)
Theorem tile_body_fault (t : tile) (total : Z) (prev : option handle) (σ : state)
    (im input_tile : handle) (n : network) (a : array) (e : exn) :
  img (self σ) = Some im →
  slice_hw (input_start_y_pad t) (input_end_y_pad t)
    (input_start_x_pad t) (input_end_x_pad t) im = inr input_tile →
  net_g (self σ) = Some n →
  (load input_tile σ).1 = inr a →
  n a = inl e →
  is_RuntimeError e = true →
  let tr := trace σ ++ [Inferred a; Printed (MsgError e); Printed (MsgTile (tile_idx t) total)] in
  (prev = None →
     tile_body t total prev σ
     = (inl (UnboundLocalError "output_tile"), mk_state (self σ) (heap σ) tr)) ∧
  (∀ ot o,
     prev = Some ot →
     output (self σ) = Some o →
     length (h_shape ot) = 4%nat → length (h_shape o) = 4%nat →
     ∃ src dst v,
       slice_hw (output_start_y_tile t) (output_end_y_tile t)
         (output_start_x_tile t) (output_end_x_tile t) ot = inr src ∧
       slice_hw (output_start_y t) (output_end_y t)
         (output_start_x t) (output_end_x t) o = inr dst ∧
       (load src σ).1 = inr v ∧
       tile_body t total prev σ
       = match broadcast (shape v) (h_shape dst) with
         | Some f =>
             (inr (Some ot),
              mk_state (self σ) (store_poke dst (λ i, data v (f i)) (heap σ)) tr)
         | None =>
             (inl (RuntimeError "shape mismatch"), mk_state (self σ) (heap σ) tr)
         end).
Proof.
  intros Himg Hit Hnet Ha Hn He tr.
  assert (∀ k : option handle → M (option handle),
    bind (try_except_RuntimeError
            (let* n := attr "net_g" net_g in
             let* o := infer n input_tile in
             ret (Some o))
            (λ error, print (MsgError error);; ret prev)) k σ
    = k prev (mk_state (self σ) (heap σ) (trace σ ++ [Inferred a; Printed (MsgError e)])))
    as Htry.
  { intros k.
    assert ((let* n := attr "net_g" net_g in
             let* o := infer n input_tile in
             ret (Some o)) σ
            = (inl e, mk_state (self σ) (heap σ) (trace σ ++ [Inferred a]))) as Hm.
    { rewrite (run_attr _ _ _ n) by done. unfold infer.
      rewrite bind_assoc, (run_load _ _ a) by done.
      rewrite bind_assoc, run_emit, bind_assoc. by rewrite (run_lift_exn _ _ e). }
    unfold bind at 1. rewrite (run_try_exn _ _ _ _ _ Hm He).
    unfold bind, print, emit, ret. simpl. by rewrite <- app_assoc. }
  split.
  - intros ->. unfold tile_body.
    rewrite (run_attr _ _ _ im), (run_lift _ _ input_tile), Htry by done.
    unfold print. rewrite run_emit. unfold raise, tr. simpl. by rewrite <- app_assoc.
  - intros ot o -> Ho Hot4 Ho4.
    destruct (slice_hw_4d (output_start_y_tile t) (output_end_y_tile t)
                (output_start_x_tile t) (output_end_x_tile t) ot Hot4) as [src Hsrc].
    destruct (slice_hw_4d (output_start_y t) (output_end_y t)
                (output_start_x t) (output_end_x t) o Ho4) as [dst Hdst].
    exists src, dst, (default (mk_array (h_shape src) Float32 (λ _, 0%Q)) (deref (heap σ) src)).
    split; [done|]. split; [done|]. split; [done|].
    unfold tile_body.
    rewrite (run_attr _ _ _ im), (run_lift _ _ input_tile), Htry by done.
    unfold print. rewrite run_emit.
    rewrite (run_lift _ _ src), (run_attr _ _ _ o), (run_lift _ _ dst) by done.
    unfold setitem. rewrite bind_assoc, (run_load _ _ _ _ eq_refl).
    destruct (broadcast _ _) as [f|].
    + unfold bind, poke_with, ret, tr. simpl. by rewrite <- app_assoc.
    + unfold bind, raise, tr. simpl. by rewrite <- app_assoc.
Qed.

Lemma tile_body_fault_witness :
  let i := Sample.upsampler 1 1 0 0 None Sample.faulty in
  (* the first tile fails *)
  (let σ := Sample.state_with_img i (Sample.row2 7 5) in
   let t := tile_at i 2 1 2 0 0 in
   (tile_body t 2 None σ).1 = inl (UnboundLocalError "output_tile") ∧
   printed (tile_body t 2 None σ).2
   = [MsgError (RuntimeError "out of memory"); MsgTile 1 2]) ∧
  (* the second tile fails and receives the output of the first *)
  (let σ := mk_state (set_output (whole 1 [1; 1; 1; 2])
                        (set_img (whole 0 [1; 1; 1; 2]) i))
              [Sample.row2 5 7; Sample.row2 5 0; mk_array [1; 1; 1; 1] Float32 (λ _, 5%Q)]
              [] in
   let t := tile_at i 2 1 2 0 1 in
   (tile_body t 2 (Some (whole 2 [1; 1; 1; 1])) σ).1 = inr (Some (whole 2 [1; 1; 1; 1])) ∧
   output_samples (tile_body t 2 (Some (whole 2 [1; 1; 1; 1])) σ).2 = Some [5%Q; 5%Q]) ∧
  (* the third of four tiles fails, and the output of the second, a
     narrower tile, does not fit its region *)
  (let i := Sample.upsampler 2 2 0 0 None Sample.faulty in
   let image := mk_array [1; 1; 4; 3] Float32 (λ i, inject_Z (nth_Z 2 i * 3 + nth_Z 3 i + 1)) in
   let σ := mk_state (set_output (whole 1 [1; 1; 8; 6]) (set_img (whole 0 [1; 1; 4; 3]) i))
              [image; mk_array [1; 1; 8; 6] Float32 (λ _, 0%Q);
               mk_array [1; 1; 4; 2] Float32 (λ _, 1%Q)] [] in
   let t := tile_at i 3 4 2 1 0 in
   tile_body t 4 (Some (whole 2 [1; 1; 4; 2])) σ
   = (inl (RuntimeError "shape mismatch"),
      mk_state (self σ) (heap σ)
        [Inferred (mk_array [1; 1; 2; 2] Float32
                     (λ i, data image (add_at 2 2 (add_at 3 0 i))));
         Printed (MsgError (RuntimeError "out of memory")); Printed (MsgTile 3 4)])).
Proof.
  intros i. split; [|split].
  - intros σ t.
    destruct (tile_body_fault t 2 None σ (whole 0 [1; 1; 1; 2]) _ Sample.faulty _
                (RuntimeError "out of memory") eq_refl eq_refl eq_refl eq_refl)
      as [Hnone _]; [vm_compute; reflexivity|reflexivity|].
    rewrite (Hnone eq_refl). split; reflexivity.
  - intros σ t.
    destruct (tile_body_fault t 2 (Some (whole 2 [1; 1; 1; 1])) σ (whole 0 [1; 1; 1; 2]) _
                Sample.faulty _ (RuntimeError "out of memory") eq_refl eq_refl eq_refl eq_refl)
      as [_ Hsome]; [vm_compute; reflexivity|reflexivity|].
    destruct (Hsome (whole 2 [1; 1; 1; 1]) (whole 1 [1; 1; 1; 2]) eq_refl eq_refl eq_refl eq_refl)
      as (src & dst & v & Hsrc & Hdst & Hv & Hrun).
    vm_compute in Hsrc. injection Hsrc as <-.
    vm_compute in Hdst. injection Hdst as <-.
    injection Hv as <-.
    rewrite Hrun. split; vm_compute; reflexivity.
  - intros i' image σ t.
    destruct (tile_body_fault t 4 (Some (whole 2 [1; 1; 4; 2])) σ (whole 0 [1; 1; 4; 3]) _
                Sample.faulty _ (RuntimeError "out of memory") eq_refl eq_refl eq_refl eq_refl)
      as [_ Hsome]; [vm_compute; reflexivity|reflexivity|].
    destruct (Hsome (whole 2 [1; 1; 4; 2]) (whole 1 [1; 1; 8; 6]) eq_refl eq_refl eq_refl eq_refl)
      as (src & dst & v & Hsrc & Hdst & Hv & Hrun).
    vm_compute in Hsrc. injection Hsrc as <-.
    vm_compute in Hdst. injection Hdst as <-.
    injection Hv as <-.
    rewrite Hrun. reflexivity.
Defined.

(** ** More on padding *)

(** Alignment.  When [pre_process] (or [pre_process_numpy]) returns on
    an image of [hh] rows and [ww] columns, [self.img] is a tensor
    (1, channels, H, W) where, with [p] the pre-pad: for scale 2 (resp.
    scale 1), [H] and [W] are the least multiples of 2 (resp. 4) that
    are at least [hh + p] and [ww + p], and the instance records the
    divisor and the rows and columns added; for any other scale, on an
    instance that has no divisor yet, nothing is added beyond the
    pre-pad. *)
Theorem pre_process_alignment (numpy : bool) (x : handle) (σ σ1 : state) (hh ww cc : Z) :
  h_shape x = [hh; ww; cc] →
  (if numpy then pre_process_numpy x else pre_process x) σ = (inr tt, σ1) →
  let p := pre_pad (self σ) in
  ∃ t H W,
    img (self σ1) = Some t ∧
    h_shape t = [1; cc; H; W] ∧
    let aligned m :=
      mod_scale (self σ1) = Some m ∧
      (H `mod` m = 0 ∧ hh + p ≤ H < hh + p + m) ∧
      (W `mod` m = 0 ∧ ww + p ≤ W < ww + p + m) ∧
      mod_pad_h (self σ1) = Some (H - (hh + p)) ∧
      mod_pad_w (self σ1) = Some (W - (ww + p)) in
    (scale (self σ) = 2 → aligned 2) ∧
    (scale (self σ) = 1 → aligned 4) ∧
    (scale (self σ) ≠ 2 → scale (self σ) ≠ 1 → mod_scale (self σ) = None →
       mod_scale (self σ1) = None ∧ H = hh + p ∧ W = ww + p).
Proof.
  intros Hx Hrun p.
  set (Q := λ (_ : unit) σ',
    ∃ t mh mw, img (self σ') = Some t ∧
      h_shape t = [1; cc; hh + p + mh; ww + p + mw] ∧
      mod_scale (self σ') = next_mod_scale (self σ) ∧
      padded_by (self σ') mh mw ∧
      (∀ m, next_mod_scale (self σ) = Some m → 0 < m →
         (0 ≤ mh < m ∧ (hh + p + mh) `mod` m = 0) ∧
         (0 ≤ mw < m ∧ (ww + p + mw) `mod` m = 0))).
  assert (Q tt σ1) as (t & mh & mw & Ht & Hts & Hms & Hpad & Hmod).
  { eapply (wp_returns (heap σ) (self σ)); [|apply inv_refl|exact Hrun].
    assert (∀ σ' t' hh' ww' cc' mh mw,
      h_shape x = [hh'; ww'; cc'] → img (self σ') = Some t' →
      h_shape t' = [1; cc'; hh' + p + mh; ww' + p + mw] →
      mod_scale (self σ') = next_mod_scale (self σ) →
      padded_by (self σ') mh mw →
      (∀ m, next_mod_scale (self σ) = Some m → 0 < m →
         (0 ≤ mh < m ∧ (hh' + p + mh) `mod` m = 0) ∧
         (0 ≤ mw < m ∧ (ww' + p + mw) `mod` m = 0)) →
      Q tt σ') as HQ.
    { intros σ' t' hh' ww' cc' mh mw Hx' Ht' Hs' Hms Hpad Hmod.
      rewrite Hx in Hx'. simplify_eq. by exists t', mh, mw. }
    destruct numpy.
    - apply wp_pre_process_numpy. intros. eapply HQ; eauto.
    - apply wp_pre_process. intros. eapply HQ; eauto. }
  exists t, (hh + p + mh), (ww + p + mw). split; [done|]. split; [done|].
  unfold padded_by in Hpad. rewrite Hms in Hpad. unfold next_mod_scale in *.
  split_and!.
  - intros H2. rewrite decide_True in Hms, Hpad, Hmod by done.
    destruct Hpad as [Hph Hpw]. destruct (Hmod 2 eq_refl ltac:(lia)) as [[? ?] [? ?]].
    split_and!; try done; try lia.
    + rewrite Hph. f_equal. lia.
    + rewrite Hpw. f_equal. lia.
  - intros H1. rewrite decide_False, decide_True in Hms, Hpad, Hmod by lia.
    destruct Hpad as [Hph Hpw]. destruct (Hmod 4 eq_refl ltac:(lia)) as [[? ?] [? ?]].
    split_and!; try done; try lia.
    + rewrite Hph. f_equal. lia.
    + rewrite Hpw. f_equal. lia.
  - intros H2 H1 Hnone. rewrite !decide_False, Hnone in Hms, Hpad by done.
    destruct Hpad as [-> ->]. split; [done|lia].
Qed.

Lemma pre_process_alignment_witness :
  let σ := Sample.state_with (Sample.upsampler 2 0 10 1 None (Sample.nn_up 2))
             [Sample.ramp 2 3 1] in
  ∃ σ1 t,
    pre_process (whole 0 [2; 3; 1]) σ = (inr tt, σ1) ∧
    img (self σ1) = Some t ∧
    h_shape t = [1; 1; 4; 4] ∧
    mod_pad_h (self σ1) = Some 1 ∧
    mod_pad_w (self σ1) = Some 0.
Proof.
  intros σ.
  destruct (pre_process (whole 0 [2; 3; 1]) σ) as [[e|[]] σ1] eqn:Hrun.
  - exfalso.
    assert (match (pre_process (whole 0 [2; 3; 1]) σ).1 with
            | inr _ => True | inl _ => False end) as H by (vm_compute; exact I).
    rewrite Hrun in H. exact H.
  - destruct (pre_process_alignment false (whole 0 [2; 3; 1]) σ σ1 2 3 1 eq_refl Hrun)
      as (t & H & W & Ht & Hs & Ha & _ & _).
    destruct (Ha eq_refl) as (_ & [Hm1 Hb1] & [Hm2 Hb2] & Hph & Hpw).
    simpl in Hb1, Hb2.
    assert (H = 4) as -> by (apply Z.mod_divide in Hm1 as [k ->]; lia).
    assert (W = 4) as -> by (apply Z.mod_divide in Hm2 as [k ->]; lia).
    exists σ1, t. split; [reflexivity|]. split; [exact Ht|]. split; [exact Hs|].
    split; [exact Hph|exact Hpw].
Defined.

Section Conversions.
Variable h0 : store.
Variable i0 : instance.

(** Conversions do not raise. *)
Lemma wp_to_dtype_shape t h Q X σ :
  (∀ h' hp, h_shape h' = h_shape h → Q h' (mk_state (self σ) hp (trace σ))) →
  wp h0 i0 (to_dtype t h) Q X σ.
Proof.
  intros HQ. unfold to_dtype.
  apply wp_bind, wp_load. intros a Ha _.
  case_decide.
  - apply wp_ret. destruct σ. by apply HQ.
  - apply wp_alloc. intros h' _ Hs _. apply HQ. simpl in Hs. congruence.
Qed.

Lemma wp_to_device_shape from to h Q X σ :
  (∀ h' hp, h_shape h' = h_shape h → Q h' (mk_state (self σ) hp (trace σ))) →
  wp h0 i0 (to_device from to h) Q X σ.
Proof.
  intros HQ. unfold to_device. case_decide.
  - apply wp_ret. destruct σ. by apply HQ.
  - apply wp_bind, wp_load. intros a Ha _.
    apply wp_alloc. intros h' _ Hs _. apply HQ. congruence.
Qed.

End Conversions.

Lemma F_pad_reflect_small pw ph a n c h w :
  shape a = [n; c; h; w] → w ≤ pw ∨ h ≤ ph →
  ∃ msg, F_pad_reflect pw ph a = inl (RuntimeError msg).
Proof.
  intros Hs Hsmall. unfold F_pad_reflect. rewrite Hs.
  destruct (pw <? w) eqn:H1; destruct (ph <? h) eqn:H2; simpl; eauto.
  lia.
Qed.

(** Images no larger than the pre-pad.  Reflection padding in torch
    needs a pad smaller than the extent it pads.  So with a pre-pad
    [p] that is not 0 (the default is 10), [pre_process] raises
    [RuntimeError] on every image of at most [p] rows or at most [p]
    columns. *)
Theorem pre_process_small_image (x : handle) (σ : state) (hh ww cc : Z) (d : device_t) :
  h_shape x = [hh; ww; cc] →
  device (self σ) = Some d →
  pre_pad (self σ) ≠ 0 →
  hh ≤ pre_pad (self σ) ∨ ww ≤ pre_pad (self σ) →
  ∃ msg, (pre_process x σ).1 = inl (RuntimeError msg).
Proof.
  intros Hx Hd Hp Hsmall.
  destruct (wp_raises (heap σ) (self σ) (pre_process x)
              (λ e _, ∃ msg, e = RuntimeError msg) σ) as (e & He & msg & ->);
    [|apply inv_refl|by exists msg].
  unfold pre_process.
  apply wp_bind. eapply wp_lift_inr.
  { unfold v_transpose. rewrite decide_True; [done|by rewrite Hx]. }
  apply wp_bind, wp_to_dtype_shape. intros t1 hp1 Hs1. simpl in Hs1. rewrite Hx in Hs1.
  change (h_shape t1 = [cc; hh; ww]) in Hs1.
  apply wp_bind, (wp_attr_Some _ _ _ _ d); [done|].
  apply wp_bind, wp_to_device_shape. intros t2 hp2 Hs2. simpl in Hs2. rewrite Hs1 in Hs2.
  apply wp_bind, wp_modify_self; [done|].
  apply wp_bind, wp_get_self. wp_simpl.
  apply wp_bind.
  eapply wp_conseq with
    (Q := λ _ σ', pre_pad (self σ') = pre_pad (self σ) ∧
                  ∃ t, img (self σ') = Some t ∧ h_shape t = [1; cc; hh; ww])
    (X := λ e _, ∃ msg, e = RuntimeError msg); [| |done].
  { apply wp_when; intros _.
    - apply wp_bind, (wp_attr_Some _ _ _ _ t2); [done|].
      apply wp_bind, wp_to_dtype_shape. intros t3 hp3 Hs3.
      apply wp_modify_self; [done|]. wp_simpl. split; [done|]. exists t3.
      split; [done|congruence].
    - wp_simpl. split; [done|]. by exists t2. }
  intros _ σ1 _ (Hpp & t & Ht & Hts).
  apply wp_bind, wp_when; [intros _|intros Hz].
  - apply wp_bind, (wp_attr_Some _ _ _ _ t); [done|].
    apply wp_bind, wp_load. intros a Ha _.
    destruct (F_pad_reflect_small (pre_pad (self σ)) (pre_pad (self σ)) a 1 cc hh ww)
      as [msg Hmsg]; [congruence|tauto|].
    apply wp_bind. rewrite Hmsg. apply wp_raise. by exists msg.
  - by apply bool_decide_eq_false in Hz; destruct Hz.
Qed.

Lemma pre_process_small_image_witness :
  let σ := Sample.state_with (Sample.upsampler 4 0 10 10 None (Sample.nn_up 4))
             [Sample.ramp 10 64 3] in
  ∃ msg, (pre_process (whole 0 [10; 64; 3]) σ).1 = inl (RuntimeError msg).
Proof.
  intros σ.
  apply (pre_process_small_image (whole 0 [10; 64; 3]) σ 10 64 3 Cpu);
    [reflexivity|reflexivity|discriminate|left; simpl; lia].
Defined.

Lemma np_pad_reflect_inr ph pw a n c h w :
  shape a = [n; c; h; w] → 0 ≤ ph → 0 ≤ pw → 1 ≤ h → 1 ≤ w →
  ∃ a', np_pad_reflect ph pw a = inr a' ∧ shape a' = [n; c; h + ph; w + pw].
Proof.
  intros Hs Hph Hpw Hh Hw. unfold np_pad_reflect. rewrite Hs.
  destruct (ph <? 0) eqn:H1; [lia|]. destruct (pw <? 0) eqn:H2; [lia|].
  destruct (h =? 0) eqn:H3; [lia|]. destruct (w =? 0) eqn:H4; [lia|].
  simpl. eauto.
Qed.

Section NumpyTotal.
Variable h0 : store.
Variable i0 : instance.

Lemma wp_np_pad_total (ph pw : Z) t n c h w (Q : unit → state → Prop) σ :
  img (self σ) = Some t →
  h_shape t = [n; c; h; w] →
  0 ≤ ph → 0 ≤ pw → 1 ≤ h → 1 ≤ w →
  (∀ t' hp, h_shape t' = [n; c; h + ph; w + pw] →
     Q tt (mk_state (set_img t' (self σ)) hp (trace σ))) →
  wp h0 i0
    (let* t := attr "img" img in
     let* a := load t in
     let* a' := lift (np_pad_reflect ph pw a) in
     let* t' := alloc a' in
     modify_self (set_img t')) Q no_exn σ.
Proof.
  intros Ht Hs Hph Hpw Hh Hw HQ.
  apply wp_bind, (wp_attr_Some _ _ _ _ t); [done|].
  apply wp_bind, wp_load. intros a Ha _.
  destruct (np_pad_reflect_inr ph pw a n c h w) as (a' & Hpad & Hs'); [congruence|done..|].
  apply wp_bind, (wp_lift_inr _ _ _ a'); [done|].
  apply wp_bind, wp_alloc. intros t' _ Ht' _.
  apply wp_modify_self; [done|]. wp_simpl. apply HQ. congruence.
Qed.

Lemma wp_mod_pad_numpy_total t n c h w σ :
  img (self σ) = Some t →
  h_shape t = [n; c; h; w] →
  1 ≤ h → 1 ≤ w →
  (∀ m, next_mod_scale (self σ) = Some m → 0 < m) →
  wp h0 i0 (mod_pad np_pad_reflect) (λ _ _, True) no_exn σ.
Proof.
  intros Ht Hs Hh Hw Hm. unfold mod_pad.
  apply wp_bind, wp_get_self.
  apply wp_bind.
  eapply wp_conseq with
    (Q := λ _ σ', img (self σ') = Some t ∧ mod_scale (self σ') = next_mod_scale (self σ))
    (X := no_exn); [| |done].
  { unfold next_mod_scale. repeat case_decide.
    - by apply wp_modify_self.
    - by apply wp_modify_self.
    - by apply wp_ret. }
  intros _ σ1 _ [Ht1 Hms]. wp_simpl.
  apply wp_bind, wp_get_self. rewrite Hms.
  destruct (next_mod_scale (self σ)) as [m|] eqn:Hn; [|by apply wp_ret].
  specialize (Hm m eq_refl).
  pose proof (Z.mod_pos_bound h m Hm). pose proof (Z.mod_pos_bound w m Hm).
  apply wp_bind, wp_modify_self; [done|].
  apply wp_bind, wp_modify_self; [done|]. wp_simpl.
  apply wp_bind, (wp_attr_Some _ _ _ _ t); [done|]. rewrite Hs.
  apply wp_bind. rewrite bool_decide_eq_false_2 by lia. apply wp_ret.
  apply wp_bind.
  eapply wp_conseq with
    (Q := λ _ σ', ∃ ph, 0 ≤ ph ∧ σ' = mk_state (set_mod_pad_h ph
                     (set_mod_pad_w 0 (self σ1))) (heap σ1) (trace σ1))
    (X := no_exn); [| |done].
  { apply wp_when; intros _.
    - apply wp_modify_self; [done|]. wp_simpl. exists (m - h `mod` m). split; [lia|].
      by destruct σ1 as [[] ? ?].
    - exists 0. split; [lia|]. done. }
  intros _ σ2 _ (ph & Hph & ->).
  apply wp_bind.
  eapply wp_conseq with
    (Q := λ _ σ', ∃ pw, 0 ≤ pw ∧ σ' = mk_state (set_mod_pad_w pw (set_mod_pad_h ph
                     (set_mod_pad_w 0 (self σ1)))) (heap σ1) (trace σ1))
    (X := no_exn); [| |done].
  { apply wp_when; intros _.
    - apply wp_modify_self; [done|]. wp_simpl. exists (m - w `mod` m). split; [lia|done].
    - exists 0. split; [lia|]. by destruct σ1 as [[] ? ?]. }
  intros _ σ3 _ (pw & Hpw & ->).
  apply wp_bind, (wp_attr_Some _ _ _ _ ph); [done|].
  apply wp_bind, (wp_attr_Some _ _ _ _ pw); [done|].
  apply wp_bind, wp_load. intros a Ha _.
  destruct (np_pad_reflect_inr ph pw a n c h w) as (a' & Hpad & Hs'); [congruence|done..|].
  apply wp_bind, (wp_lift_inr _ _ _ a'); [done|].
  apply wp_bind, wp_alloc. intros t' _ Ht' _.
  by apply wp_modify_self.
Qed.

End NumpyTotal.

(** The numpy pre-processing returns.  [np.pad] reflects as often as
    needed, so [pre_process_numpy] (the onnx and triton backends) has
    no lower limit on the image size: for every image of at least one
    pixel, a pre-pad [p >= 0] and no non-positive alignment divisor left
    by an earlier call, it returns, and [self.img] is the padded
    tensor. *)
Theorem pre_process_numpy_total (x : handle) (σ : state) (hh ww cc : Z) :
  h_shape x = [hh; ww; cc] →
  1 ≤ hh → 1 ≤ ww →
  0 ≤ pre_pad (self σ) →
  (∀ m, mod_scale (self σ) = Some m → 0 < m) →
  ∃ σ1 t, pre_process_numpy x σ = (inr tt, σ1) ∧ img (self σ1) = Some t.
Proof.
  intros Hx Hh Hw Hp Hm.
  destruct (wp_total (heap σ) (self σ) (pre_process_numpy x) (λ _ _, True) σ)
    as ([] & σ1 & Hrun & _ & _); [|apply inv_refl|].
  2: { exists σ1.
       destruct (wp_returns (heap σ) (self σ) (pre_process_numpy x)
                   (λ _ σ', ∃ t, img (self σ') = Some t) any_exn σ tt σ1) as [t Ht];
         [|apply inv_refl|exact Hrun|by exists t].
       apply wp_pre_process_numpy. intros. eauto. }
  unfold pre_process_numpy.
  apply wp_bind. eapply wp_lift_inr.
  { unfold v_transpose. rewrite decide_True; [done|by rewrite Hx]. }
  apply wp_bind, wp_get_self.
  apply wp_bind.
  eapply wp_conseq with
    (Q := λ t σ', self σ' = self σ ∧ h_shape t = [1; cc; hh; ww]) (X := no_exn); [| |done].
  { destruct (half (self σ)).
    - apply wp_bind, wp_load. intros a Ha _. apply wp_alloc. intros t _ Ht _.
      split; [done|]. simpl in *. rewrite Ht, Ha, Hx. done.
    - apply wp_ret. split; [done|]. simpl. by rewrite Hx. }
  intros t σ0 _ [Hself Ht].
  apply wp_bind, wp_modify_self; [done|]. rewrite Hself.
  assert (∀ m, next_mod_scale (self σ) = Some m → 0 < m) as Hm'.
  { intros m. unfold next_mod_scale. repeat case_decide; [intros [= <-]; lia..|apply Hm]. }
  apply wp_bind, wp_when; intros _.
  - apply (wp_np_pad_total _ _ _ _ t 1 cc hh ww); try done.
    intros t' hp Ht'.
    apply (wp_mod_pad_numpy_total _ _ t' 1 cc (hh + pre_pad (self σ)) (ww + pre_pad (self σ)));
      try done; lia.
  - by apply (wp_mod_pad_numpy_total _ _ t 1 cc hh ww).
Qed.

Lemma pre_process_numpy_total_witness :
  let σ := Sample.state_with (Sample.onnx_upsampler 4 0 10 10 (Sample.nn_up 4))
             [Sample.ramp 1 1 3] in
  ∃ σ1 t, pre_process_numpy (whole 0 [1; 1; 3]) σ = (inr tt, σ1) ∧
          img (self σ1) = Some t ∧ h_shape t = [1; 3; 11; 11].
Proof.
  intros σ.
  destruct (pre_process_numpy_total (whole 0 [1; 1; 3]) σ 1 1 3)
    as (σ1 & t & Hrun & Ht); [reflexivity|lia|lia|simpl; lia|discriminate|].
  exists σ1, t. split; [exact Hrun|]. split; [exact Ht|].
  assert ((h_shape <$> img (self (pre_process_numpy (whole 0 [1; 1; 3]) σ).2))
          = Some [1; 3; 11; 11]) as Hs by (vm_compute; reflexivity).
  rewrite Hrun in Hs. simpl in Hs. rewrite Ht in Hs. by injection Hs.
Defined.

(** ** More on the weights *)

Section InitFacts.
Context `{E : Externals}.

Lemma dni_inr net_a_path net_b_path ws key r :
  dni net_a_path net_b_path ws key = inr r →
  ∃ net_a merged, torch_load net_a_path = inr net_a ∧ r = <[key := merged]> net_a.
Proof.
  unfold dni. destruct (torch_load net_a_path) as [|net_a]; [done|]. simpl.
  destruct (torch_load net_b_path) as [|net_b]; [done|]. simpl.
  destruct (getitem net_a key) as [|a]; [done|]. simpl.
  destruct (dni_loop ws net_b key a) as [|merged]; [done|]. simpl.
  intros [= <-]. eauto.
Qed.

(** Interpolation and the averaged weights.  [dni] interpolates the
    "params" entries, and [__init__] prefers "params_ema": when
    [model_path] is a list and the checkpoint of its first path has an
    entry "params_ema", the model is loaded with that entry as it is in
    the file, whatever the weights [dni_weight] and the second
    checkpoint are. *)
Theorem init_dni_uses_params_ema (a : init_args) (model : module) (ps : list string)
    (ws : list Q) (p0 : string) (net_a loadnet : gmap string (gmap string param))
    (ema : gmap string param) :
  arg_backend a = "torch" →
  arg_model a = Some model →
  arg_model_path a = Some (Paths ps) →
  arg_dni_weight a = Some ws →
  ps !! 0%nat = Some p0 →
  torch_load p0 = inr net_a →
  net_a !! "params_ema" = Some ema →
  load_checkpoint a = inr loadnet →
  loadnet !! "params_ema" = Some ema ∧
  init a
  = rbind (load_state_dict model ema) (λ m,
      inr (with_net (choose_device a) (forward m (choose_device a) (arg_half a))
             (init_fields a))).
Proof.
  intros Hb Hm Hps Hws Hp0 Hload Hema Hck.
  assert (loadnet !! "params_ema" = Some ema) as Hl.
  { unfold load_checkpoint in Hck. rewrite Hps, Hws in Hck.
    case_decide; [|done]. unfold subscript in Hck. rewrite Hp0 in Hck. simpl in Hck.
    destruct (ps !! 1%nat) as [p1|]; [|done]. simpl in Hck.
    apply dni_inr in Hck as (net_a' & merged & Hload' & ->).
    rewrite Hload in Hload'. simplify_eq. by rewrite lookup_insert_ne. }
  split; [done|].
  unfold init. rewrite Hb, Hm, Hck. simpl.
  unfold keyname, getitem. rewrite decide_True by (rewrite Hl; eauto). by rewrite Hl.
Qed.

End InitFacts.

Lemma init_dni_uses_params_ema_witness :
  let a := mk_init_args (E := Sample.externals) 2 (Some (Paths ["ema.pth"; "b.pth"]))
             (Some [3 # 10; 7 # 10]%Q) (Some ∅) 0 10 10 false None None "torch"
             None None None None None None in
  ∃ loadnet,
    load_checkpoint a = inr loadnet ∧
    loadnet !! "params_ema" = Some {[ "w" := 5%Q ]} ∧
    init a = inr (with_net Cpu (Sample.nn_up 2) (init_fields a)).
Proof.
  intros a.
  destruct (load_checkpoint a) as [e|loadnet] eqn:Hck.
  - exfalso.
    assert (match load_checkpoint a with inr _ => True | inl _ => False end) as H
      by (vm_compute; exact I).
    rewrite Hck in H. exact H.
  - exists loadnet.
    destruct (init_dni_uses_params_ema (E := Sample.externals) a ∅ ["ema.pth"; "b.pth"]
                [3 # 10; 7 # 10]%Q "ema.pth"
                (<[ "params_ema" := {[ "w" := 5%Q ]} ]> {[ "params" := {[ "w" := 1%Q ]} ]})
                loadnet {[ "w" := 5%Q ]} eq_refl eq_refl eq_refl eq_refl eq_refl eq_refl
                eq_refl Hck) as [Hema Hinit].
    split; [reflexivity|]. split; [exact Hema|exact Hinit].
Defined.

Section DniFacts.
Context `{E : Externals}.

(** A parameter the second checkpoint does not have.  [dni] looks every
    key of the first checkpoint's parameters up in the second's.  If
    one of them is missing there, [dni] fails: with the [KeyError] of a
    missing key, unless the sum for another key failed before (tensors
    of different shapes), in which case with the error of that sum. *)
Theorem dni_missing_key (path_a path_b : string)
    (net_a net_b : gmap string (gmap string param)) (a b : gmap string param)
    (w0 w1 : Q) (key k0 : string) :
  torch_load path_a = inr net_a →
  torch_load path_b = inr net_b →
  net_a !! key = Some a →
  net_b !! key = Some b →
  is_Some (a !! k0) →
  b !! k0 = None →
  ∃ e, dni path_a path_b [w0; w1] key = inl e ∧
    ((∃ k, e = KeyError k ∧ is_Some (a !! k) ∧ b !! k = None) ∨
     (∃ k va vb, a !! k = Some va ∧ b !! k = Some vb ∧
        param_add (param_scale w0 va) (param_scale w1 vb) = inl e)).
Proof.
  intros Ha Hb Hpa Hpb Hk0 Hk0'.
  set (bad := λ e : exn,
    (∃ k, e = KeyError k ∧ is_Some (a !! k) ∧ b !! k = None) ∨
    (∃ k va vb, a !! k = Some va ∧ b !! k = Some vb ∧
       param_add (param_scale w0 va) (param_scale w1 vb) = inl e)).
  pose (P := λ (r : result (gmap string param)) (m : gmap string param),
          m ⊆ a → match r with
                  | inr _ => ∀ k, is_Some (m !! k) → is_Some (b !! k)
                  | inl e => bad e
                  end).
  assert (P (dni_loop [w0; w1] net_b key a) a) as Hloop.
  { unfold dni_loop. apply (map_fold_weak_ind P _ (inr a)); unfold P.
    - intros _ k [? Hk]. by rewrite lookup_empty in Hk.
    - intros i x m r Hi IH Hsub.
      assert (a !! i = Some x) as Hai.
      { eapply lookup_weaken; [|exact Hsub]. apply lookup_insert_eq. }
      assert (m ⊆ a) as Hsub' by (etrans; [|exact Hsub]; by apply insert_subseteq).
      specialize (IH Hsub'). destruct r as [e|merged]; [done|]. simpl.
      unfold dni_assign, getitem. simpl. rewrite Hpb. simpl.
      destruct (b !! i) as [vb|] eqn:Hbi; simpl.
      + destruct (param_add _ _) as [e|v] eqn:Hadd; simpl.
        * right. by exists i, x, vb.
        * intros k. destruct (decide (i = k)) as [<-|Hne]; [by rewrite Hbi|].
          rewrite lookup_insert_ne by done. apply IH.
      + left. exists i. split; [done|]. by rewrite Hai. }
  unfold P in Hloop. specialize (Hloop (reflexivity a)).
  unfold dni. rewrite Ha, Hb. simpl. unfold getitem at 1. rewrite Hpa. simpl.
  destruct (dni_loop [w0; w1] net_b key a) as [e|merged].
  - exists e. by split.
  - destruct (Hloop k0 Hk0) as [? Hc]. by rewrite Hk0' in Hc.
Qed.

End DniFacts.

Lemma dni_missing_key_witness :
  dni (E := Sample.renamed) "a.pth" "c.pth" [3 # 10; 7 # 10]%Q "params" = inl (KeyError "w").
Proof.
  destruct (dni_missing_key (E := Sample.renamed) "a.pth" "c.pth"
              {[ "params" := {[ "w" := 1%Q ]} ]} {[ "params" := {[ "weight" := 2%Q ]} ]}
              {[ "w" := 1%Q ]} {[ "weight" := 2%Q ]} (3 # 10)%Q (7 # 10)%Q "params" "w"
              eq_refl eq_refl eq_refl eq_refl (ex_intro _ 1%Q eq_refl) eq_refl)
    as (e & -> & [(k & -> & [va Hk] & _)|(k & va & vb & Hk & Hk' & _)]).
  - by apply lookup_singleton_Some in Hk as [<- _].
  - apply lookup_singleton_Some in Hk as [<- _]. discriminate Hk'.
Defined.

(** ** More on the prefetch pipeline *)

Lemma queue_bound_step imread t σ σ' :
  PrefetchReader.step imread t σ = Some σ' →
  PrefetchReader.maxsize σ' = PrefetchReader.maxsize σ ∧
  (0 < PrefetchReader.maxsize σ →
   Z.of_nat (length (PrefetchReader.que σ)) ≤ PrefetchReader.maxsize σ →
   Z.of_nat (length (PrefetchReader.que σ')) ≤ PrefetchReader.maxsize σ).
Proof.
  intros Hstep. destruct t; simpl in Hstep.
  - unfold PrefetchReader.run_step in Hstep.
    destruct (PrefetchReader.running σ); [|done].
    destruct (PrefetchReader.full σ) eqn:Hfull; [done|].
    unfold PrefetchReader.full in Hfull.
    destruct (PrefetchReader.todo σ); simplify_eq; simpl;
      (split; [done|]); intros; rewrite length_app; simpl; lia.
  - unfold PrefetchReader.next_step in Hstep.
    destruct (PrefetchReader.stopped σ); [done|].
    destruct (PrefetchReader.que σ) as [|[im|] q] eqn:Hq; simplify_eq; simpl;
      (split; [done|]); intros; lia.
Qed.

Lemma queue_bound_run imread img_list num_prefetch_queue sched σ :
  0 < num_prefetch_queue →
  PrefetchReader.run_schedule imread sched
    (PrefetchReader.init img_list num_prefetch_queue) = Some σ →
  Z.of_nat (length (PrefetchReader.que σ)) ≤ num_prefetch_queue.
Proof.
  intros HN Hrun.
  cut (PrefetchReader.maxsize σ = num_prefetch_queue ∧
       Z.of_nat (length (PrefetchReader.que σ)) ≤ num_prefetch_queue); [by intros []|].
  revert Hrun.
  cut (∀ σ0, PrefetchReader.maxsize σ0 = num_prefetch_queue →
             Z.of_nat (length (PrefetchReader.que σ0)) ≤ num_prefetch_queue →
             PrefetchReader.run_schedule imread sched σ0 = Some σ →
             PrefetchReader.maxsize σ = num_prefetch_queue ∧
             Z.of_nat (length (PrefetchReader.que σ)) ≤ num_prefetch_queue).
  { intros H. apply H; simpl; [done|lia]. }
  induction sched as [|t sched IH]; intros σ0 Hm Hl Hrun; simpl in Hrun.
  - by simplify_eq.
  - destruct (PrefetchReader.step imread t σ0) as [σ1|] eqn:Hstep; [|done].
    destruct (queue_bound_step _ _ _ _ Hstep) as [Hm1 Hl1].
    apply (IH σ1); [congruence| |done]. rewrite <- Hm. apply Hl1; lia.
Qed.

(** Back-pressure.  With a positive bound [num_prefetch_queue], in every
    state the two threads can reach the queue holds at most that many
    items, so the producer has put at most that many items more than the
    iterating thread has taken; and what was put is what was taken
    followed by what is queued. *)
Theorem prefetch_queue_bounded (imread : string → option array) (img_list : list string)
    (num_prefetch_queue : Z) (sched : list PrefetchReader.thread) (σ : PrefetchReader.sys) :
  0 < num_prefetch_queue →
  PrefetchReader.run_schedule imread sched
    (PrefetchReader.init img_list num_prefetch_queue) = Some σ →
  Z.of_nat (length (PrefetchReader.que σ)) ≤ num_prefetch_queue ∧
  PrefetchReader.pushed σ = PrefetchReader.taken σ ++ PrefetchReader.que σ ∧
  Z.of_nat (length (PrefetchReader.pushed σ))
    ≤ Z.of_nat (length (PrefetchReader.taken σ)) + num_prefetch_queue.
Proof.
  intros HN Hrun.
  pose proof (queue_bound_run _ _ _ _ _ HN Hrun) as Hq.
  destruct (PrefetchReaderFacts.inv_run imread img_list num_prefetch_queue sched _ σ
              (PrefetchReaderFacts.inv_init imread img_list num_prefetch_queue) Hrun)
    as (_ & Hb & _).
  split; [done|]. split; [done|]. rewrite Hb, length_app. lia.
Qed.

Lemma prefetch_queue_bounded_witness :
  let sched := [PrefetchReader.Producer; PrefetchReader.Consumer; PrefetchReader.Producer] in
  let σ := PrefetchReader.mk_sys [] true [Some Sample.picture] 1
             [Some Sample.picture; Some Sample.picture] [Sample.picture] false in
  PrefetchReader.run_schedule Sample.imread sched
    (PrefetchReader.init ["ok.png"; "ok.png"] 1) = Some σ ∧
  PrefetchReader.step Sample.imread PrefetchReader.Producer σ = None ∧
  Z.of_nat (length (PrefetchReader.que σ)) ≤ 1.
Proof.
  intros sched σ.
  assert (PrefetchReader.run_schedule Sample.imread sched
            (PrefetchReader.init ["ok.png"; "ok.png"] 1) = Some σ) as Hrun
    by (vm_compute; reflexivity).
  split; [exact Hrun|]. split; [reflexivity|].
  destruct (prefetch_queue_bounded Sample.imread ["ok.png"; "ok.png"] 1 sched σ
              ltac:(lia) Hrun) as (Hq & _ & _).
  exact Hq.
Defined.

(** A path that does not decode.  [cv2.imread] returns [None] for it,
    which [run] puts on the queue and [__next__] takes for the end of
    the sequence.  If [p] is the first such path, after the paths [l1]
    and before the paths [l2], then under every interleaving and queue
    bound: iteration yields an initial part of the images of [l1]; once
    it has ended it has yielded exactly the images of [l1], and the
    images of [l2] and the sentinel are still queued or not put yet
    (they are never taken); and a state in which neither thread can
    move has the iteration ended. *)
Theorem prefetch_reader_undecodable (imread : string → option array)
    (l1 l2 : list string) (p : string) (num_prefetch_queue : Z)
    (sched : list PrefetchReader.thread) (σ : PrefetchReader.sys) :
  Forall (λ q, is_Some (imread q)) l1 →
  imread p = None →
  PrefetchReader.run_schedule imread sched
    (PrefetchReader.init (l1 ++ p :: l2) num_prefetch_queue) = Some σ →
  PrefetchReader.yielded σ `prefix_of` PrefetchReader.decoded imread l1 ∧
  (PrefetchReader.stopped σ = true →
     PrefetchReader.yielded σ = PrefetchReader.decoded imread l1 ∧
     PrefetchReader.que σ ++ PrefetchReader.pending imread σ = (imread <$> l2) ++ [None]) ∧
  (PrefetchReader.terminal imread σ → PrefetchReader.stopped σ = true).
Proof.
  intros Hdec Hp Hrun.
  pose proof (PrefetchReaderFacts.inv_run imread _ num_prefetch_queue sched _ σ
                (PrefetchReaderFacts.inv_init imread _ num_prefetch_queue) Hrun) as Hinv.
  split; [|split].
  - destruct Hinv as (Ha & Hb & _).
    rewrite Hb, fmap_app, (PrefetchReaderFacts.fmap_imread_omap imread l1 Hdec) in Ha.
    simpl in Ha. rewrite Hp, <- !app_assoc in Ha. simpl in Ha.
    unfold PrefetchReader.taken in Ha. rewrite <- app_assoc in Ha.
    destruct (PrefetchReaderFacts.somes_prefix _ _ _ _ Ha) as [Hpre|[l Hl]]; [done|].
    rewrite Hl, fmap_app, <- app_assoc in Ha. apply app_inv_head in Ha.
    destruct l as [|y l]; [|done]. rewrite app_nil_r in Hl. by rewrite Hl.
  - intros Hs. destruct Hinv as (Ha & Hb & _).
    rewrite Hb, fmap_app, (PrefetchReaderFacts.fmap_imread_omap imread l1 Hdec) in Ha.
    simpl in Ha. rewrite Hp, <- !app_assoc in Ha. simpl in Ha.
    unfold PrefetchReader.taken in Ha. rewrite Hs, <- app_assoc in Ha. simpl in Ha.
    by apply PrefetchReaderFacts.somes_sentinel_inj in Ha.
  - by eapply PrefetchReaderFacts.inv_terminal.
Qed.

Lemma prefetch_reader_undecodable_witness :
  let img_list := ["ok.png"; "missing.png"; "ok.png"] in
  let sched := [PrefetchReader.Producer; PrefetchReader.Producer; PrefetchReader.Consumer;
                PrefetchReader.Consumer; PrefetchReader.Producer; PrefetchReader.Producer] in
  let σ := PrefetchReader.mk_sys [] false [Some Sample.picture; None] 0
             [Some Sample.picture; None; Some Sample.picture; None] [Sample.picture] true in
  PrefetchReader.run_schedule Sample.imread sched (PrefetchReader.init img_list 0) = Some σ ∧
  PrefetchReader.terminal Sample.imread σ ∧
  PrefetchReader.yielded σ = PrefetchReader.decoded Sample.imread ["ok.png"].
Proof.
  intros img_list sched σ.
  assert (PrefetchReader.run_schedule Sample.imread sched (PrefetchReader.init img_list 0)
          = Some σ) as Hrun by (vm_compute; reflexivity).
  split; [exact Hrun|]. split; [split; reflexivity|].
  destruct (prefetch_reader_undecodable Sample.imread ["ok.png"] ["ok.png"] "missing.png" 0
              sched σ) as (_ & Hs & _).
  - apply List.Forall_cons; [by exists Sample.picture|]. apply List.Forall_nil.
  - reflexivity.
  - exact Hrun.
  - destruct (Hs eq_refl) as [Hy _]. exact Hy.
Defined.

(** The producer left behind.  Let [p] be the first path that does not
    decode, after the paths [l1] and before the paths [l2], and let the
    queue be bounded by [num_prefetch_queue > 0] with at least that
    many paths in [l2].  Then in every state in which neither thread
    can move, iteration has ended while the producer has not finished:
    it waits in [put] on a full queue that nobody reads, so the thread
    never ends. *)
Theorem prefetch_reader_producer_blocked (imread : string → option array)
    (l1 l2 : list string) (p : string) (num_prefetch_queue : Z)
    (sched : list PrefetchReader.thread) (σ : PrefetchReader.sys) :
  Forall (λ q, is_Some (imread q)) l1 →
  imread p = None →
  0 < num_prefetch_queue →
  num_prefetch_queue ≤ Z.of_nat (length l2) →
  PrefetchReader.run_schedule imread sched
    (PrefetchReader.init (l1 ++ p :: l2) num_prefetch_queue) = Some σ →
  PrefetchReader.terminal imread σ →
  PrefetchReader.stopped σ = true ∧
  PrefetchReader.running σ = true ∧
  PrefetchReader.full σ = true.
Proof.
  intros Hdec Hp HN Hl2 Hrun Hterm.
  pose proof (PrefetchReaderFacts.inv_run imread _ num_prefetch_queue sched _ σ
                (PrefetchReaderFacts.inv_init imread _ num_prefetch_queue) Hrun) as Hinv.
  pose proof (queue_bound_run _ _ _ _ _ HN Hrun) as Hq.
  pose proof (PrefetchReaderFacts.inv_terminal _ _ _ _ Hinv Hterm) as Hs.
  destruct Hinv as (Ha & Hb & Hc & Hd).
  rewrite Hb, fmap_app, (PrefetchReaderFacts.fmap_imread_omap imread l1 Hdec) in Ha.
  simpl in Ha. rewrite Hp, <- !app_assoc in Ha. simpl in Ha.
  unfold PrefetchReader.taken in Ha. rewrite Hs, <- app_assoc in Ha. simpl in Ha.
  apply PrefetchReaderFacts.somes_sentinel_inj in Ha as [_ Hrest].
  assert (PrefetchReader.running σ = true) as Hr.
  { destruct (PrefetchReader.running σ) eqn:Hr; [done|]. exfalso.
    apply (f_equal length) in Hrest. unfold PrefetchReader.pending in Hrest.
    rewrite Hr, (Hc eq_refl) in Hrest.
    rewrite !length_app, !length_fmap in Hrest. simpl in Hrest. lia. }
  split; [done|]. split; [done|].
  destruct Hterm as [Hstep _]. unfold PrefetchReader.run_step in Hstep.
  rewrite Hr in Hstep. destruct (PrefetchReader.full σ); [done|].
  by destruct (PrefetchReader.todo σ).
Qed.

Lemma prefetch_reader_producer_blocked_witness :
  let sched := [PrefetchReader.Producer; PrefetchReader.Consumer; PrefetchReader.Producer] in
  let σ := PrefetchReader.mk_sys [] true [Some Sample.picture] 1
             [None; Some Sample.picture] [] true in
  PrefetchReader.run_schedule Sample.imread sched
    (PrefetchReader.init ["missing.png"; "ok.png"] 1) = Some σ ∧
  PrefetchReader.terminal Sample.imread σ ∧
  PrefetchReader.running σ = true.
Proof.
  intros sched σ.
  assert (PrefetchReader.run_schedule Sample.imread sched
            (PrefetchReader.init ["missing.png"; "ok.png"] 1) = Some σ) as Hrun
    by (vm_compute; reflexivity).
  assert (PrefetchReader.terminal Sample.imread σ) as Hterm by (split; reflexivity).
  split; [exact Hrun|]. split; [exact Hterm|].
  destruct (prefetch_reader_producer_blocked Sample.imread [] ["ok.png"] "missing.png" 1
              sched σ) as (_ & Hr & _).
  - apply List.Forall_nil.
  - reflexivity.
  - lia.
  - simpl. lia.
  - exact Hrun.
  - exact Hterm.
  - exact Hr.
Defined.

(** ** The saving thread *)

(** The consumer saves in order of arrival and stops at "quit".  Let
    the messages be save requests, for which [cv2.imwrite] returns,
    followed by the string "quit" and by any further messages.  Then
    [run] writes the files of the requests in their order, leaves the
    loop (and reports that the worker is done), and leaves the further
    messages on the queue.  Without the "quit", it has written the same
    files and waits in [get]; and a string other than "quit" ends the
    thread with a [TypeError]. *)
Theorem io_consumer_run (imwrite : IOConsumer.value → IOConsumer.value → result bool)
    (items : list (string * array)) (rest : list IOConsumer.msg)
    (written : list (IOConsumer.value * IOConsumer.value)) (s : string) :
  Forall (λ '(p, a), ∃ b, imwrite (IOConsumer.Str p) (IOConsumer.Image a) = inr b) items →
  let requests := (λ '(p, a), IOConsumer.save p a) <$> items in
  let files := (λ '(p, a), (IOConsumer.Str p, IOConsumer.Image a)) <$> items in
  IOConsumer.run imwrite (requests ++ IOConsumer.MsgStr "quit" :: rest) written
  = (IOConsumer.Done, written ++ files, rest) ∧
  IOConsumer.run imwrite requests written = (IOConsumer.Blocked, written ++ files, []) ∧
  (s ≠ "quit" →
   IOConsumer.run imwrite (requests ++ IOConsumer.MsgStr s :: rest) written
   = (IOConsumer.Raised TypeError, written ++ files, rest)).
Proof.
  intros Hok requests files. subst requests files.
  revert written. induction Hok as [|[p a] items [b Hb] _ IH]; intros written.
  - rewrite app_nil_r. split_and!; [done|done|].
    intros Hs. simpl. unfold IOConsumer.iteration. simpl.
    by rewrite bool_decide_eq_false_2.
  - assert (IOConsumer.iteration imwrite (IOConsumer.save p a)
            = inr (Some (IOConsumer.Str p, IOConsumer.Image a))) as Hit.
    { unfold IOConsumer.iteration, IOConsumer.save. simpl.
      rewrite lookup_insert_ne, lookup_singleton_eq by done. simpl.
      rewrite lookup_insert_eq. simpl. by rewrite Hb. }
    destruct (IH (written ++ [(IOConsumer.Str p, IOConsumer.Image a)])) as (H1 & H2 & H3).
    rewrite !fmap_cons. simpl. rewrite Hit.
    rewrite <- !app_assoc in H1, H2, H3. simpl in H1, H2, H3.
    split_and!; [exact H1|exact H2|exact H3].
Qed.

Lemma io_consumer_run_witness :
  let imwrite := λ _ _ : IOConsumer.value, inr (A := exn) true in
  let q := [IOConsumer.save "out/a.png" Sample.picture;
            IOConsumer.save "out/b.png" Sample.picture;
            IOConsumer.MsgStr "quit";
            IOConsumer.save "out/c.png" Sample.picture] in
  IOConsumer.run imwrite q []
  = (IOConsumer.Done,
     [(IOConsumer.Str "out/a.png", IOConsumer.Image Sample.picture);
      (IOConsumer.Str "out/b.png", IOConsumer.Image Sample.picture)],
     [IOConsumer.save "out/c.png" Sample.picture]).
Proof.
  intros imwrite q.
  destruct (io_consumer_run imwrite [("out/a.png", Sample.picture); ("out/b.png", Sample.picture)]
              [IOConsumer.save "out/c.png" Sample.picture] [] "") as (H & _ & _).
  - apply List.Forall_cons; [by exists true|].
    apply List.Forall_cons; [by exists true|]. apply List.Forall_nil.
  - exact H.
Defined.

(** ** The size of the result of [enhance] *)

Section Shapes.
Context `{E : Externals}.

Lemma cvtColor_shape b code a :
  cvtColor b code = inr a →
  ∃ h w, (shape b = [h; w] ∨ ∃ c, shape b = [h; w; c]) ∧
         shape a = h :: w :: channels_of code.
Proof.
  unfold cvtColor, as_image.
  destruct (shape b) as [|h [|w [|c [|]]]] eqn:Hs; try done.
  - case_match; [done|]. destruct code; repeat case_decide; intros [= <-]; simpl; eauto 10.
  - case_match; [done|]. destruct code; repeat case_decide; intros [= <-]; simpl; eauto 10.
Qed.

Lemma networks_scale_settings i j :
  settings i = settings j → networks_scale i → networks_scale j.
Proof.
  intros (Hs & _ & _ & _ & _ & _ & _ & _ & Hn & Ho & Ht)%settings_fields Hi n Hn'.
  rewrite <- Hs. apply Hi. by rewrite Hn, Ho, Ht.
Qed.

Lemma squeeze_shape_3 cc H W c' h' w' :
  squeeze_shape [1; cc; H; W] = [c'; h'; w'] → c' = cc ∧ h' = H ∧ w' = W.
Proof.
  simpl. repeat case_decide; intros [=]; simplify_eq; done.
Qed.

End Shapes.

Section SizeLogic.
Context `{E : Externals}.
Variable h0 : store.
Variable i0 : instance.

Lemma wp_of_run {A} (m : M A) a σ σ' Q X :
  m σ = (inr a, σ') →
  (inv h0 i0 σ → inv h0 i0 σ' ∧ Q a σ') →
  wp h0 i0 m Q X σ.
Proof. intros Hrun H Hinv. rewrite Hrun. simpl. by apply H. Qed.

Lemma wp_process_shape t b c h w Q σ :
  img (self σ) = Some t →
  h_shape t = [b; c; h; w] →
  networks_scale (self σ) →
  (∀ o hp tr, fresh h0 o → h_shape o = [b; c; h * scale (self σ); w * scale (self σ)] →
     Q tt (mk_state (set_output o (self σ)) hp tr)) →
  wp h0 i0 process Q any_exn σ.
Proof.
  intros Ht Hs Hn HQ. unfold process.
  wp_step. wp_step.
  repeat case_decide.
  all: wp_steps; try exact I.
  all: simplify_eq.
  all: apply wp_infer; [intros o1 a1 r1 Hr Ha Hf Ho|intros; exact I]; wp_steps; apply HQ;
    [done|].
  all: rewrite Ho; eapply Hn; [|exact Hr|congruence]; eauto.
Qed.

Lemma wp_tile_process_shape t b c h w Q σ :
  img (self σ) = Some t →
  h_shape t = [b; c; h; w] →
  (∀ o hp tr, fresh h0 o → h_shape o = [b; c; h * scale (self σ); w * scale (self σ)] →
     Q tt (mk_state (set_output o (self σ)) hp tr)) →
  wp h0 i0 tile_process Q any_exn σ.
Proof.
  intros Ht Hs HQ. unfold tile_process.
  wp_step. wp_step. destruct (_ || _); [by apply wp_raise|].
  apply wp_bind, wp_attr; [intros t' Ht'|exact I]. simplify_eq. rewrite Hs.
  apply wp_bind, wp_load. intros a _ _.
  apply wp_bind, wp_lift; [intros z Hz|intros; exact I].
  apply wp_bind, wp_alloc. intros o Hf Ho _.
  unfold new_zeros in Hz. case_match; [|done]. simplify_eq. simpl in Ho.
  wp_steps.
  eapply (wp_tile_loop _ _ _ _ _ o); [exact Hf|reflexivity|].
  intros acc hp tr. wp_steps. by apply HQ.
Qed.

Lemma wp_post_process_shape o n c H W mh mw Q σ :
  output (self σ) = Some o →
  h_shape o = [n; c; H; W] →
  padded_by (self σ) mh mw →
  0 ≤ mh * scale (self σ) → 0 ≤ mw * scale (self σ) →
  0 ≤ pre_pad (self σ) * scale (self σ) →
  mh * scale (self σ) + pre_pad (self σ) * scale (self σ) ≤ H →
  mw * scale (self σ) + pre_pad (self σ) * scale (self σ) ≤ W →
  (∀ o' σ',
     h_shape o' = [n; c; H - mh * scale (self σ) - pre_pad (self σ) * scale (self σ);
                   W - mw * scale (self σ) - pre_pad (self σ) * scale (self σ)] →
     h_loc o' = h_loc o →
     Q o' σ') →
  wp h0 i0 post_process Q any_exn σ.
Proof.
  intros Ho Hs Hpad ? ? ? ? ? HQ.
  destruct (post_process_run σ o n c H W mh mw) as (o' & i' & Hrun & _ & Hset & Hs' & Hl' & _);
    try done.
  eapply wp_of_run; [exact Hrun|]. intros [Hpre Hinv]. split; [|by apply HQ].
  split; [done|]. simpl. congruence.
Qed.

Lemma wp_clamp_for_backend_shape o Q σ :
  fresh h0 o →
  (∀ o' hp, fresh h0 o' → h_shape o' = squeeze_shape (h_shape o) →
     Q o' (mk_state (self σ) hp (trace σ))) →
  wp h0 i0 (clamp_for_backend o) Q any_exn σ.
Proof.
  intros Hf HQ. unfold clamp_for_backend. wp_step. wp_step.
  repeat case_decide; try (by apply wp_raise).
  all: unfold clamp_torch, clip_numpy.
  1, 4: wp_step; apply wp_to_dtype; intros o1 hp1 Hf1 Hs1;
    wp_step; wp_step; wp_step; apply wp_to_device; intros o2 hp2 Hf2 Hs2;
    wp_step; wp_step; wp_step;
    (apply wp_poke_with; [by apply Hf2, Hf1|]);
    wp_steps; apply HQ; [by apply Hf2, Hf1|by rewrite Hs2, Hs1].
  all: wp_steps; apply HQ; [done|]; simpl in *; congruence.
Qed.

Lemma wp_to_bgr_hwc_shape o Q σ :
  (∀ o' c h w hp, fresh h0 o' → h_shape o = [c; h; w] → h_shape o' = [h; w; 3] →
     Q o' (mk_state (self σ) hp (trace σ))) →
  wp h0 i0 (to_bgr_hwc o) Q any_exn σ.
Proof.
  intros HQ. unfold to_bgr_hwc.
  apply wp_bind, wp_load. intros a Ha _.
  apply wp_bind, wp_lift; [intros a' Ha'|intros; exact I].
  apply wp_bind, wp_alloc. intros o1 Hf1 Hs1 _.
  apply wp_lift; [intros o2 Ho2|intros; exact I].
  unfold take_210 in Ha'. rewrite Ha in Ha'.
  destruct (h_shape o) as [|c [|h [|w rest]]] eqn:Hso; try done.
  case_match; [|done]. simplify_eq. simpl in Hs1.
  unfold v_transpose in Ho2. case_decide as Hlen; [|done]. simplify_eq.
  rewrite Hs1 in Hlen. destruct rest; [|done].
  eapply (HQ _ c h w); [done|done|]. simpl. by rewrite Hs1.
Qed.

Lemma wp_upsample_size x hh ww cc Q σ :
  h_shape x = [hh; ww; cc] → 0 ≤ hh → 0 ≤ ww →
  1 ≤ scale (self σ) → 0 ≤ pre_pad (self σ) →
  networks_scale (self σ) →
  (∀ m, mod_scale (self σ) = Some m → 0 < m) →
  (∀ o σ', fresh h0 o → h_shape o = [hh * scale (self σ); ww * scale (self σ); 3] →
     Q o σ') →
  wp h0 i0 (upsample x) Q any_exn σ.
Proof.
  intros Hx Hhh Hww Hs Hp Hn Hm HQ.
  apply wp_inv. intros [_ Hset0].
  assert (∀ m, next_mod_scale (self σ) = Some m → 0 < m) as Hm'.
  { intros m. unfold next_mod_scale. repeat case_decide; [intros [= <-]; lia..|apply Hm]. }
  unfold upsample. apply wp_bind.
  eapply wp_conseq with
    (Q := λ _ σ1, ∃ t mh mw,
            img (self σ1) = Some t ∧
            h_shape t = [1; cc; hh + pre_pad (self σ) + mh; ww + pre_pad (self σ) + mw] ∧
            padded_by (self σ1) mh mw ∧ 0 ≤ mh ∧ 0 ≤ mw)
    (X := any_exn); [| |done].
  { assert (∀ σ' t' hh' ww' cc' mh mw,
      h_shape x = [hh'; ww'; cc'] → img (self σ') = Some t' →
      h_shape t' = [1; cc'; hh' + pre_pad (self σ) + mh; ww' + pre_pad (self σ) + mw] →
      mod_scale (self σ') = next_mod_scale (self σ) →
      padded_by (self σ') mh mw →
      (∀ m, next_mod_scale (self σ) = Some m → 0 < m →
         (0 ≤ mh < m ∧ (hh' + pre_pad (self σ) + mh) `mod` m = 0) ∧
         (0 ≤ mw < m ∧ (ww' + pre_pad (self σ) + mw) `mod` m = 0)) →
      ∃ t mh mw,
        img (self σ') = Some t ∧
        h_shape t = [1; cc; hh + pre_pad (self σ) + mh; ww + pre_pad (self σ) + mw] ∧
        padded_by (self σ') mh mw ∧ 0 ≤ mh ∧ 0 ≤ mw) as Hpre.
    { intros σ' t' hh' ww' cc' mh mw Hx' Ht' Hs' Hms Hpad Hmod.
      rewrite Hx in Hx'. simplify_eq. exists t', mh, mw. split_and!; try done.
      all: unfold padded_by in Hpad; rewrite Hms in Hpad.
      all: destruct (next_mod_scale (self σ)) as [m|] eqn:Hnm; [|lia].
      all: destruct (Hmod m eq_refl (Hm' m eq_refl)); lia. }
    unfold pre_process_for_backend. wp_step. wp_step.
    repeat case_decide; try (by apply wp_raise).
    all: first [apply wp_pre_process|apply wp_pre_process_numpy]; intros; eapply Hpre; eauto. }
  intros _ σ1 [_ Hset1] (t & mh & mw & Ht & Hts & Hpad & Hmh & Hmw).
  assert (settings (self σ1) = settings (self σ)) as Hset by congruence.
  pose proof (networks_scale_settings _ _ (eq_sym Hset) Hn) as Hn1.
  apply settings_fields in Hset as (Hsc & _ & _ & Hpp & _).
  wp_step. wp_step. wp_step.
  eapply wp_conseq with
    (Q := λ _ σ2, ∃ o,
            fresh h0 o ∧ output (self σ2) = Some o ∧
            h_shape o = [1; cc; (hh + pre_pad (self σ) + mh) * scale (self σ);
                         (ww + pre_pad (self σ) + mw) * scale (self σ)] ∧
            padded_by (self σ2) mh mw ∧
            scale (self σ2) = scale (self σ) ∧ pre_pad (self σ2) = pre_pad (self σ))
    (X := any_exn); [| |done].
  { destruct (0 <? tile_size (self σ1)).
    - eapply wp_tile_process_shape; [exact Ht|exact Hts|].
      intros o hp tr Hf Ho. exists o. rewrite Hsc in Ho. by split_and!.
    - eapply wp_process_shape; [exact Ht|exact Hts|exact Hn1|].
      intros o hp tr Hf Ho. exists o. rewrite Hsc in Ho. by split_and!. }
  intros _ σ2 _ (o & Hfo & Ho & Hos & Hpad2 & Hsc2 & Hpp2). wp_simpl.
  apply wp_bind.
  eapply (wp_post_process_shape o 1 cc _ _ mh mw); try done; rewrite ?Hsc2, ?Hpp2; try nia.
  intros o1 σ3 Ho1 Hl1.
  apply wp_bind, wp_clamp_for_backend_shape; [by eapply fresh_loc|].
  intros o2 hp Hf2 Ho2.
  apply wp_to_bgr_hwc_shape. intros o3 c h w hp' Hf3 Hs2 Hs3.
  apply HQ; [done|].
  rewrite Hs2, Ho1 in Ho2. symmetry in Ho2. apply squeeze_shape_3 in Ho2 as (_ & -> & ->).
  rewrite Hs3. f_equal; [lia|f_equal; lia].
Qed.

End SizeLogic.

Lemma v_slice_shape_insert k start stop h h' :
  v_slice k start stop h = inr h' → ∃ len, h_shape h' = <[k := len]> (h_shape h).
Proof.
  unfold v_slice. destruct (h_shape h !! k); [|done].
  destruct (slice_bounds _ _ _) as [a len]. intros [= <-]. by exists len.
Qed.

Lemma np_max_inr_extent a mx n : np_max a = inr mx → n ∈ shape a → 1 ≤ n.
Proof.
  intros Hmx Hn. destruct (decide (1 ≤ n)) as [|Hlt]; [done|].
  rewrite np_max_empty in Hmx; [done|]. exists n. split; [done|lia].
Qed.

Section EnhanceSize.
Context `{E : Externals}.
Variable h0 : store.
Variable i0 : instance.

Lemma cvtColor_shape_3 b code a hh ww c rest :
  cvtColor b code = inr a → shape b = hh :: ww :: c :: rest →
  rest = [] ∧ shape a = hh :: ww :: channels_of code.
Proof.
  intros Hb Hs. apply cvtColor_shape in Hb as (h1 & w1 & Hb & ->).
  rewrite Hs in Hb. by destruct Hb as [Hb|[c' Hb]]; simplify_eq.
Qed.

Lemma wp_cvt_shape h code hh ww rest Q σ :
  h_shape h = hh :: ww :: rest →
  (∀ h' hp, fresh h0 h' → h_shape h' = hh :: ww :: channels_of code →
     Q h' (mk_state (self σ) hp (trace σ))) →
  wp h0 i0 (cvt h code) Q any_exn σ.
Proof.
  intros Hs HQ. apply wp_cvt. intros h' a hp Hf Hs' (b & Hb & Hbs).
  apply HQ; [done|]. rewrite Hs'.
  apply cvtColor_shape in Hb as (h1 & w1 & Hb & ->).
  rewrite Hbs, Hs in Hb. by destruct Hb as [Hb|[c Hb]]; simplify_eq.
Qed.

Lemma wp_enhance_size x au Q σ :
  1 ≤ scale (self σ) → 0 ≤ pre_pad (self σ) →
  networks_scale (self σ) →
  (∀ m, mod_scale (self σ) = Some m → 0 < m) →
  (∀ o σ' hh ww rest,
     h_shape x = hh :: ww :: rest →
     ((∀ os, outscale (self σ') = Some os →
             Qeq_bool os (inject_Z (scale (self σ'))) = true) →
      h_shape o = hh * scale (self σ) :: ww * scale (self σ) :: rest) →
     Q (o, img_mode_of (h_shape x)) σ') →
  wp h0 i0 (enhance x au) Q any_exn σ.
Proof.
  intros Hsc Hpp Hnet Hms HQ. unfold enhance.
  apply wp_bind, wp_shape_0_2. intros h_input w_input rest Hx. wp_simpl.
  apply wp_bind, wp_load. intros a Ha Hda.
  apply wp_bind, wp_alloc. intros im _ Him Hdim.
  apply wp_bind, wp_load. intros a' _ Hda'. wp_simpl.
  specialize (Hda' _ Hdim). subst a'.
  apply wp_bind, wp_lift; [intros mx Hmx|intros; exact I].
  change (np_max (astype Float32 a)) with (np_max a) in Hmx.
  assert (1 ≤ h_input ∧ 1 ≤ w_input) as [Hh Hw].
  { split; eapply (np_max_inr_extent a mx); try done; rewrite Ha, Hx.
    - by left.
    - right. by left. }
  apply wp_bind.
  eapply wp_conseq with
    (Q := λ max_range σ', self σ' = self σ) (X := any_exn); [| |done].
  { destruct (Qlt_le_dec 256 mx); wp_steps; done. }
  intros max_range [i1 hp1 tr1] _ Hself. simpl in Hself. subst i1.
  apply wp_bind, wp_alloc. intros im2 _ Him2 _. wp_simpl.
  simpl in Him2. rewrite Ha, Hx in Him2.
  apply wp_bind.
  eapply wp_conseq with
    (Q := λ (r : string * handle * option handle) σ',
            r.1.1 = img_mode_of (h_shape x) ∧ (rest = [] ∨ rest = [3] ∨ rest = [4]) ∧
            h_shape r.1.2 = [h_input; w_input; 3] ∧
            (rest ≠ [4] ↔ r.2 = None) ∧
            self σ' = self σ)
    (X := any_exn); [| |done].
  { unfold img_mode_of. rewrite Him2, Hx.
    case_decide as Hlen.
    - assert (rest = []) as -> by (by destruct rest).
      apply wp_bind, (wp_cvt_shape _ _ h_input w_input []); [done|].
      intros. apply wp_ret. split_and!; auto. done.
    - apply wp_bind, wp_lift; [intros c Hc|intros; exact I].
      unfold subscript in Hc.
      destruct ((h_input :: w_input :: rest) !! 2%nat) as [c'|] eqn:Hc'; [|done].
      simplify_eq. destruct rest as [|c0 rest]; [done|]. simpl in Hc'. simplify_eq.
      case_decide as Hc4.
      + subst c. rewrite decide_True by done.
        apply wp_bind, wp_lift; [intros alpha0 _|intros; exact I].
        apply wp_bind, wp_lift; [intros im0 Him0|intros; exact I].
        apply v_slice_shape_insert in Him0 as [len Him0]. rewrite Him2 in Him0.
        simpl in Him0.
        apply wp_bind, wp_cvt. intros im1 a1 ? _ Hs1 (b & Hb & Hbs).
        rewrite Him0 in Hbs.
        destruct (cvtColor_shape_3 _ _ _ _ _ _ _ Hb Hbs) as [-> Ha1].
        apply wp_bind.
        eapply wp_conseq with (Q := λ _ σ', self σ' = self σ) (X := any_exn); [| |done].
        { case_decide; [apply wp_cvt; done|by apply wp_ret]. }
        intros. apply wp_ret. simpl in Ha1. split_and!; auto; [simpl; congruence|].
        simpl. split; [done|intros; done].
      + rewrite decide_False by congruence.
        apply wp_bind, wp_cvt. intros im1 a1 ? _ Hs1 (b & Hb & Hbs).
        rewrite Him2 in Hbs.
        destruct (cvtColor_shape_3 _ _ _ _ _ _ _ Hb Hbs) as [-> Ha1].
        apply cvtColor_BGR2RGB_shape in Hb as (h2 & w2 & c2 & Hb2 & Hc2).
        rewrite Hbs in Hb2. injection Hb2 as _ _ ->.
        apply wp_ret. simpl in Ha1. split_and!; try done.
        * destruct Hc2 as [->| ->]; [auto|done].
        * simpl. congruence.
        * simpl. split; [done|]. intros _ [=]. done. }
  intros [[img_mode im3] alpha] σ1 _ (Hmode & Hrest & Him3 & Halpha & Hself1).
  simpl in Hmode, Him3, Halpha. subst img_mode.
  apply wp_bind. rewrite <- Hself1 in Hsc, Hpp, Hnet, Hms.
  eapply (wp_upsample_size _ _ _ h_input w_input 3); try done; try lia.
  rewrite Hself1. intros output_img σ2 Hfo Hso. wp_simpl.
  apply wp_bind.
  eapply wp_conseq with
    (Q := λ o _, h_shape o = h_input * scale (self σ) :: w_input * scale (self σ)
                             :: (if decide (rest = []) then [] else [3]))
    (X := any_exn); [| |done].
  { rewrite Hx. destruct Hrest as [->|[->| ->]]; simpl.
    - eapply (wp_cvt_shape _ _ _ _ _ _ _ Hso). by intros.
    - by apply wp_ret.
    - by apply wp_ret. }
  intros output_img0 σ3 _ Hs0.
  apply wp_bind.
  eapply wp_conseq with
    (Q := λ o _, h_shape o = h_input * scale (self σ) :: w_input * scale (self σ) :: rest)
    (X := any_exn); [| |done].
  { destruct alpha as [alpha0|].
    - apply wp_bind.
      eapply wp_conseq with (Q := λ _ _, True) (X := any_exn); [| |done].
      { destruct (decide (au = "realesrgan")).
        - apply wp_bind, wp_upsample. intros. apply wp_cvt. done.
        - apply wp_bind, wp_shape_0_2. intros. wp_steps. done. }
      intros output_alpha σ4 _ _.
      assert (rest = [4]) as ->.
      { destruct (decide (rest = [4])) as [|Hne]; [done|]. by apply Halpha in Hne. }
      apply wp_bind, (wp_cvt_shape _ _ _ _ _ _ _ Hs0). intros output_img1 ? Hf1 Hs1.
      apply wp_bind, wp_lift; [intros dst Hdst|intros; exact I].
      apply wp_bind, wp_setitem.
      + eapply fresh_loc; [by eapply v_index_loc|done].
      + intros. by apply wp_ret.
    - apply wp_ret. rewrite Hs0.
      destruct Hrest as [->|[->| ->]]; [done|done|].
      by destruct (proj2 Halpha eq_refl). }
  intros output_img1 σ4 _ Hs1.
  apply wp_bind.
  eapply wp_conseq with
    (Q := λ o _, h_shape o = h_input * scale (self σ) :: w_input * scale (self σ) :: rest)
    (X := any_exn); [| |done].
  { destruct (decide (max_range = 65535)); apply wp_quantize; intros; congruence. }
  intros output σ5 [_ Hset5] Hs5.
  apply wp_bind, wp_get_self. apply wp_bind.
  eapply wp_conseq with
    (Q := λ o σ', self σ' = self σ5 ∧
            ((∀ os, outscale (self σ5) = Some os →
                    Qeq_bool os (inject_Z (scale (self σ5))) = true) →
             h_shape o = h_input * scale (self σ) :: w_input * scale (self σ) :: rest))
    (X := any_exn); [| |done].
  { destruct (outscale (self σ5)) as [os|] eqn:Hos.
    - destruct (Qeq_bool os (inject_Z (scale (self σ5)))) eqn:Heq.
      + by apply wp_ret.
      + wp_steps. split; [done|]. intros Hall. specialize (Hall os eq_refl). congruence.
    - by apply wp_ret. }
  intros o [i6 hp6 tr6] _ [Hself6 Ho]. simpl in Hself6. subst i6.
  apply wp_ret. by eapply HQ.
Qed.
End EnhanceSize.

Section EnhanceSizeFacts.
Context `{E : Externals}.

(** The size of the result.  Let the scale be at least 1, the pre-pad
    at least 0, let every network of the instance return, when it
    returns, a tensor of [scale] times the height and width of its
    input, and let [outscale] be unset or equal to the scale.  When
    [enhance] returns, its result has [scale] times the rows and
    columns of the input and the channels of the input (none, 3 or 4):
    padding, tiling and cropping cancel out. *)
Theorem enhance_output_size (x : handle) (alpha_upsampler : string) (σ σ' : state)
    (o : handle) (img_mode : string) :
  1 ≤ scale (self σ) →
  0 ≤ pre_pad (self σ) →
  networks_scale (self σ) →
  (∀ m, mod_scale (self σ) = Some m → 0 < m) →
  (∀ os, outscale (self σ) = Some os → (os == inject_Z (scale (self σ)))%Q) →
  enhance x alpha_upsampler σ = (inr (o, img_mode), σ') →
  ∃ hh ww rest,
    h_shape x = hh :: ww :: rest ∧
    (rest = [] ∨ rest = [3] ∨ rest = [4]) ∧
    h_shape o = hh * scale (self σ) :: ww * scale (self σ) :: rest.
Proof.
  intros Hs Hp Hn Hm Hos Hrun.
  destruct (wp_run (heap σ) (self σ) (enhance x alpha_upsampler)
              (λ r σ1, ∃ hh ww rest,
                 h_shape x = hh :: ww :: rest ∧
                 ((∀ os, outscale (self σ1) = Some os →
                         Qeq_bool os (inject_Z (scale (self σ1))) = true) →
                  h_shape r.1 = hh * scale (self σ) :: ww * scale (self σ) :: rest))
              any_exn σ (o, img_mode) σ') as [(hh & ww & rest & Hx & Ho) [_ Hset]];
    [|apply inv_refl|exact Hrun|].
  { apply wp_enhance_size; try done. intros o1 σ1 hh ww rest Hx Ho.
    by exists hh, ww, rest. }
  assert (rest = [] ∨ rest = [3] ∨ rest = [4]) as Hrest.
  { apply (wp_returns (heap σ) (self σ) (enhance x alpha_upsampler)
             (λ _ _, rest = [] ∨ rest = [3] ∨ rest = [4]) any_exn σ (o, img_mode) σ');
      [|apply inv_refl|exact Hrun].
    apply wp_enhance. intros ? ? ? hh' ww' rest' a mx Hx' Hrest'; intros.
    rewrite Hx in Hx'. by simplify_eq. }
  exists hh, ww, rest. split; [done|]. split; [done|].
  apply Ho. intros os Hos'.
  apply settings_fields in Hset as (Hsc & _ & _ & _ & _ & _ & Hout & _).
  rewrite Hsc. apply Qeq_bool_iff, Hos. congruence.
Qed.

End EnhanceSizeFacts.

Lemma nn_up_scales s : scales s (Sample.nn_up s).
Proof.
  intros a r b c h w Hr Hs. unfold Sample.nn_up in Hr. rewrite Hs in Hr.
  by injection Hr as <-.
Qed.

Lemma enhance_output_size_witness :
  let σ := Sample.state_with (Sample.upsampler 2 2 1 1 None (Sample.nn_up 2))
             [Sample.ramp 3 4 3] in
  ∃ o img_mode σ',
    enhance (E := Sample.externals) (whole 0 [3; 4; 3]) "realesrgan" σ
    = (inr (o, img_mode), σ') ∧
    h_shape o = [6; 8; 3].
Proof.
  intros σ.
  destruct (enhance (E := Sample.externals) (whole 0 [3; 4; 3]) "realesrgan" σ)
    as [[e|[o img_mode]] σ'] eqn:Hrun.
  - exfalso.
    assert (match (enhance (E := Sample.externals) (whole 0 [3; 4; 3]) "realesrgan" σ).1 with
            | inr _ => True | inl _ => False end) as H by (vm_compute; exact I).
    rewrite Hrun in H. exact H.
  - destruct (enhance_output_size (E := Sample.externals) (whole 0 [3; 4; 3]) "realesrgan"
                σ σ' o img_mode) as (hh & ww & rest & Hx & _ & Ho).
    + vm_compute. discriminate.
    + vm_compute. discriminate.
    + intros n [Hn|[Hn|Hn]]; [|discriminate Hn..].
      injection Hn as <-. apply nn_up_scales.
    + discriminate.
    + discriminate.
    + exact Hrun.
    + injection Hx as <- <- <-.
      exists o, img_mode, σ'. split; [reflexivity|exact Ho].
Defined.

(** ** Tiled and untiled inference *)

(** Indices through the slices of the tile loop. *)
Lemma slice_norm_range n a : 0 ≤ a ≤ n → slice_norm n a = a.
Proof.
  intros Ha. unfold slice_norm.
  destruct (a <? 0) eqn:H1; [lia|]. rewrite H1.
  destruct (n <? a) eqn:H2; [lia|]. done.
Qed.

Lemma slice_hw_map n c H W y0 y1 x0 x1 h h' jn jc jy jx :
  h_shape h = [n; c; H; W] →
  0 ≤ y0 ≤ y1 → y1 ≤ H → 0 ≤ x0 ≤ x1 → x1 ≤ W →
  slice_hw y0 y1 x0 x1 h = inr h' →
  h_map h' [jn; jc; jy; jx] = h_map h [jn; jc; jy + y0; jx + x0].
Proof.
  intros Hs Hy0 Hy1 Hx0 Hx1. unfold slice_hw, v_slice. rewrite Hs. simpl.
  intros [= <-]. simpl. rewrite !slice_norm_range by lia. done.
Qed.

Lemma slice_hw_inv_whole l n c H W y0 y1 x0 x1 h' jn jc jy jx :
  0 ≤ y0 ≤ y1 → y1 ≤ H → 0 ≤ x0 ≤ x1 → x1 ≤ W →
  slice_hw y0 y1 x0 x1 (whole l [n; c; H; W]) = inr h' →
  h_inv h' [jn; jc; jy; jx]
  = if bool_decide (y0 ≤ jy < y1 ∧ x0 ≤ jx < x1) then Some [jn; jc; jy - y0; jx - x0]
    else None.
Proof.
  intros Hy0 Hy1 Hx0 Hx1. unfold slice_hw, v_slice. simpl.
  intros [= <-]. simpl. rewrite !slice_norm_range by lia.
  unfold nth_Z, add_at. simpl.
  destruct (y0 <=? jy) eqn:H1; destruct (jy <? y0 + 0 `max` (y1 - y0)) eqn:H2; simpl.
  2-4: rewrite bool_decide_eq_false_2 by lia; done.
  unfold nth_Z. simpl.
  destruct (x0 <=? jx) eqn:H3; destruct (jx <? x0 + 0 `max` (x1 - x0)) eqn:H4; simpl.
  2-4: rewrite bool_decide_eq_false_2 by lia; done.
  rewrite bool_decide_eq_true_2 by lia. unfold nth_Z. simpl.
  repeat f_equal; lia.
Qed.

Lemma broadcast_same_id n c h w :
  ∃ f, broadcast [n; c; h; w] [n; c; h; w] = Some f ∧
    ∀ jn jc jy jx, 0 ≤ jn < n → 0 ≤ jc < c → 0 ≤ jy < h → 0 ≤ jx < w →
      f [jn; jc; jy; jx] = [jn; jc; jy; jx].
Proof.
  unfold broadcast. simpl. rewrite !Z.eqb_refl. simpl.
  eexists. split; [done|]. intros jn jc jy jx ? ? ? ?. simpl.
  repeat case_decide; repeat f_equal; lia.
Qed.

(** Allocation, with the handle it returns. *)
Section Whole.
Variable h0 : store.
Variable i0 : instance.

Lemma wp_alloc_whole a Q X σ :
  Q (whole (length (heap σ)) (shape a)) (mk_state (self σ) (heap σ ++ [a]) (trace σ)) →
  wp h0 i0 (alloc a) Q X σ.
Proof.
  intros HQ [Hpre Hset]. split; [|exact HQ].
  split; [|done]. simpl. by apply prefix_app_r.
Qed.

Lemma wp_infer_whole n x Q X σ :
  (∀ a, shape a = h_shape x → (∀ b, deref (heap σ) x = Some b → a = b) →
     ∃ r, n a = inr r ∧
       Q (whole (length (heap σ)) (shape r))
         (mk_state (self σ) (heap σ ++ [r]) (trace σ ++ [Inferred a]))) →
  wp h0 i0 (infer n x) Q X σ.
Proof.
  intros HQ. unfold infer.
  apply wp_bind, wp_load. intros a Ha Hd.
  destruct (HQ a Ha Hd) as (r & Hr & HQ').
  apply wp_bind, wp_emit. wp_simpl.
  apply wp_bind, (wp_lift_inr _ _ _ r); [done|].
  by apply wp_alloc_whole.
Qed.

End Whole.

Section Stitch.
Variable h0 : store.
Variable i0 : instance.
Variable s0 : instance.
Variables (im : handle) (n : network) (hp0 : store) (tr0 : list array).
Variables (lo : nat) (t0 : dtype) (b c H W : Z).
Hypothesis Himg : img s0 = Some im.
Hypothesis Him : h_shape im = [b; c; H; W].
Hypothesis Hnet : net_g s0 = Some n.
Hypothesis Hn : ∀ a b' c' h w,
  shape a = [b'; c'; h; w] →
  ∃ r, n a = inr r ∧ shape r = [b'; c'; h * scale s0; w * scale s0].
Hypothesis Hlo : (length h0 ≤ lo)%nat.
Hypothesis Hloc : (h_loc im < lo)%nat.

Lemma wp_tile_body_stitch t total acc done σ :
  tile_fits s0 W H t →
  (∀ t' px py, t' ∈ done → in_output_region t' px py → ¬ in_output_region t px py) →
  stitched s0 im n hp0 tr0 lo t0 b c H W done σ →
  wp h0 i0 (tile_body t total acc)
    (λ _ σ', stitched s0 im n hp0 tr0 lo t0 b c H W (done ++ [t]) σ') no_exn σ.
Proof.
  intros ((Hiy & Hix) & (Hty & Htx) & (Hoy & Hox) & Hey & Hex) Hdisj.
  intros (Hself & Him0 & (inputs & Htr & Hinputs) & r0 & Hdo & Ht0 & Hdone).
  cbv zeta in Hself, Hdo. unfold deref in Hdo. simpl in Hdo.
  destruct (heap σ !! lo) as [b_o|] eqn:Hbo; [|done].
  simpl in Hdo. injection Hdo as Hdo.
  pose proof (lookup_lt_Some _ _ _ Hbo) as Hlt.
  unfold tile_body.
  apply wp_bind, (wp_attr_Some _ _ _ _ im); [by rewrite Hself|].
  destruct (slice_hw_range b c H W (input_start_y_pad t) (input_end_y_pad t)
              (input_start_x_pad t) (input_end_x_pad t) im Him)
    as (input_tile & Hit & Hits & Hitl); [lia..|].
  apply wp_bind, (wp_lift_inr _ _ _ input_tile); [exact Hit|].
  apply wp_bind, wp_try_except_RuntimeError.
  apply wp_bind, (wp_attr_Some _ _ _ _ n); [by rewrite Hself|].
  apply wp_bind, wp_infer_whole. intros a Ha Hda.
  destruct (Hn a _ _ _ _ (eq_trans Ha Hits)) as (r & Hr & Hrs).
  exists r. split; [done|]. wp_simpl.
  apply wp_ret.
  apply wp_bind, wp_print. wp_simpl.
  rewrite Hrs.
  assert (h_shape (whole (length (heap σ))
                     [b; c; (input_end_y_pad t - input_start_y_pad t) * scale s0;
                      (input_end_x_pad t - input_start_x_pad t) * scale s0])
          = [b; c; (input_end_y_pad t - input_start_y_pad t) * scale s0;
             (input_end_x_pad t - input_start_x_pad t) * scale s0]) as Hots by done.
  destruct (slice_hw_range b c _ _ (output_start_y_tile t) (output_end_y_tile t)
              (output_start_x_tile t) (output_end_x_tile t) _ Hots)
    as (src & Hsrc & Hsrcs & Hsrcl); [lia..|].
  apply wp_bind, (wp_lift_inr _ _ _ src); [exact Hsrc|].
  eapply wp_bind, wp_attr_Some; [by rewrite Hself|].
  destruct (slice_hw_range b c _ _ (output_start_y t) (output_end_y t)
              (output_start_x t) (output_end_x t)
              (whole lo [b; c; H * scale s0; W * scale s0]) eq_refl)
    as (dst & Hdst & Hdsts & Hdstl); [lia..|].
  apply wp_bind, (wp_lift_inr _ _ _ dst); [exact Hdst|].
  apply wp_bind. unfold setitem.
  apply wp_bind, wp_load. intros v Hv Hdv. wp_simpl.
  rewrite Hv, Hsrcs, Hdsts, Hey, Hex.
  destruct (broadcast_same_id b c (output_end_y t - output_start_y t)
              (output_end_x t - output_start_x t)) as (f & -> & Hf).
  apply wp_poke_with; [unfold fresh; rewrite Hdstl; exact Hlo|]. wp_simpl.
  apply wp_ret.
  simpl in Hsrcl, Hdstl.
  assert (v = view_of src r) as ->.
  { apply Hdv. unfold deref. simpl.
    by rewrite Hsrcl, lookup_app_r, Nat.sub_diag by done. }
  assert (tile_input hp0 im t = Some a) as Hta.
  { unfold tile_input. rewrite Hit. unfold deref. rewrite Hitl, <- Him0.
    destruct (heap σ !! h_loc im) as [b_im|] eqn:Hbim.
    - simpl. f_equal. symmetry. apply Hda. unfold deref. by rewrite Hitl, Hbim.
    - exfalso. apply lookup_ge_None in Hbim. lia. }
  unfold stitched, store_poke, deref. simpl.
  rewrite Hdstl, lookup_app_l, Hbo by done.
  split; [done|]. split.
  { rewrite list_lookup_insert_ne by lia.
    rewrite lookup_app_l by lia. done. }
  split.
  { exists (inputs ++ [a]). split.
    - unfold inferred in *. simpl. rewrite <- app_assoc, !omap_app, Htr. simpl.
      by rewrite <- app_assoc.
    - apply Forall2_app; [done|]. by constructor. }
  rewrite list_lookup_insert_eq by (rewrite length_app; lia). simpl.
  eexists. split; [done|]. simpl. split; [by rewrite <- Ht0, <- Hdo|].
  assert (a_dtype b_o = t0) as Hbt by (by rewrite <- Ht0, <- Hdo).
  intros t' Ht'. apply elem_of_app in Ht' as [Ht'|Ht'].
  - destruct (Hdone t' Ht') as (a_t & r_t & Ha_t & Hr_t & Hval).
    exists a_t, r_t. split; [done|]. split; [done|].
    intros jn jc py px Hjn Hjc Hreg.
    rewrite (slice_hw_inv_whole _ _ _ _ _ _ _ _ _ _ _ _ _ _
               (proj1 Hoy) (proj2 Hoy) (proj1 Hox) (proj2 Hox) Hdst).
    rewrite bool_decide_eq_false_2.
    + rewrite <- (Hval jn jc py px Hjn Hjc Hreg). by rewrite <- Hdo.
    + intros [Hy Hx]. by apply (Hdisj t' px py Ht' Hreg).
  - apply list_elem_of_singleton in Ht' as ->.
    exists a, r. split; [done|]. split; [done|].
    intros jn jc py px Hjn Hjc [Hpx Hpy].
    rewrite (slice_hw_inv_whole _ _ _ _ _ _ _ _ _ _ _ _ _ _
               (proj1 Hoy) (proj2 Hoy) (proj1 Hox) (proj2 Hox) Hdst).
    rewrite bool_decide_eq_true_2 by done.
    rewrite Hf by lia. simpl.
    rewrite (slice_hw_map _ _ _ _ _ _ _ _ _ _ _ _ _ _
               Hots (proj1 Hty) (proj2 Hty) (proj1 Htx) (proj2 Htx) Hsrc).
    by rewrite Hbt.
Qed.

End Stitch.

(** Every output pixel lies in the region of a tile of the grid. *)
Lemma tile_grid_cover (s : instance) (w h px py : Z) :
  0 < tile_size s → 1 ≤ scale s →
  0 ≤ px < w * scale s → 0 ≤ py < h * scale s →
  ∃ t, t ∈ tile_grid s w h ∧ in_output_region t px py.
Proof.
  intros HT Hs Hpx Hpy.
  destruct (axis_cover w _ (scale s) px HT Hs Hpx) as [Hkx Hrx].
  destruct (axis_cover h _ (scale s) py HT Hs Hpy) as [Hky Hry].
  exists (tile_at s w h (ceil_div w (tile_size s))
            (py `div` (tile_size s * scale s)) (px `div` (tile_size s * scale s))).
  split; [|done].
  rewrite tile_grid_fmap. apply list_elem_of_bind. eexists. split.
  - apply list_elem_of_fmap. eexists. split; [done|]. unfold range. apply elem_of_seqZ. lia.
  - unfold range. apply elem_of_seqZ. lia.
Qed.

(** Every tile of the grid is [tile_at] of its row and column. *)
Lemma tile_grid_at (s : instance) (w h : Z) (t : tile) :
  t ∈ tile_grid s w h → ∃ y x, t = tile_at s w h (ceil_div w (tile_size s)) y x.
Proof.
  rewrite tile_grid_fmap. intros (y & Ht & _)%list_elem_of_bind.
  apply list_elem_of_fmap in Ht as (x & -> & _). eauto.
Qed.

(** The tiles of the grid are numbered from 1 in the order of the loop. *)
Lemma tile_grid_lookup_idx (s : instance) (w h : Z) (k : nat) (t : tile) :
  0 ≤ ceil_div w (tile_size s) → 0 ≤ ceil_div h (tile_size s) →
  tile_grid s w h !! k = Some t → tile_idx t = 1 + Z.of_nat k.
Proof.
  intros Hx Hy Ht.
  assert ((tile_idx <$> tile_grid s w h) !! k = Some (tile_idx t)) as Hk
    by (by rewrite list_lookup_fmap, Ht).
  rewrite tile_idx_grid in Hk by done.
  apply lookup_seqZ in Hk as [-> _]. done.
Qed.

(** Two tiles of the grid whose output regions share a pixel are the
    same tile. *)
Lemma tile_grid_disjoint (s : instance) (w h : Z) (k k' : nat) (t t' : tile) (px py : Z) :
  1 ≤ h → 1 ≤ w → 0 < tile_size s → 1 ≤ scale s →
  tile_grid s w h !! k = Some t → tile_grid s w h !! k' = Some t' →
  in_output_region t px py → in_output_region t' px py → k = k'.
Proof.
  intros Hh Hw HT Hs Ht Ht' Hr Hr'.
  pose proof (ceil_div_pos w _ HT Hw) as Htx.
  pose proof (ceil_div_pos h _ HT Hh) as Hty.
  pose proof (tile_grid_lookup_idx s w h k t ltac:(lia) ltac:(lia) Ht) as Hi.
  pose proof (tile_grid_lookup_idx s w h k' t' ltac:(lia) ltac:(lia) Ht') as Hi'.
  apply list_elem_of_lookup_2, tile_grid_at in Ht as (y & x & ->).
  apply list_elem_of_lookup_2, tile_grid_at in Ht' as (y' & x' & ->).
  destruct Hr as [Hx Hy]. destruct Hr' as [Hx' Hy'].
  unfold tile_at in Hx, Hy, Hx', Hy'. simpl in Hx, Hy, Hx', Hy'.
  assert (x' = x) as -> by (by eapply (axis_unique w (tile_size s) (scale s) px)).
  assert (y' = y) as -> by (by eapply (axis_unique h (tile_size s) (scale s) py)).
  lia.
Qed.

Section StitchLoop.
Variable h0 : store.
Variable i0 : instance.
Variable s0 : instance.
Variables (im : handle) (n : network) (hp0 : store) (tr0 : list array).
Variables (lo : nat) (t0 : dtype) (b c H W : Z).
Hypothesis Himg : img s0 = Some im.
Hypothesis Him : h_shape im = [b; c; H; W].
Hypothesis Hnet : net_g s0 = Some n.
Hypothesis Hn : ∀ a b' c' h w,
  shape a = [b'; c'; h; w] →
  ∃ r, n a = inr r ∧ shape r = [b'; c'; h * scale s0; w * scale s0].
Hypothesis Hlo : (length h0 ≤ lo)%nat.
Hypothesis Hloc : (h_loc im < lo)%nat.
Hypothesis HH : 1 ≤ H.
Hypothesis HW : 1 ≤ W.
Hypothesis HT : 0 < tile_size s0.
Hypothesis HP : 0 ≤ tile_pad s0.
Hypothesis Hs : 1 ≤ scale s0.

Lemma wp_tile_loop_stitch σ :
  stitched s0 im n hp0 tr0 lo t0 b c H W [] σ →
  wp h0 i0 (tile_loop s0 W H)
    (λ _ σ', stitched s0 im n hp0 tr0 lo t0 b c H W (tile_grid s0 W H) σ') no_exn σ.
Proof.
  intros Hst. eapply wp_run_eq; [apply tile_loop_grid|].
  eapply wp_conseq; [| |done].
  - apply (wp_for_each_ix h0 i0 (tile_grid s0 W H) _
             (λ k _ σ', stitched s0 im n hp0 tr0 lo t0 b c H W
                          (take k (tile_grid s0 W H)) σ')).
    + exact Hst.
    + intros k t acc σ1 Ht Hst1. rewrite (take_S_r _ _ _ Ht).
      apply (wp_tile_body_stitch h0 i0 s0 im n hp0 tr0 lo t0 b c H W); try done.
      * apply tile_grid_fits; try done. by eapply list_elem_of_lookup_2.
      * intros t' px py Ht' Hr' Hr.
        apply list_elem_of_lookup in Ht' as [k' Hk'].
        apply lookup_take_Some in Hk' as [Hk' Hlt].
        pose proof (tile_grid_disjoint s0 W H k k' t t' px py HH HW HT Hs Ht Hk' Hr Hr').
        lia.
  - intros acc σ' _ Hst'. by rewrite firstn_all in Hst'.
Qed.

End StitchLoop.

(** [tile_process] with a network that scales: it returns, and the
    loop has gone through all the tiles of the grid. *)
Lemma tile_process_stitched (σ : state) (im : handle) (a0 : array) (n : network)
    (b c H W : Z) :
  backend (self σ) ≠ "onnx" → backend (self σ) ≠ "triton" →
  img (self σ) = Some im →
  deref (heap σ) im = Some a0 →
  h_shape im = [b; c; H; W] →
  0 ≤ b → 0 ≤ c → 1 ≤ H → 1 ≤ W →
  0 < tile_size (self σ) → 0 ≤ tile_pad (self σ) → 1 ≤ scale (self σ) →
  net_g (self σ) = Some n →
  (∀ a b' c' h w,
     shape a = [b'; c'; h; w] →
     ∃ r, n a = inr r ∧ shape r = [b'; c'; h * scale (self σ); w * scale (self σ)]) →
  ∃ σ',
    tile_process σ = (inr tt, σ') ∧
    stitched (self σ) im n (heap σ) (inferred σ) (length (heap σ)) (a_dtype a0) b c H W
      (tile_grid (self σ) W H) σ'.
Proof.
  intros Hb1 Hb2 Himg Hd0 Him Hb Hc HH HW HT HP Hs Hnet Hn.
  assert (h_loc im < length (heap σ))%nat as Hloc.
  { unfold deref in Hd0. destruct (heap σ !! h_loc im) eqn:Hl; [|done].
    by eapply lookup_lt_Some. }
  destruct (wp_total (heap σ) (self σ) tile_process
              (λ _ σ', stitched (self σ) im n (heap σ) (inferred σ) (length (heap σ))
                         (a_dtype a0) b c H W (tile_grid (self σ) W H) σ') σ)
    as ([] & σ' & Hrun & Hst & _); [|apply inv_refl|by exists σ'].
  unfold tile_process.
  apply wp_bind, wp_get_self.
  rewrite !bool_decide_eq_false_2 by done. cbn [orb].
  apply wp_bind, (wp_attr_Some _ _ _ _ im); [done|].
  rewrite Him.
  apply wp_bind, wp_load. intros a _ Ha. rewrite (Ha a0 Hd0).
  apply wp_bind. eapply wp_lift_inr; [apply new_zeros_inr; repeat constructor; nia|].
  apply wp_bind, wp_alloc_whole.
  apply wp_bind, wp_modify_self; [done|].
  apply wp_bind. rewrite bool_decide_eq_false_2 by lia. apply wp_ret.
  apply wp_bind. wp_simpl.
  eapply wp_conseq;
    [apply (wp_tile_loop_stitch (heap σ) (self σ) (self σ) im n (heap σ) (inferred σ)
              (length (heap σ)) (a_dtype a0) b c H W); try done| |done].
  - wp_simpl. unfold stitched. simpl. split; [done|]. split.
    + by rewrite lookup_app_l by done.
    + split.
      * exists []. split; [by rewrite app_nil_r|constructor].
      * eexists. split.
        -- unfold deref. simpl. by rewrite lookup_app_r, Nat.sub_diag by done.
        -- split; [done|]. intros t Ht. by apply elem_of_nil in Ht.
  - intros acc σ1 _ Hst. by apply wp_ret.
Qed.

(** C1.  Tiling of the output by [tile_process].  Let [self.img] be a
    tensor of height [h >= 1] and width [w >= 1], the tile size [T > 0],
    the tile pad [P >= 0], the scale [s >= 1], the backend one with
    tiling, and let every inference call return a tensor of [s] times
    the height and width of its input.  Then [tile_process] returns, and:
    - it makes [ceil(w / T) * ceil(h / T)] inference calls; the call
      number [y * tiles_x + x] (row-major order) is the one of tile
      (x, y), on the padded input rectangle of that tile;
    - the output region of tile (x, y) is
      [x*T*s, min((x+1)*T, w)*s) by [y*T*s, min((y+1)*T, h)*s), and in
      [self.output] it holds the samples the network returned for that
      tile (its output without the scaled padding);
    - every pixel of the output rectangle [0, w*s) by [0, h*s) lies in
      the region of exactly one tile, and every region lies inside the
      rectangle. *)
Theorem tile_process_partitions_output (σ : state) (im : handle) (a0 : array)
    (n : network) (b c h w : Z) :
  backend (self σ) ≠ "onnx" → backend (self σ) ≠ "triton" →
  img (self σ) = Some im →
  deref (heap σ) im = Some a0 →
  h_shape im = [b; c; h; w] →
  0 ≤ b → 0 ≤ c → 1 ≤ h → 1 ≤ w →
  0 < tile_size (self σ) → 0 ≤ tile_pad (self σ) → 1 ≤ scale (self σ) →
  net_g (self σ) = Some n →
  (∀ a b' c' h' w',
     shape a = [b'; c'; h'; w'] →
     ∃ r, n a = inr r ∧ shape r = [b'; c'; h' * scale (self σ); w' * scale (self σ)]) →
  let T := tile_size (self σ) in
  let s := scale (self σ) in
  let tiles_x := ceil_div w T in
  let tiles_y := ceil_div h T in
  let tile_xy x y := tile_at (self σ) w h tiles_x y x in
  ∃ o r inputs σ',
    tile_process σ = (inr tt, σ') ∧
    output (self σ') = Some o ∧
    deref (heap σ') o = Some r ∧
    shape r = [b; c; h * s; w * s] ∧
    inferred σ' = inferred σ ++ inputs ∧
    length inputs = Z.to_nat (tiles_x * tiles_y) ∧
    (∀ x y, 0 ≤ x < tiles_x → 0 ≤ y < tiles_y →
       ∃ a_t r_t,
         tile_input (heap σ) im (tile_xy x y) = Some a_t ∧
         inputs !! Z.to_nat (y * tiles_x + x) = Some a_t ∧
         n a_t = inr r_t ∧
         (output_start_x (tile_xy x y) = x * T * s ∧
          output_end_x (tile_xy x y) = Z.min ((x + 1) * T) w * s ∧
          output_start_y (tile_xy x y) = y * T * s ∧
          output_end_y (tile_xy x y) = Z.min ((y + 1) * T) h * s) ∧
         ∀ jn jc py px,
           0 ≤ jn < b → 0 ≤ jc < c → in_output_region (tile_xy x y) px py →
           data r [jn; jc; py; px]
           = cast (a_dtype a0) (tile_sample r_t (tile_xy x y) jn jc py px)) ∧
    (∀ px py, 0 ≤ px < w * s → 0 ≤ py < h * s →
       ∃ x y, (0 ≤ x < tiles_x ∧ 0 ≤ y < tiles_y) ∧
         in_output_region (tile_xy x y) px py ∧
         ∀ x' y', 0 ≤ x' < tiles_x → 0 ≤ y' < tiles_y →
           in_output_region (tile_xy x' y') px py → x' = x ∧ y' = y) ∧
    (∀ x y px py, 0 ≤ x < tiles_x → 0 ≤ y < tiles_y →
       in_output_region (tile_xy x y) px py →
       0 ≤ px < w * s ∧ 0 ≤ py < h * s).
Proof.
  intros Hb1 Hb2 Himg Hd0 Him Hb Hc Hh Hw HT HP Hs Hnet Hn T s tiles_x tiles_y tile_xy.
  destruct (tile_process_stitched σ im a0 n b c h w) as (σ' & Hrun & Hst); try done.
  destruct Hst as (Hself & _ & (inputs & Htr & Hin) & r & Hdo & Ht0 & Hdone).
  cbv zeta in Hself, Hdo.
  destruct (tile_grid_geometry (self σ) w h Hh Hw HT HP Hs)
    as (_ & _ & Hlen & Hpos & Hreg & Hcover & Hinside).
  fold T s tiles_x tiles_y in Hlen, Hpos, Hreg, Hcover, Hinside.
  eexists _, r, inputs, σ'. split_and!; try done.
  - by rewrite Hself.
  - unfold deref in Hdo. destruct (heap σ' !! _); [|done].
    simpl in Hdo. by injection Hdo as <-.
  - by rewrite <- (Forall2_length _ _ _ Hin).
  - intros x y Hx Hy.
    destruct (Hpos x y Hx Hy) as [Hk _]. fold (tile_xy x y) in Hk.
    destruct (Hdone (tile_xy x y)) as (a_t & r_t & Ha_t & Hr_t & Hval);
      [by eapply list_elem_of_lookup_2|].
    exists a_t, r_t. split_and!; try done; try (by apply Hreg).
    destruct (Forall2_lookup_l _ _ _ _ _ Hin Hk) as (a & Ha & Hta).
    rewrite Ha. congruence.
Qed.

Lemma tile_process_partitions_output_witness :
  let σ := Sample.state_with_img (Sample.upsampler 2 2 1 0 None (Sample.nn_up 2))
             (Sample.tensor 3 3) in
  ∃ o r inputs σ',
    tile_process σ = (inr tt, σ') ∧
    output (self σ') = Some o ∧
    deref (heap σ') o = Some r ∧
    shape r = [1; 1; 6; 6] ∧
    inferred σ' = inputs ∧
    length inputs = 4%nat ∧
    (∀ px py, 0 ≤ px < 6 → 0 ≤ py < 6 →
       ∃ x y, (0 ≤ x < 2 ∧ 0 ≤ y < 2) ∧
         in_output_region (tile_at (self σ) 3 3 2 y x) px py).
Proof.
  intros σ.
  destruct (tile_process_partitions_output σ (whole 0 [1; 1; 3; 3]) (Sample.tensor 3 3)
              (Sample.nn_up 2) 1 1 3 3)
    as (o & r & inputs & σ' & Hrun & Ho & Hd & Hs & Htr & Hlen & _ & Hcover & _);
    [discriminate|discriminate|reflexivity|reflexivity|reflexivity
    |lia|lia|lia|lia|simpl; lia|simpl; lia|simpl; lia|reflexivity| |].
  - intros a b' c' h' w' Ha. unfold Sample.nn_up. rewrite Ha. eexists. split; reflexivity.
  - exists o, r, inputs, σ'. split; [exact Hrun|]. split; [exact Ho|]. split; [exact Hd|].
    split; [exact Hs|]. split; [exact Htr|]. split; [exact Hlen|].
    intros px py Hpx Hpy. destruct (Hcover px py Hpx Hpy) as (x & y & Hxy & Hreg & _).
    exists x, y. split; [exact Hxy|exact Hreg].
Defined.

(** Tiled inference computes what untiled inference computes, for a
    network that works sample by sample.  With the torch or huggingface
    backend, an image tensor of at least one pixel, a positive tile size
    and any tile pad, and a network that computes every output sample
    from the input sample under it: [tile_process] returns, and every
    sample of [self.output] is the sample at the same place of the
    network's result on the whole of [self.img], converted to the
    element type of [self.img]. *)
Theorem tile_process_pointwise (σ : state) (im : handle) (a0 : array) (n : network)
    (g : Q → Q) (b c H W : Z) :
  backend (self σ) ≠ "onnx" → backend (self σ) ≠ "triton" →
  img (self σ) = Some im →
  deref (heap σ) im = Some a0 →
  h_shape im = [b; c; H; W] →
  0 ≤ b → 0 ≤ c → 1 ≤ H → 1 ≤ W →
  0 < tile_size (self σ) → 0 ≤ tile_pad (self σ) → 1 ≤ scale (self σ) →
  net_g (self σ) = Some n →
  pointwise (scale (self σ)) g n →
  ∃ o r full σ',
    tile_process σ = (inr tt, σ') ∧
    output (self σ') = Some o ∧
    deref (heap σ') o = Some r ∧
    n a0 = inr full ∧
    shape r = shape full ∧
    a_dtype r = a_dtype a0 ∧
    ∀ jn jc jy jx,
      0 ≤ jn < b → 0 ≤ jc < c →
      0 ≤ jy < H * scale (self σ) → 0 ≤ jx < W * scale (self σ) →
      data r [jn; jc; jy; jx] = cast (a_dtype a0) (data full [jn; jc; jy; jx]).
Proof.
  intros Hb1 Hb2 Himg Hd0 Him Hb Hc HH HW HT HP Hs Hnet Hn.
  assert (∃ b_im, heap σ !! h_loc im = Some b_im ∧ a0 = view_of im b_im)
    as (b_im & Hbim & ->).
  { unfold deref in Hd0. destruct (heap σ !! h_loc im) as [b_im|]; [|done].
    exists b_im. split; [done|]. simpl in Hd0. by injection Hd0 as <-. }
  destruct (Hn (view_of im b_im) _ _ _ _ Him) as (full & Hfull & Hfs & Hfd).
  destruct (tile_process_stitched σ im (view_of im b_im) n b c H W) as (σ' & Hrun & Hst);
    try done.
  { intros a b' c' h w Ha. destruct (Hn a _ _ _ _ Ha) as (r & Hr & Hrs & _). eauto. }
  destruct Hst as (Hself & _ & _ & r & Hdo & Ht0 & Hdone). cbv zeta in Hself, Hdo.
  eexists _, r, full, σ'. split_and!; try done.
  - by rewrite Hself.
  - unfold deref in Hdo. destruct (heap σ' !! _); [|done].
    simpl in Hdo. injection Hdo as <-. by rewrite Hfs.
  - intros jn jc jy jx Hjn Hjc Hjy Hjx.
    destruct (tile_grid_cover (self σ) W H jx jy HT Hs Hjx Hjy) as (t & Ht & Hreg).
    destruct (Hdone t Ht) as (a_t & r_t & Ha_t & Hr_t & Hval).
    rewrite (Hval jn jc jy jx Hjn Hjc Hreg), Hfd. f_equal.
    pose proof (tile_grid_fits (self σ) W H t HH HW HT HP Hs Ht)
      as ((Hiy & Hix) & _).
    unfold tile_input in Ha_t.
    destruct (slice_hw_range b c H W (input_start_y_pad t) (input_end_y_pad t)
                (input_start_x_pad t) (input_end_x_pad t) im Him)
      as (input_tile & Hit & Hits & Hitl); [lia..|].
    rewrite Hit in Ha_t. unfold deref in Ha_t. rewrite Hitl, Hbim in Ha_t.
    simpl in Ha_t. injection Ha_t as <-.
    destruct (Hn (view_of input_tile b_im) _ _ _ _ Hits) as (r' & Hr' & _ & Hrd).
    rewrite Hr' in Hr_t. injection Hr_t as ->.
    unfold tile_sample. rewrite Hrd. simpl.
    rewrite (slice_hw_map _ _ _ _ _ _ _ _ _ _ _ _ _ _
               Him (proj1 Hiy) (proj2 Hiy) (proj1 Hix) (proj2 Hix) Hit).
    apply tile_grid_at in Ht as (y & x & ->). simpl.
    replace (jy - y * tile_size (self σ) * scale (self σ)
             + (y * tile_size (self σ)
                - (y * tile_size (self σ) - tile_pad (self σ)) `max` 0) * scale (self σ))
      with (jy + (- ((y * tile_size (self σ) - tile_pad (self σ)) `max` 0))
                 * scale (self σ)) by lia.
    replace (jx - x * tile_size (self σ) * scale (self σ)
             + (x * tile_size (self σ)
                - (x * tile_size (self σ) - tile_pad (self σ)) `max` 0) * scale (self σ))
      with (jx + (- ((x * tile_size (self σ) - tile_pad (self σ)) `max` 0))
                 * scale (self σ)) by lia.
    rewrite !Z.div_add by lia. repeat f_equal; lia.
Qed.

Lemma nn_up_pointwise s : pointwise s id (Sample.nn_up s).
Proof.
  intros a b c h w Ha. unfold Sample.nn_up. rewrite Ha.
  eexists. split; [reflexivity|]. split; reflexivity.
Qed.

Lemma tile_process_pointwise_witness :
  let σ := Sample.state_with_img (Sample.upsampler 2 2 1 0 None (Sample.nn_up 2))
             (Sample.tensor 3 3) in
  ∃ o r σ',
    tile_process σ = (inr tt, σ') ∧
    output (self σ') = Some o ∧
    deref (heap σ') o = Some r ∧
    ∀ jy jx, 0 ≤ jy < 6 → 0 ≤ jx < 6 →
      data r [0; 0; jy; jx] = inject_Z (jy `div` 2 * 3 + jx `div` 2).
Proof.
  intros σ.
  destruct (tile_process_pointwise σ (whole 0 [1; 1; 3; 3]) (Sample.tensor 3 3)
              (Sample.nn_up 2) id 1 1 3 3)
    as (o & r & full & σ' & Hrun & Ho & Hd & Hfull & _ & _ & Hdata);
    [discriminate|discriminate|reflexivity|reflexivity|reflexivity
    |lia|lia|lia|lia|simpl; lia|simpl; lia|simpl; lia|reflexivity| |].
  - apply nn_up_pointwise.
  - exists o, r, σ'. split; [exact Hrun|]. split; [exact Ho|]. split; [exact Hd|].
    intros jy jx Hjy Hjx. rewrite (Hdata 0 0 jy jx) by (simpl; lia).
    injection Hfull as <-. reflexivity.
Defined.
